(** * OciorABA-star simulation: a shallow embedding of [main.py]

    The development follows the layout of the Python source:
    - Python values used by the program (integers as [Z], insertion-ordered
      dictionaries, list slicing and indexing, exceptions);
    - the Shamir codec ([_eval_polynomial], [ECEnc], [_lagrange_interpolate],
      [ECDec]) over the field of [_PRIME = 2^127 - 1] elements;
    - the [CommonCoin] and [ABBA] state machines;
    - the node orchestrator [OciorABAStarNode] together with the global
      registry [NODES] and the reliable broadcast [RBC].

    Python integers are unbounded, so they are modelled by [Z]; the [%]
    operator with a positive modulus coincides with [Z.modulo]. *)

From Stdlib Require Import ZArith List Bool Lia Znumtheory Zpow_facts.
From Stdlib Require Import Permutation.
From Stdlib Require Zmod.
Import ListNotations.
Local Open Scope Z_scope.

(** ** Python dictionaries

    A [dict] keeps its keys in insertion order; assigning to a key that is
    already present updates the value in place and keeps the position. The
    program iterates over [NODES.values()], [self.abba.items()] and
    [coin_shares.values()], so the order is part of the behaviour. *)

Module PyDict.
Section Dict.
Context {V : Type}.

Definition dict := list (Z * V).

Definition empty : dict := [].

Fixpoint get (d : dict) (k : Z) : option V :=
  match d with
  | [] => None
  | (k', v) :: r => if k =? k' then Some v else get r k
  end.

Definition contains (d : dict) (k : Z) : bool :=
  match get d k with Some _ => true | None => false end.

Fixpoint set (d : dict) (k : Z) (v : V) : dict :=
  match d with
  | [] => [(k, v)]
  | (k', v') :: r => if k =? k' then (k, v) :: r else (k', v') :: set r k v
  end.

Definition keys (d : dict) : list Z := map fst d.
Definition values (d : dict) : list V := map snd d.
Definition items (d : dict) : list (Z * V) := d.
Definition len (d : dict) : Z := Z.of_nat (length d).
End Dict.
Arguments dict : clear implicits.
End PyDict.

Abbreviation dict := PyDict.dict.

(** ** Python list slicing and indexing *)

(** [l[:k]]: a negative bound counts from the end of the list. *)
Definition slice_to {A : Type} (l : list A) (k : Z) : list A :=
  if 0 <=? k then firstn (Z.to_nat k) l
  else firstn (Z.to_nat (Z.of_nat (length l) + k)) l.

(** [l[i]]: [None] stands for [IndexError]; indices in [-len, 0) count from
    the end of the list. *)
Definition index {A : Type} (l : list A) (i : Z) : option A :=
  if 0 <=? i then nth_error l (Z.to_nat i)
  else if 0 <=? Z.of_nat (length l) + i
       then nth_error l (Z.to_nat (Z.of_nat (length l) + i))
       else None.

(** [range(a, b)] *)
Definition range (a b : Z) : list Z :=
  map (fun i => a + Z.of_nat i) (seq 0 (Z.to_nat (b - a))).

(** [sum(1 for v in l if v == x)] *)
Definition count_eq (x : Z) (l : list Z) : Z :=
  Z.of_nat (length (filter (fun v => v =? x) l)).

(** ** Common coin *)

Module CommonCoin.

Record obj := mk {
  n : Z;
  t : Z;
  coin_shares : dict Z;          (* node id -> coin share *)
  _coin_value : option Z
}.

Definition __init__ (n t : Z) : obj := mk n t PyDict.empty None.

Definition _try_compute_coin (c : obj) : obj :=
  if (PyDict.len (coin_shares c) >=? t c + 1)
     && (match _coin_value c with None => true | Some _ => false end)
  then
    let coin_value :=
      fold_left Z.lxor (slice_to (PyDict.values (coin_shares c)) (t c + 1)) 0 in
    mk (n c) (t c) (coin_shares c) (Some coin_value)
  else c.

Definition contribute_share (c : obj) (node_id round_num : Z) : obj :=
  let share := (node_id * 7 + round_num * 13) mod 2 in
  _try_compute_coin
    (mk (n c) (t c) (PyDict.set (coin_shares c) node_id share) (_coin_value c)).

Definition get_coin_value (c : obj) : option Z := _coin_value c.

Definition has_coin_value (c : obj) : bool :=
  match _coin_value c with Some _ => true | None => false end.

End CommonCoin.

(** ** Simplified ABBA with common coin *)

Module ABBA.

Record obj := mk {
  owner : Z;
  n : Z;
  t : Z;
  inputs : dict Z;               (* sender id -> vote *)
  _output : option Z;
  common_coin : CommonCoin.obj;
  coin_requested : bool
}.

Definition __init__ (owner n t : Z) : obj :=
  mk owner n t PyDict.empty None (CommonCoin.__init__ n t) false.

Definition ones (a : obj) : Z := count_eq 1 (PyDict.values (inputs a)).
Definition zeros (a : obj) : Z := count_eq 0 (PyDict.values (inputs a)).
Definition total_votes (a : obj) : Z := PyDict.len (inputs a).

Definition set_output (a : obj) (o : option Z) : obj :=
  mk (owner a) (n a) (t a) (inputs a) o (common_coin a) (coin_requested a).

Definition _try_decide (a : obj) : obj :=
  match _output a with
  | Some _ => a
  | None =>
    if ones a >=? n a - t a then set_output a (Some 1)
    else if zeros a >=? n a - t a then set_output a (Some 0)
    else if total_votes a >=? n a - t a then
      if CommonCoin.has_coin_value (common_coin a) then
        let coin_value := CommonCoin.get_coin_value (common_coin a) in
        if ones a >=? t a + 1 then set_output a (Some 1)
        else if zeros a >=? t a + 1 then set_output a (Some 0)
        else set_output a coin_value
      else a
    else a
  end.

Definition input (a : obj) (sender v : Z) : obj :=
  if PyDict.contains (inputs a) sender then a
  else
    let a1 := mk (owner a) (n a) (t a) (PyDict.set (inputs a) sender v)
                 (_output a) (common_coin a) (coin_requested a) in
    let a2 :=
      if coin_requested a1 then a1
      else mk (owner a1) (n a1) (t a1) (inputs a1) (_output a1)
              (CommonCoin.contribute_share (common_coin a1) sender 1) true in
    _try_decide a2.

Definition has_output (a : obj) : bool :=
  match _output a with Some _ => true | None => false end.

Definition get_output (a : obj) : option Z := _output a.

(** Feeding a sequence of [(sender, vote)] calls, in order. *)
Definition inputs_seq (a : obj) (l : list (Z * Z)) : obj :=
  fold_left (fun a sv => input a (fst sv) (snd sv)) l a.

End ABBA.

(** ** Exceptions

    Only the exceptions that the modelled code can raise are listed. A raised
    exception keeps the mutations made before it. *)

Inductive exn := ValueError | AssertionError | IndexError | KeyError.

Inductive result (A : Type) :=
| Ok (a : A)
| Raise (e : exn).
Arguments Ok {A} a.
Arguments Raise {A} e.

(** ** The [random] module

    The generator is the Mersenne Twister of CPython; the program relies only
    on its interface: [random.seed(a)] replaces the global state by one that
    depends on [a] alone, [random.randrange(b)] and [random.choice(l)] draw
    from the state and advance it. The generator is a parameter of the
    model. *)

Class PyRandom := {
  rng : Type;
  rng_seed : Z -> rng;
  rng_randrange : Z -> rng -> Z * rng;
  rng_choice : list Z -> rng -> Z * rng
}.

(** ** Shamir secret sharing (erasure code) *)

Definition _PRIME : Z := 2 ^ 127 - 1.

Definition share : Type := Z * Z.

(** [pow(b, e, m)] for [e >= 0] and [m > 0], by repeated squaring. The
    program calls it with exponents [power >= 0] and [prime - 2] only. *)
Definition pow3 (b e m : Z) : Z := Zpow_mod b e m.

(** [enumerate(l)] *)
Definition enumerate {A : Type} (l : list A) : list (Z * A) :=
  combine (map Z.of_nat (seq 0 (length l))) l.

Definition _eval_polynomial (coeffs : list Z) (x prime : Z) : Z :=
  fold_left
    (fun result pc => (result + snd pc * pow3 x (fst pc) prime) mod prime)
    (enumerate coeffs) 0.

(** [[random.randrange(bound) for _ in range(m)]] *)
Fixpoint randrange_list `{PyRandom} (m : nat) (bound : Z) (g : rng)
  : list Z * rng :=
  match m with
  | O => ([], g)
  | S m' =>
    let (c, g1) := rng_randrange bound g in
    let (cs, g2) := randrange_list m' bound g1 in
    (c :: cs, g2)
  end.

(** The coefficient vector built by [ECEnc]: the secret followed by [k - 1]
    draws of the generator seeded with the secret. *)
Definition ECEnc_coeffs `{PyRandom} (k secret : Z) : list Z * rng :=
  let (cs, g) := randrange_list (Z.to_nat (k - 1)) _PRIME (rng_seed secret) in
  (secret :: cs, g).

(** [ECEnc] reseeds the global generator, so it takes and returns its
    state. *)
Definition ECEnc `{PyRandom} (n k secret : Z) (g : rng)
  : result (list share) * rng :=
  if (0 <=? secret) && (secret <? _PRIME) then
    let (coeffs, g') := ECEnc_coeffs k secret in
    (Ok (map (fun i => (i, _eval_polynomial coeffs i _PRIME)) (range 1 (n + 1))),
     g')
  else (Raise ValueError, g).

(** The inner loop of [_lagrange_interpolate] for the index [i]: the pair
    [(num, den)] after [for j in range(k)]. The indices stay below
    [len(x_s)], so the reads of [x_s] cannot fail. *)
Definition lagrange_num_den (x : Z) (x_s : list Z) (prime : Z) (i : nat)
  : Z * Z :=
  let xi := nth i x_s 0 in
  fold_left
    (fun nd j =>
       if Nat.eqb i j then nd
       else
         let xj := nth j x_s 0 in
         ((fst nd * (x - xj)) mod prime, (snd nd * (xi - xj)) mod prime))
    (seq 0 (length x_s)) (1, 1).

(** [y_s[i]] raises [IndexError] when [y_s] is shorter than [x_s]. *)
Definition _lagrange_interpolate (x : Z) (x_s y_s : list Z) (prime : Z)
  : result Z :=
  fold_left
    (fun total i =>
       match total with
       | Raise e => Raise e
       | Ok total =>
         match nth_error y_s i with
         | None => Raise IndexError
         | Some yi =>
           let (num, den) := lagrange_num_den x x_s prime i in
           let inv_den := pow3 den (prime - 2) prime in
           Ok ((total + yi * num * inv_den) mod prime)
         end
       end)
    (seq 0 (length x_s)) (Ok 0).

(** Unpacking the transposed slice [shares[:k]] into [x_s, y_s] fails with
    [ValueError] when the slice is empty: [zip()] yields nothing to unpack. *)
Definition ECDec (n k : Z) (shares : list share) : result Z :=
  match slice_to shares k with
  | [] => Raise ValueError
  | sl => _lagrange_interpolate 0 (map fst sl) (map snd sl) _PRIME
  end.

(** ** Node state *)

Module OciorABAStarNode.

Record obj := mk {
  id : Z;
  n : Z;
  t : Z;
  is_byzantine : bool;
  vi : dict (option Z);                   (* votes from each node *)
  _shares : list share;                   (* shares generated by this node *)
  pending_shares : list (Z * share);      (* shares received before ready *)
  rbc_shares : dict share;                (* shares received from other nodes *)
  abba : dict ABBA.obj;                   (* ABBA per sender *)
  abba_out : dict Z;                      (* outputs of the ABBA instances *)
  final_decision : option Z;
  protocol_complete : bool
}.

Definition new (node_id n t : Z) (is_byzantine : bool) : obj :=
  mk node_id n t is_byzantine
     (map (fun j => (j, None)) (range 1 (n + 1)))
     [] [] PyDict.empty
     (map (fun j => (j, ABBA.__init__ j n t)) (range 1 (n + 1)))
     PyDict.empty None false.

Definition set_vi (o : obj) (x : dict (option Z)) : obj :=
  mk (id o) (n o) (t o) (is_byzantine o) x (_shares o) (pending_shares o)
     (rbc_shares o) (abba o) (abba_out o) (final_decision o)
     (protocol_complete o).
Definition set__shares (o : obj) (x : list share) : obj :=
  mk (id o) (n o) (t o) (is_byzantine o) (vi o) x (pending_shares o)
     (rbc_shares o) (abba o) (abba_out o) (final_decision o)
     (protocol_complete o).
Definition set_pending_shares (o : obj) (x : list (Z * share)) : obj :=
  mk (id o) (n o) (t o) (is_byzantine o) (vi o) (_shares o) x
     (rbc_shares o) (abba o) (abba_out o) (final_decision o)
     (protocol_complete o).
Definition set_rbc_shares (o : obj) (x : dict share) : obj :=
  mk (id o) (n o) (t o) (is_byzantine o) (vi o) (_shares o)
     (pending_shares o) x (abba o) (abba_out o) (final_decision o)
     (protocol_complete o).
Definition set_abba (o : obj) (x : dict ABBA.obj) : obj :=
  mk (id o) (n o) (t o) (is_byzantine o) (vi o) (_shares o)
     (pending_shares o) (rbc_shares o) x (abba_out o) (final_decision o)
     (protocol_complete o).
Definition set_abba_out (o : obj) (x : dict Z) : obj :=
  mk (id o) (n o) (t o) (is_byzantine o) (vi o) (_shares o)
     (pending_shares o) (rbc_shares o) (abba o) x (final_decision o)
     (protocol_complete o).
Definition set_final_decision (o : obj) (x : option Z) : obj :=
  mk (id o) (n o) (t o) (is_byzantine o) (vi o) (_shares o)
     (pending_shares o) (rbc_shares o) (abba o) (abba_out o) x
     (protocol_complete o).
Definition set_protocol_complete (o : obj) (x : bool) : obj :=
  mk (id o) (n o) (t o) (is_byzantine o) (vi o) (_shares o)
     (pending_shares o) (rbc_shares o) (abba o) (abba_out o)
     (final_decision o) x.

End OciorABAStarNode.

Abbreviation node := OciorABAStarNode.obj.

(** [sorted(l)] on integers: insertion sort, ascending. *)
Fixpoint insert_sorted (x : Z) (l : list Z) : list Z :=
  match l with
  | [] => [x]
  | y :: r => if x <=? y then x :: l else y :: insert_sorted x r
  end.

Definition sorted (l : list Z) : list Z := fold_right insert_sorted [] l.

(** The local values of [_finalize]. *)

(** [Aones = {j for j, v in self.abba_out.items() if v == 1}]; the keys of a
    dictionary are distinct, so the list has no repetition. *)
Definition Aones (o : node) : list Z :=
  map fst (filter (fun jv => snd jv =? 1)
                  (PyDict.items (OciorABAStarNode.abba_out o))).

(** [Bones = sorted(Aones)[: self.t + 1]] *)
Definition Bones (o : node) : list Z :=
  slice_to (sorted (Aones o)) (OciorABAStarNode.t o + 1).

(** [missing = [j for j in Bones if j not in self.rbc_shares]] *)
Definition missing (o : node) : list Z :=
  filter (fun j => negb (PyDict.contains (OciorABAStarNode.rbc_shares o) j))
         (Bones o).

(** [[self._shares[j - 1] for j in js]]; [None] stands for [IndexError]. *)
Fixpoint own_shares_at (o : node) (js : list Z) : option (list share) :=
  match js with
  | [] => Some []
  | j :: r =>
    match index (OciorABAStarNode._shares o) (j - 1) with
    | None => None
    | Some sh =>
      match own_shares_at o r with
      | None => None
      | Some l => Some (sh :: l)
      end
    end
  end.

(** The shares received by broadcast from the proposers [js]. *)
Fixpoint received_shares_at (o : node) (js : list Z) : option (list share) :=
  match js with
  | [] => Some []
  | j :: r =>
    match PyDict.get (OciorABAStarNode.rbc_shares o) j with
    | None => None
    | Some sh =>
      match received_shares_at o r with
      | None => None
      | Some l => Some (sh :: l)
      end
    end
  end.

(** ** The process: registry of nodes and generator state

    Node objects are shared through the global registry [NODES]: a method
    running on behalf of one node mutates the objects of the others. The
    model keeps every node in the registry and refers to it by its id. *)

Section Process.
Context `{PyRandom}.

Record world := mkWorld {
  NODES : dict node;
  random : rng
}.

(** State and exception monad over [world]. *)
Definition M (A : Type) : Type := world -> result A * world.

Definition ret {A} (a : A) : M A := fun w => (Ok a, w).
Definition raise {A} (e : exn) : M A := fun w => (Raise e, w).
Definition bind {A B} (m : M A) (f : A -> M B) : M B :=
  fun w =>
    match m w with
    | (Ok a, w') => f a w'
    | (Raise e, w') => (Raise e, w')
    end.

Notation "x <- m ;; k" := (bind m (fun x => k))
  (at level 61, m at next level, right associativity).
Notation "m ;; k" := (bind m (fun _ => k))
  (at level 61, right associativity).

Fixpoint for_each {A} (l : list A) (body : A -> M unit) : M unit :=
  match l with
  | [] => ret tt
  | a :: r => body a ;; for_each r body
  end.

(** [NODES[i]] *)
Definition get_node (i : Z) : M node :=
  fun w =>
    match PyDict.get (NODES w) i with
    | Some o => (Ok o, w)
    | None => (Raise KeyError, w)
    end.

(** In-place update of the node object registered under [i]. *)
Definition update_node (i : Z) (f : node -> node) : M unit :=
  fun w =>
    match PyDict.get (NODES w) i with
    | Some o => (Ok tt, mkWorld (PyDict.set (NODES w) i (f o)) (random w))
    | None => (Raise KeyError, w)
    end.

(** [NODES.values()] is walked in registry order; the registry itself is
    not modified while the protocol runs. *)
Definition node_ids : M (list Z) := fun w => (Ok (PyDict.keys (NODES w)), w).

(** [NODES[i].abba[j].input(sender, v)] *)
Definition abba_input (i j sender v : Z) : M unit :=
  o <- get_node i ;;
  match PyDict.get (OciorABAStarNode.abba o) j with
  | None => raise KeyError
  | Some ab =>
    update_node i (fun o =>
      OciorABAStarNode.set_abba o
        (PyDict.set (OciorABAStarNode.abba o) j (ABBA.input ab sender v)))
  end.

Definition _finalize (self : Z) : M unit :=
  o <- get_node self ;;
  if Z.of_nat (length (Aones o)) <? OciorABAStarNode.t o + 1 then
    update_node self (fun o =>
      OciorABAStarNode.set_protocol_complete
        (OciorABAStarNode.set_final_decision o None) true)
  else
    match missing o with
    | _ :: _ =>
      update_node self (fun o => OciorABAStarNode.set_protocol_complete o true)
    | [] =>
      match own_shares_at o (Bones o) with
      | None => raise IndexError
      | Some shares =>
        match ECDec (OciorABAStarNode.n o) (OciorABAStarNode.t o + 1) shares with
        | Raise e => raise e
        | Ok recovered =>
          update_node self (fun o =>
            OciorABAStarNode.set_protocol_complete
              (OciorABAStarNode.set_final_decision o (Some recovered)) true)
        end
      end
    end.

Definition _inject_default_votes (self : Z) : M unit :=
  o <- get_node self ;;
  if PyDict.len (OciorABAStarNode.abba_out o) >? 0 then
    for_each (range 1 (OciorABAStarNode.n o + 1)) (fun j =>
      o <- get_node self ;;
      if PyDict.contains (OciorABAStarNode.abba_out o) j then ret tt
      else abba_input self j (OciorABAStarNode.id o) 0)
  else ret tt.

Definition _process_abba (self : Z) : M unit :=
  o <- get_node self ;;
  for_each (PyDict.items (OciorABAStarNode.abba o)) (fun jab =>
    o <- get_node self ;;
    if negb (PyDict.contains (OciorABAStarNode.abba_out o) (fst jab))
       && ABBA.has_output (snd jab)
    then
      match ABBA.get_output (snd jab) with
      | Some v =>
        update_node self (fun o =>
          OciorABAStarNode.set_abba_out o
            (PyDict.set (OciorABAStarNode.abba_out o) (fst jab) v))
      | None => ret tt
      end
    else ret tt) ;;
  _inject_default_votes self ;;
  o <- get_node self ;;
  if PyDict.len (OciorABAStarNode.abba_out o) =? OciorABAStarNode.n o
  then _finalize self
  else ret tt.

(** [random.choice([0, 1])] *)
Definition random_choice (l : list Z) : M Z :=
  fun w =>
    let (v, g) := rng_choice l (random w) in
    (Ok v, mkWorld (NODES w) g).

Definition _process_share (self sender : Z) (sh : share) : M unit :=
  o <- get_node self ;;
  let (x_j, y_jj) := sh in
  match index (OciorABAStarNode._shares o) (sender - 1) with
  | None => raise IndexError
  | Some (x_i_j, y_i_j) =>
    if negb (x_i_j =? x_j) then raise AssertionError
    else
      vote <- (if OciorABAStarNode.is_byzantine o
               then random_choice [0; 1]
               else ret (if y_jj =? y_i_j then 1 else 0)) ;;
      update_node self (fun o =>
        OciorABAStarNode.set_vi o
          (PyDict.set (OciorABAStarNode.vi o) sender (Some vote))) ;;
      ids <- node_ids ;;
      for_each ids (fun i => abba_input i sender (OciorABAStarNode.id o) vote) ;;
      _process_abba self
  end.

Definition on_rbc_delivery (self sender : Z) (sh : share) : M unit :=
  update_node self (fun o =>
    OciorABAStarNode.set_rbc_shares o
      (PyDict.set (OciorABAStarNode.rbc_shares o) sender sh)) ;;
  o <- get_node self ;;
  match OciorABAStarNode._shares o with
  | [] =>
    update_node self (fun o =>
      OciorABAStarNode.set_pending_shares o
        (OciorABAStarNode.pending_shares o ++ [(sender, sh)]))
  | _ :: _ => _process_share self sender sh
  end.

(** [RBC.broadcast]: instantaneous fan-out to every registered node. *)
Definition broadcast (owner : Z) (sh : share) : M unit :=
  ids <- node_ids ;;
  for_each ids (fun i => on_rbc_delivery i owner sh).

(** [ECEnc] run against the global generator. *)
Definition ECEnc_M (n k secret : Z) : M (list share) :=
  fun w =>
    let (r, g) := ECEnc n k secret (random w) in
    (r, mkWorld (NODES w) g).

Definition propose (self secret : Z) : M unit :=
  o <- get_node self ;;
  shares <-
    (if OciorABAStarNode.is_byzantine o then
       let corrupted_secret :=
         (secret + OciorABAStarNode.id o * 1000) mod _PRIME in
       ECEnc_M (OciorABAStarNode.n o) (OciorABAStarNode.t o + 1)
               corrupted_secret
     else
       ECEnc_M (OciorABAStarNode.n o) (OciorABAStarNode.t o + 1) secret) ;;
  update_node self (fun o => OciorABAStarNode.set__shares o shares) ;;
  match index shares (OciorABAStarNode.id o - 1) with
  | None => raise IndexError
  | Some (x_i, y_i) =>
    broadcast (OciorABAStarNode.id o) (x_i, y_i) ;;
    o <- get_node self ;;
    for_each (OciorABAStarNode.pending_shares o) (fun p =>
      _process_share self (fst p) (snd p)) ;;
    update_node self (fun o => OciorABAStarNode.set_pending_shares o [])
  end.

(** [OciorABAStarNode(node_id, n, t, is_byzantine)]: the constructor
    registers the new object in [NODES]. *)
Definition __init__ (node_id n t : Z) (is_byzantine : bool) : M unit :=
  fun w =>
    (Ok tt,
     mkWorld (PyDict.set (NODES w) node_id
                (OciorABAStarNode.new node_id n t is_byzantine))
             (random w)).

(** One pass of the driver loop over a node: [_process_abba] is re-entered
    while the node is not complete. *)
Definition poll (i : Z) : M unit :=
  o <- get_node i ;;
  if OciorABAStarNode.protocol_complete o then ret tt else _process_abba i.

(** Calls made on the nodes from outside: construction, [propose] and the
    driver's polling. *)
Inductive call :=
| Create (node_id n t : Z) (is_byzantine : bool)
| Propose (i secret : Z)
| Poll (i : Z).

Definition do_call (c : call) : M unit :=
  match c with
  | Create node_id n t b => __init__ node_id n t b
  | Propose i secret => propose i secret
  | Poll i => poll i
  end.

Definition run (cs : list call) : M unit := for_each cs do_call.

(** The process as the interpreter starts it: an empty registry. *)
Definition start (g : rng) : world := mkWorld PyDict.empty g.

(** The states a process can be in after a sequence of calls that raised
    nothing. *)
Definition reachable (w : world) : Prop :=
  exists g cs, run cs (start g) = (Ok tt, w).

End Process.

(** * Definitions used by the statements and the proofs *)

(** ** A generator for closed examples

    Every draw of [randrange] returns 3 and [choice] returns the head of its
    list. It stands for one possible behaviour of the generator; the
    general statements quantify over every generator. *)
Definition constant_rng : PyRandom :=
  {| rng := unit; rng_seed := fun _ => tt;
     rng_randrange := fun _ g => (3, g);
     rng_choice := fun l g => (hd 0 l, g) |}.

(** ** The ABBA decision rule, as the specification words it

    Strong-1, then Strong-0, then the coin-assisted rule; [None] when no
    condition fires. [coin] is the value of the common coin, if any. *)
Definition decision_rule (n t ones zeros total_votes : Z) (coin : option Z)
  : option Z :=
  if ones >=? n - t then Some 1
  else if zeros >=? n - t then Some 0
  else if total_votes >=? n - t then
    match coin with
    | Some c =>
      if ones >=? t + 1 then Some 1
      else if zeros >=? t + 1 then Some 0
      else Some c
    | None => None
    end
  else None.

(** Some condition of the rule holds, for a coin that is fed one share. *)
Definition fires (n t : Z) (a : ABBA.obj) : Prop :=
  n - t <= ABBA.ones a \/ n - t <= ABBA.zeros a
  \/ (n - t <= ABBA.total_votes a /\ t <= 0).

(** What holds of an instance created by [ABBA(owner, n, t)] after any
    sequence of inputs. *)
Record abba_inv (n t : Z) (a : ABBA.obj) : Prop := {
  inv_n : ABBA.n a = n;
  inv_t : ABBA.t a = t;
  inv_fresh : ABBA.inputs a = [] ->
    ABBA._output a = None /\ ABBA.coin_requested a = false
    /\ ABBA.common_coin a = CommonCoin.__init__ n t;
  inv_requested : ABBA.inputs a <> [] -> ABBA.coin_requested a = true;
  inv_coin : ABBA.inputs a <> [] ->
    (CommonCoin.has_coin_value (ABBA.common_coin a) = true <-> t <= 0);
  inv_output : ABBA.inputs a <> [] ->
    (ABBA.has_output a = true <-> fires n t a)
}.

(** An instance for [n = 4], [t = 1] that has two votes of 1. *)
Definition abba_example : ABBA.obj :=
  ABBA.inputs_seq (ABBA.__init__ 1 4 1) [(1, 1); (2, 1)].

(** ** States of the process *)

(** A field of the node registered under [i], if there is one. *)
Definition node_field `{PyRandom} {A} (f : node -> A) (w : world) (i : Z)
  : option A :=
  option_map f (PyDict.get (NODES w) i).

(** Two honest nodes, [n = 2] and [t = 0]; node 1 has proposed 5. *)
Definition two_nodes_one_proposal `{PyRandom} (g : rng) : world :=
  snd (run [Create 1 2 0 false; Create 2 2 0 false; Propose 1 5] (start g)).

(** Node 1 in that state, field by field. *)
Definition node_1_after_proposal : node :=
  OciorABAStarNode.mk 1 2 0 false
    [(1, Some 1); (2, None)]
    [(1, 5); (2, 5)]
    []
    [(1, (1, 5))]
    [(1, ABBA.input (ABBA.__init__ 1 2 0) 1 1); (2, ABBA.__init__ 2 2 0)]
    [] None false.

(** [Decode] applied to the shares received from the proposers selected at
    finalization, with threshold [t + 1]: the value the specification asks
    [_finalize] to store. [None] when a share is missing. *)
Definition decode_received (o : node) : option (result Z) :=
  option_map (ECDec (OciorABAStarNode.n o) (OciorABAStarNode.t o + 1))
             (received_shares_at o (Bones o)).

(** [Decode] applied to the node's own shares at the selected indices. *)
Definition decode_own (o : node) : option (result Z) :=
  option_map (ECDec (OciorABAStarNode.n o) (OciorABAStarNode.t o + 1))
             (own_shares_at o (Bones o)).

(** The run of two honest nodes, [n = 2] and [t = 0], that propose 5 and 7. *)
Definition two_proposals : list call :=
  [Create 1 2 0 false; Create 2 2 0 false; Propose 1 5; Propose 2 7].

(** Four honest nodes, [n = 4] and [t = 1], that all propose 2025 and are
    polled once each. *)
Definition four_honest_nodes : list call :=
  [Create 1 4 1 false; Create 2 4 1 false; Create 3 4 1 false;
   Create 4 4 1 false;
   Propose 1 2025; Propose 2 2025; Propose 3 2025; Propose 4 2025;
   Poll 1; Poll 2; Poll 3; Poll 4].

(** Node 2 after [two_proposals]. *)
Definition node_2_at_finalization : node :=
  Eval vm_compute in
    match PyDict.get
            (NODES (snd (@run constant_rng two_proposals
                           (@start constant_rng tt)))) 2 with
    | Some o => o
    | None => OciorABAStarNode.new 2 2 0 false
    end.

(** ** Honest nodes that propose one secret [s] *)

(** The node's shares, once set, encode [s]. *)
Definition encodes_common `{PyRandom} (s : Z) (o : node) : Prop :=
  OciorABAStarNode._shares o = []
  \/ exists g,
       fst (ECEnc (OciorABAStarNode.n o) (OciorABAStarNode.t o + 1) s g)
       = Ok (OciorABAStarNode._shares o).

(** What every registered node satisfies in a run whose proposals are all
    [s]: ABBA indices are positive, the recorded outputs have distinct
    indices, and an honest node holds the encoding of [s] and, for
    [0 <= t] and [n <= _PRIME], no final value other than [s]. *)
Record node_ok `{PyRandom} (s : Z) (o : node) : Prop := {
  ok_abba_keys :
    forall j, In j (PyDict.keys (OciorABAStarNode.abba o)) -> 1 <= j;
  ok_out_keys :
    forall j, In j (PyDict.keys (OciorABAStarNode.abba_out o)) -> 1 <= j;
  ok_out_nodup : NoDup (PyDict.keys (OciorABAStarNode.abba_out o));
  ok_shares : OciorABAStarNode.is_byzantine o = false -> encodes_common s o;
  ok_final :
    OciorABAStarNode.is_byzantine o = false ->
    0 <= OciorABAStarNode.t o -> OciorABAStarNode.n o <= _PRIME ->
    OciorABAStarNode.final_decision o = None
    \/ OciorABAStarNode.final_decision o = Some s
}.

Definition world_ok `{PyRandom} (s : Z) (w : world) : Prop :=
  forall i o, PyDict.get (NODES w) i = Some o -> node_ok s o.

(** [m] keeps the invariant, whether it returns or raises. *)
Definition keeps `{PyRandom} (s : Z) {A} (m : M A) : Prop :=
  forall w, world_ok s w -> world_ok s (snd (m w)).

(** Every value returned by [m] from a good state satisfies [Q]. *)
Definition yields `{PyRandom} (s : Z) {A} (m : M A) (Q : A -> Prop) : Prop :=
  forall w a, world_ok s w -> fst (m w) = Ok a -> Q a.

(** Every [propose] of the run is called with the secret [s]. *)
Definition proposes_common (s : Z) (c : call) : Prop :=
  match c with
  | Propose _ secret => secret = s
  | _ => True
  end.

(** The final value of an honest node with [0 <= t] and [n <= _PRIME];
    [None] for the failure sentinel, and for any other node. *)
Definition honest_final `{PyRandom} (w : world) (i : Z) : option Z :=
  match PyDict.get (NODES w) i with
  | Some o =>
    if negb (OciorABAStarNode.is_byzantine o)
       && (0 <=? OciorABAStarNode.t o)
       && (OciorABAStarNode.n o <=? _PRIME)
    then OciorABAStarNode.final_decision o
    else None
  | None => None
  end.

(** ** Polynomials over the integers

    Coefficient lists, lowest degree first. *)
Definition peval (c : list Z) (x : Z) : Z :=
  fold_right (fun a acc => a + x * acc) 0 c.
Arguments peval : simpl never.

Fixpoint padd (a b : list Z) : list Z :=
  match a, b with
  | [], _ => b
  | _, [] => a
  | x :: a', y :: b' => (x + y) :: padd a' b'
  end.

Definition pscale (k : Z) (a : list Z) : list Z := map (Z.mul k) a.

(** [(X - r) * a] *)
Definition pmul_lin (r : Z) (a : list Z) : list Z :=
  padd (0 :: a) (pscale (- r) a).

(** The quotient of [c] by [X - r]. *)
Fixpoint pquot (r : Z) (c : list Z) : list Z :=
  match c with
  | [] => []
  | _ :: c' =>
    match c' with
    | [] => []
    | _ :: _ => peval c' r :: pquot r c'
    end
  end.

(** The product of [x - a] over the [a] of [l]. *)
Definition prod_diff (x : Z) (l : list Z) : Z :=
  fold_right (fun a acc => (x - a) * acc) 1 l.

(** The same product as a polynomial in [X]. *)
Definition pprod_diff (l : list Z) : list Z := fold_right pmul_lin [1] l.

Definition remove_nth {A} (i : nat) (l : list A) : list A :=
  firstn i l ++ skipn (S i) l.

(** [l] without its element of index [i - s], when [s <= i]. *)
Definition skip_at (s i : nat) (l : list Z) : list Z :=
  if (s <=? i)%nat then remove_nth (i - s) l else l.

Definition zsum (l : list Z) : Z := fold_right Z.add 0 l.

Definition psum (l : list (list Z)) : list Z := fold_right padd [] l.

(** The elements of [l] are pairwise distinct modulo [p]. *)
Definition distinct_mod (p : Z) (l : list Z) : Prop :=
  NoDup (map (fun x => x mod p) l).

(** ** Lagrange interpolation, as a sum over the integers

    [lag_den xs i] is the denominator of the [i]-th basis polynomial, and
    [lagrange_sum p x xs ys] the sum that [_lagrange_interpolate] reduces
    modulo [p], with the inverse of a denominator taken as its power
    [p - 2]. *)
Definition lag_den (xs : list Z) (i : nat) : Z :=
  prod_diff (nth i xs 0) (remove_nth i xs).

Definition lag_term (p x : Z) (xs ys : list Z) (i : nat) : Z :=
  nth i ys 0 * prod_diff x (remove_nth i xs) * lag_den xs i ^ (p - 2).

Definition lagrange_sum (p x : Z) (xs ys : list Z) : Z :=
  zsum (map (lag_term p x xs ys) (seq 0 (length xs))).

Definition lagrange_poly (p : Z) (xs ys : list Z) : list Z :=
  psum (map (fun i => pscale (nth i ys 0 * lag_den xs i ^ (p - 2))
                             (pprod_diff (remove_nth i xs)))
            (seq 0 (length xs))).

(** ** Primality by trial division *)

Fixpoint no_divisor_from (fuel : nat) (d n : Z) : bool :=
  match fuel with
  | O => d * d >? n
  | S f =>
    if d * d >? n then true
    else if n mod d =? 0 then false
    else no_divisor_from f (d + 1) n
  end.

Definition trial_prime (n : Z) : bool :=
  (1 <? n) && no_divisor_from (Z.to_nat (Z.sqrt n)) 2 n.

Definition zprod (l : list Z) : Z := fold_right Z.mul 1 l.

(** The prime factors of [_PRIME - 1 = 2 * (2^126 - 1)], with
    multiplicity. *)
Definition PRIME_pred_factors : list Z :=
  [2; 3; 3; 3; 7; 7; 19; 43; 73; 127; 337; 5419; 92737; 649657; 77158673929].

(** ** Interpolation over a list of points

    [picks l] pairs every element of [l] with the list of the others. *)
Fixpoint picks {A} (l : list A) : list (A * list A) :=
  match l with
  | [] => []
  | a :: r => (a, r) :: map (fun br => (fst br, a :: snd br)) (picks r)
  end.

(** The term of the interpolation sum for the point [a], given the other
    points. *)
Definition pick_term (p x : Z) (ar : share * list share) : Z :=
  snd (fst ar) * prod_diff x (map fst (snd ar))
  * prod_diff (fst (fst ar)) (map fst (snd ar)) ^ (p - 2).

(** The body of the outer loop of [_lagrange_interpolate]. *)
Definition interpolate_step (x : Z) (x_s y_s : list Z) (prime : Z)
    (total : result Z) (i : nat) : result Z :=
  match total with
  | Raise e => Raise e
  | Ok total =>
    match nth_error y_s i with
    | None => Raise IndexError
    | Some yi =>
      let (num, den) := lagrange_num_den x x_s prime i in
      let inv_den := pow3 den (prime - 2) prime in
      Ok ((total + yi * num * inv_den) mod prime)
    end
  end.

(** ** Sequences of coin contributions *)

(** Feeding a sequence of [(node_id, round_num)] contributions to a coin,
    in order. *)
Definition contribute_seq (c : CommonCoin.obj) (l : list (Z * Z))
  : CommonCoin.obj :=
  fold_left (fun c p => CommonCoin.contribute_share c (fst p) (snd p)) l c.

(** A binary value. *)
Definition is_bit (v : Z) : Prop := v = 0 \/ v = 1.

(** The shares of a coin are bits, and so is its value. *)
Definition coin_bits (c : CommonCoin.obj) : Prop :=
  Forall is_bit (PyDict.values (CommonCoin.coin_shares c))
  /\ forall v, CommonCoin._coin_value c = Some v -> is_bit v.

(** ** Relations between the states before and after a method *)

(** [m] relates every state to the state it leaves, whether it returns or
    raises. *)
Definition follows `{PyRandom} (R : world -> world -> Prop) {A} (m : M A)
  : Prop :=
  forall w, R w (snd (m w)).

(** An ABBA instance and a later state of it: the recorded votes and the
    decision are kept. *)
Record abba_grows (a a' : ABBA.obj) : Prop := {
  grows_owner : ABBA.owner a' = ABBA.owner a;
  grows_n : ABBA.n a' = ABBA.n a;
  grows_t : ABBA.t a' = ABBA.t a;
  grows_inputs : forall s v,
    PyDict.get (ABBA.inputs a) s = Some v ->
    PyDict.get (ABBA.inputs a') s = Some v;
  grows_output : forall b,
    ABBA._output a = Some b -> ABBA._output a' = Some b
}.

(** A node and a later state of it. With [sh = true] the relation also
    asks that the node's own shares are the same. *)
Record node_grows (sh : bool) (o o' : node) : Prop := {
  grows_id : OciorABAStarNode.id o' = OciorABAStarNode.id o;
  grows_node_n : OciorABAStarNode.n o' = OciorABAStarNode.n o;
  grows_node_t : OciorABAStarNode.t o' = OciorABAStarNode.t o;
  grows_byzantine :
    OciorABAStarNode.is_byzantine o' = OciorABAStarNode.is_byzantine o;
  grows_shares :
    sh = true -> OciorABAStarNode._shares o' = OciorABAStarNode._shares o;
  grows_rbc : forall j,
    PyDict.contains (OciorABAStarNode.rbc_shares o) j = true ->
    PyDict.contains (OciorABAStarNode.rbc_shares o') j = true;
  grows_abba_keys :
    PyDict.keys (OciorABAStarNode.abba o')
    = PyDict.keys (OciorABAStarNode.abba o);
  grows_abba : forall j a,
    PyDict.get (OciorABAStarNode.abba o) j = Some a ->
    exists a', PyDict.get (OciorABAStarNode.abba o') j = Some a'
               /\ abba_grows a a';
  grows_abba_out : forall j v,
    PyDict.get (OciorABAStarNode.abba_out o) j = Some v ->
    PyDict.get (OciorABAStarNode.abba_out o') j = Some v;
  grows_complete :
    OciorABAStarNode.protocol_complete o = true ->
    OciorABAStarNode.protocol_complete o' = true
}.

(** The registry keeps its keys, in order, and every node grows. *)
Definition world_grows `{PyRandom} (sh : bool) (w w' : world) : Prop :=
  PyDict.keys (NODES w') = PyDict.keys (NODES w)
  /\ forall i o,
       PyDict.get (NODES w) i = Some o ->
       exists o', PyDict.get (NODES w') i = Some o' /\ node_grows sh o o'.

(** A call on an existing node. *)
Definition no_create (c : call) : Prop :=
  match c with
  | Create _ _ _ _ => False
  | _ => True
  end.

(** ** Well-formed nodes *)

(** What holds of an ABBA instance of a node with parameters [n] and
    [t]. *)
Record abba_wf (n t : Z) (a : ABBA.obj) : Prop := {
  wf_inv : abba_inv n t a;
  wf_coin : coin_bits (ABBA.common_coin a);
  wf_output : forall b, ABBA._output a = Some b -> is_bit b
}.

(** What holds of every node in a state reached from the empty
    registry. *)
Record node_wf (o : node) : Prop := {
  wf_abba_keys :
    PyDict.keys (OciorABAStarNode.abba o) = range 1 (OciorABAStarNode.n o + 1);
  wf_abba : forall j a,
    PyDict.get (OciorABAStarNode.abba o) j = Some a ->
    abba_wf (OciorABAStarNode.n o) (OciorABAStarNode.t o) a;
  wf_out_abba : forall j v,
    PyDict.get (OciorABAStarNode.abba_out o) j = Some v ->
    exists a, PyDict.get (OciorABAStarNode.abba o) j = Some a
              /\ ABBA._output a = Some v;
  wf_out_nodup : NoDup (PyDict.keys (OciorABAStarNode.abba_out o));
  wf_complete :
    OciorABAStarNode.protocol_complete o = true ->
    PyDict.len (OciorABAStarNode.abba_out o) = OciorABAStarNode.n o;
  wf_final : forall v,
    OciorABAStarNode.final_decision o = Some v ->
    OciorABAStarNode.protocol_complete o = true
}.

Definition world_wf `{PyRandom} (w : world) : Prop :=
  forall i o, PyDict.get (NODES w) i = Some o -> node_wf o.

(** [world_wf] is kept from the first state to the second. *)
Definition keeps_wf `{PyRandom} (w w' : world) : Prop :=
  world_wf w -> world_wf w'.

(** The same, while the ABBA instances of the node [self] are [ab0]. *)
Definition keeps_wf_abba `{PyRandom} (self : Z) (ab0 : dict ABBA.obj)
    (w w' : world) : Prop :=
  world_wf w /\ option_map OciorABAStarNode.abba (PyDict.get (NODES w) self)
                = Some ab0 ->
  world_wf w' /\ option_map OciorABAStarNode.abba (PyDict.get (NODES w') self)
                 = Some ab0.

(** ** The secret that [propose] encodes *)

(** A Byzantine node replaces the secret by
    [(secret + self.id * 1000) % _PRIME]. *)
Definition proposed_secret (o : node) (secret : Z) : Z :=
  if OciorABAStarNode.is_byzantine o
  then (secret + OciorABAStarNode.id o * 1000) mod _PRIME
  else secret.

(** ** The driver

    The script under [if __name__ == "__main__"], from the parsed arguments
    [n], [t] and [secret] on. The printing is left out. The waiting loop
    compares an elapsed time with a timeout; [rounds] is the number of
    iterations that the timeout allows. The first comparison is
    [0.0 < 5.0], so at least one iteration is always allowed. *)

Section Driver.
Context `{PyRandom}.

(** [all(node.protocol_complete for node in NODES.values())] *)
Definition all_complete (w : world) : bool :=
  forallb OciorABAStarNode.protocol_complete (PyDict.values (NODES w)).

(** How the script ends when no exception escapes. *)
Inductive outcome :=
| Results      (* the final results are printed *)
| Hang         (* [sys.exit(1)]: some node did not complete in time *)
| Usage.       (* [sys.exit] with the message about [n < 3t + 1] *)

(** [while not all(...) and elapsed < timeout:] with its body
    [for node in NODES.values(): if not node.protocol_complete:
    node._process_abba()]. *)
Fixpoint wait_loop (rounds : nat) : M unit :=
  fun w =>
    if all_complete w then (Ok tt, w)
    else
      match rounds with
      | O => (Ok tt, w)
      | S r =>
        bind (bind node_ids (fun ids => for_each ids poll))
             (fun _ => wait_loop r) w
      end.

(** [NODES.clear()] *)
Definition clear_nodes : M unit :=
  fun w => (Ok tt, mkWorld PyDict.empty (random w)).

Definition main (n t secret : Z) (rounds : nat) : M outcome :=
  if n <? 3 * t + 1 then ret Usage
  else
    bind clear_nodes (fun _ =>
    bind (for_each (range 1 (n + 1)) (fun i =>
            __init__ i n t ((1 <=? i) && (i <? t + 1)))) (fun _ =>
    bind (for_each (range 1 (n + 1)) (fun i => propose i secret)) (fun _ =>
    bind (wait_loop rounds) (fun _ =>
    fun w => (Ok (if all_complete w then Results else Hang), w))))).

End Driver.

(** ** Runs without faults

    With [t = 0] every node is honest and one share determines the
    secret. The states of such a run are described node by node. *)

(** The shares that [ECEnc(n, 1, s)] returns. *)
Definition common_shares (n s : Z) : list share :=
  map (fun i => (i, s)) (range 1 (n + 1)).

(** The deliveries from the senders [1 .. m], buffered in order. *)
Definition buffered (s m : Z) : list (Z * share) :=
  map (fun j => (j, (j, s))) (range 1 (m + 1)).

(** The votes of 1 cast by the voters [1 .. k], in order. *)
Definition votes (k : Z) : list (Z * Z) :=
  map (fun i => (i, 1)) (range 1 (k + 1)).

(** The instance for the sender [j] after these votes. *)
Definition voted (n j k : Z) : ABBA.obj :=
  ABBA.inputs_seq (ABBA.__init__ j n 0) (votes k).

(** The same after the default vote 0 of the last node, which has not
    voted yet. *)
Definition defaulted (n j : Z) : ABBA.obj :=
  ABBA.input (voted n j (n - 1)) n 0.

(** The recorded outputs are all 1 and belong to instances [1 .. n]. *)
Definition ones_out (n : Z) (d : dict Z) : Prop :=
  NoDup (PyDict.keys d)
  /\ (forall j, In j (PyDict.keys d) -> 1 <= j <= n)
  /\ Forall (fun v => v = 1) (PyDict.values d).

(** What is known of [abba_out]: the dictionary itself, or that it holds
    only ones and covers the instances [1 .. m]. *)
Inductive out_spec :=
| Exact (d : dict Z)
| Ones (m : Z).

Definition out_sat (n : Z) (os : out_spec) (d : dict Z) : Prop :=
  match os with
  | Exact d' => d = d'
  | Ones m =>
    ones_out n d /\ forall j, 1 <= j <= m -> PyDict.contains d j = true
  end.

(** The description of one node: whether it has proposed, how many
    deliveries it buffers, how many it has received, its ABBA instances,
    its recorded outputs, and whether it has finished. *)
Record node_spec := mkS {
  sf : bool;
  pn : Z;
  rn : Z;
  ab : Z -> ABBA.obj;
  og : out_spec;
  dn : bool
}.

Record sat (n s i : Z) (sp : node_spec) (o : node) : Prop := {
  sat_id : OciorABAStarNode.id o = i;
  sat_n : OciorABAStarNode.n o = n;
  sat_t : OciorABAStarNode.t o = 0;
  sat_honest : OciorABAStarNode.is_byzantine o = false;
  sat_shares :
    OciorABAStarNode._shares o = if sf sp then common_shares n s else [];
  sat_pending : OciorABAStarNode.pending_shares o = buffered s (pn sp);
  sat_rbc : forall j, 1 <= j <= rn sp ->
    PyDict.contains (OciorABAStarNode.rbc_shares o) j = true;
  sat_abba_keys : PyDict.keys (OciorABAStarNode.abba o) = range 1 (n + 1);
  sat_abba : forall j, 1 <= j <= n ->
    PyDict.get (OciorABAStarNode.abba o) j = Some (ab sp j);
  sat_out : out_sat n (og sp) (OciorABAStarNode.abba_out o);
  sat_final :
    OciorABAStarNode.final_decision o = if dn sp then Some s else None;
  sat_complete : OciorABAStarNode.protocol_complete o = dn sp
}.

(** The registry holds the nodes [1 .. n], each as described. *)
Definition wsat `{PyRandom} (n s : Z) (S : Z -> node_spec) (w : world) : Prop :=
  PyDict.keys (NODES w) = range 1 (n + 1)
  /\ forall i, 1 <= i <= n ->
       exists o, PyDict.get (NODES w) i = Some o /\ sat n s i (S i) o.

(** The description [S] with the node [i] replaced. *)
Definition upd (S : Z -> node_spec) (i : Z) (sp : node_spec) : Z -> node_spec :=
  fun k => if k =? i then sp else S k.

(** Descriptions that differ in one component. *)
Definition sp_sf (sp : node_spec) (x : bool) : node_spec :=
  mkS x (pn sp) (rn sp) (ab sp) (og sp) (dn sp).
Definition sp_pn (sp : node_spec) (x : Z) : node_spec :=
  mkS (sf sp) x (rn sp) (ab sp) (og sp) (dn sp).
Definition sp_rn (sp : node_spec) (x : Z) : node_spec :=
  mkS (sf sp) (pn sp) x (ab sp) (og sp) (dn sp).
Definition sp_ab (sp : node_spec) (x : Z -> ABBA.obj) : node_spec :=
  mkS (sf sp) (pn sp) (rn sp) x (og sp) (dn sp).
Definition sp_og (sp : node_spec) (x : out_spec) : node_spec :=
  mkS (sf sp) (pn sp) (rn sp) (ab sp) x (dn sp).
Definition sp_dn (sp : node_spec) (x : bool) : node_spec :=
  mkS (sf sp) (pn sp) (rn sp) (ab sp) (og sp) x.

(** The description [sp] after the vote [b] of [v] on the sender [p]. *)
Definition vote_spec (sp : node_spec) (p v b : Z) : node_spec :=
  sp_ab sp (fun j => if j =? p then ABBA.input (ab sp j) v b else ab sp j).

(** The stages of a run of [n] nodes *)

(** The nodes [1 .. m] have proposed, [m < n]. *)
Definition proposed (n m : Z) : Z -> node_spec := fun i =>
  mkS (i <=? m) (if i <=? m then 0 else m) m
      (fun j => if j <=? m then voted n j m else voted n j 0)
      (Exact []) false.

(** The share of the proposer [p] has been delivered to the nodes
    below [k]. *)
Definition delivering (n p k : Z) : Z -> node_spec := fun i =>
  mkS (i <=? p)
      (if i <? p then 0 else if i =? p then p - 1
       else if i <? k then p else p - 1)
      (if i <? k then p else p - 1)
      (fun j => if j <? p then voted n j (p - 1)
                else if j =? p then voted n p (Z.min (k - 1) p)
                else voted n j 0)
      (Exact []) false.

(** The proposer [p] has processed the deliveries that it had buffered
    from the senders below [k]. *)
Definition catching_up (n p k : Z) : Z -> node_spec := fun i =>
  mkS (i <=? p)
      (if i <? p then 0 else if i =? p then p - 1 else p)
      p
      (fun j => if j <? k then voted n j p
                else if j <? p then voted n j (p - 1)
                else if j =? p then voted n p p
                else voted n j 0)
      (Exact []) false.

(** The last node has seen its own instance decide and has cast its
    default votes; it has processed the deliveries that it had buffered
    from the senders below [k]. *)
Definition finishing (n k : Z) : Z -> node_spec := fun i =>
  if i =? n then
    mkS true (n - 1) n
        (fun j => if j <? n then defaulted n j else voted n n n)
        (if k =? 1 then Exact [(n, 1)] else Ones n)
        (negb (k =? 1))
  else
    mkS true 0 n
        (fun j => if j <? k then voted n j n
                  else if j <? n then voted n j (n - 1)
                  else voted n n n)
        (Exact []) false.

(** Every node has proposed; the last node and the nodes below [k] have
    finished. *)
Definition polling (n k : Z) : Z -> node_spec := fun i =>
  if (i =? n) || (i <? k) then
    mkS true 0 n
        (fun j => if (i =? n) && (j <? n) then defaulted n j
                  else voted n j n)
        (Ones n) true
  else
    mkS true 0 n (fun j => voted n j n) (Exact []) false.

(** From a state in [P] the computation returns, in a state and with a
    value in [Q]. *)
Definition triple `{PyRandom} {A} (P : world -> Prop) (m : M A)
    (Q : A -> world -> Prop) : Prop :=
  forall w, P w -> exists a w', m w = (Ok a, w') /\ Q a w'.

(** * Facts about dictionaries *)

Lemma dict_set_absent {V} (d : dict V) k v :
  PyDict.get d k = None -> PyDict.set d k v = d ++ [(k, v)].
Proof.
  induction d as [|[k' v'] d IH]; simpl; intros H; [reflexivity|].
  destruct (k =? k'); [discriminate|]. now rewrite IH.
Qed.

Lemma dict_get_set_same {V} (d : dict V) k v :
  PyDict.get (PyDict.set d k v) k = Some v.
Proof.
  induction d as [|[k' v'] d IH]; simpl.
  - now rewrite Z.eqb_refl.
  - destruct (k =? k') eqn:E; simpl; [now rewrite Z.eqb_refl | now rewrite E].
Qed.

Lemma dict_get_set_other {V} (d : dict V) k k' v :
  k' <> k -> PyDict.get (PyDict.set d k v) k' = PyDict.get d k'.
Proof.
  intros Hne. induction d as [|[k0 v0] d IH]; simpl.
  - destruct (k' =? k) eqn:E; [apply Z.eqb_eq in E; contradiction | reflexivity].
  - destruct (k =? k0) eqn:E; simpl.
    + apply Z.eqb_eq in E; subst k0.
      destruct (k' =? k) eqn:E'; [apply Z.eqb_eq in E'; contradiction | reflexivity].
    + destruct (k' =? k0); [reflexivity | exact IH].
Qed.

Lemma dict_contains_false {V} (d : dict V) k :
  PyDict.contains d k = false <-> PyDict.get d k = None.
Proof. unfold PyDict.contains. destruct (PyDict.get d k); split; congruence. Qed.

Lemma count_eq_app x l1 l2 : count_eq x (l1 ++ l2) = count_eq x l1 + count_eq x l2.
Proof. unfold count_eq. rewrite filter_app, length_app. lia. Qed.

Lemma count_eq_nonneg x l : 0 <= count_eq x l.
Proof. unfold count_eq. lia. Qed.

(** * The ABBA state machine *)

Lemma try_decide_inputs a : ABBA.inputs (ABBA._try_decide a) = ABBA.inputs a.
Proof.
  unfold ABBA._try_decide.
  repeat match goal with
         | |- context [match ?x with _ => _ end] => destruct x
         end; reflexivity.
Qed.

Lemma try_decide_decided a b :
  ABBA._output a = Some b -> ABBA._try_decide a = a.
Proof. unfold ABBA._try_decide. now intros ->. Qed.

Lemma try_decide_output a :
  ABBA._output (ABBA._try_decide a) =
  match ABBA._output a with
  | Some b => Some b
  | None =>
    decision_rule (ABBA.n a) (ABBA.t a) (ABBA.ones a) (ABBA.zeros a)
      (ABBA.total_votes a) (CommonCoin.get_coin_value (ABBA.common_coin a))
  end.
Proof.
  unfold ABBA._try_decide, decision_rule, CommonCoin.has_coin_value,
    CommonCoin.get_coin_value.
  destruct (ABBA._output a) eqn:E; [exact E|].
  destruct (CommonCoin._coin_value (ABBA.common_coin a));
    repeat match goal with
           | |- context [if ?x then _ else _] => destruct x
           end; simpl; auto.
Qed.

Lemma input_inputs_new a sender v :
  PyDict.contains (ABBA.inputs a) sender = false ->
  ABBA.inputs (ABBA.input a sender v) = ABBA.inputs a ++ [(sender, v)].
Proof.
  intros H. unfold ABBA.input. rewrite H. rewrite try_decide_inputs.
  apply dict_contains_false in H.
  simpl. destruct (ABBA.coin_requested a); simpl; now apply dict_set_absent.
Qed.

Lemma input_duplicate a sender v :
  PyDict.contains (ABBA.inputs a) sender = true -> ABBA.input a sender v = a.
Proof. intros H. unfold ABBA.input. now rewrite H. Qed.

Lemma input_output_stable a sender v b :
  ABBA._output a = Some b -> ABBA._output (ABBA.input a sender v) = Some b.
Proof.
  intros H. unfold ABBA.input.
  destruct (PyDict.contains (ABBA.inputs a) sender); [exact H|].
  rewrite try_decide_output. simpl.
  destruct (ABBA.coin_requested a); simpl; now rewrite H.
Qed.

Lemma inputs_seq_output_stable l : forall a b,
  ABBA._output a = Some b -> ABBA._output (ABBA.inputs_seq a l) = Some b.
Proof.
  induction l as [|[s v] l IH]; intros a b H; simpl; [exact H|].
  apply IH. now apply input_output_stable.
Qed.

Lemma input_contains a sender v :
  PyDict.contains (ABBA.inputs (ABBA.input a sender v)) sender = true.
Proof.
  destruct (PyDict.contains (ABBA.inputs a) sender) eqn:E.
  - now rewrite input_duplicate.
  - rewrite input_inputs_new by exact E.
    apply dict_contains_false in E.
    rewrite <- dict_set_absent by exact E.
    unfold PyDict.contains. now rewrite dict_get_set_same.
Qed.

Lemma input_get_other a sender v k :
  k <> sender ->
  PyDict.get (ABBA.inputs (ABBA.input a sender v)) k = PyDict.get (ABBA.inputs a) k.
Proof.
  intros Hne.
  destruct (PyDict.contains (ABBA.inputs a) sender) eqn:E.
  - now rewrite input_duplicate.
  - rewrite input_inputs_new by exact E.
    apply dict_contains_false in E.
    rewrite <- dict_set_absent by exact E.
    now apply dict_get_set_other.
Qed.

Lemma input_get_kept a sender v k u :
  PyDict.get (ABBA.inputs a) k = Some u ->
  PyDict.get (ABBA.inputs (ABBA.input a sender v)) k = Some u.
Proof.
  intros H. destruct (Z.eq_dec k sender) as [->|Hne].
  - rewrite input_duplicate; [exact H|]. unfold PyDict.contains. now rewrite H.
  - now rewrite input_get_other.
Qed.

Lemma inputs_seq_get_kept l : forall a k u,
  PyDict.get (ABBA.inputs a) k = Some u ->
  PyDict.get (ABBA.inputs (ABBA.inputs_seq a l)) k = Some u.
Proof.
  induction l as [|[s v] l IH]; intros a k u H; simpl; [exact H|].
  apply IH. now apply input_get_kept.
Qed.

Lemma input_output_new a sender v :
  PyDict.contains (ABBA.inputs a) sender = false ->
  ABBA._output (ABBA.input a sender v) =
    match ABBA._output a with
    | Some b => Some b
    | None =>
      decision_rule (ABBA.n a) (ABBA.t a)
        (ABBA.ones (ABBA.input a sender v)) (ABBA.zeros (ABBA.input a sender v))
        (ABBA.total_votes (ABBA.input a sender v))
        (CommonCoin.get_coin_value (ABBA.common_coin (ABBA.input a sender v)))
    end.
Proof.
  intros Hnew. unfold ABBA.input. rewrite Hnew.
  set (a2 := if ABBA.coin_requested _ then _ else _).
  rewrite try_decide_output.
  assert (Ho : ABBA._output a2 = ABBA._output a)
    by (subst a2; simpl; destruct (ABBA.coin_requested a); reflexivity).
  assert (Hn : ABBA.n a2 = ABBA.n a)
    by (subst a2; simpl; destruct (ABBA.coin_requested a); reflexivity).
  assert (Ht : ABBA.t a2 = ABBA.t a)
    by (subst a2; simpl; destruct (ABBA.coin_requested a); reflexivity).
  rewrite Ho, Hn, Ht.
  destruct (ABBA._output a); [reflexivity|].
  unfold ABBA.ones, ABBA.zeros, ABBA.total_votes.
  rewrite try_decide_inputs.
  f_equal.
  unfold ABBA._try_decide, ABBA.set_output.
  repeat match goal with
         | |- context [match ?x with _ => _ end] => destruct x
         end; reflexivity.
Qed.

(** Claim C7. On every accepted input (a sender not yet recorded) an
    undecided ABBA takes the output of the decision rule of the
    specification, evaluated on the votes including the new one and on the
    coin as it stands after this input: decide 1 if [ones >= n - t], else 0
    if [zeros >= n - t], else, when [total_votes >= n - t] and the coin has a
    value, 1 if [ones >= t + 1], else 0 if [zeros >= t + 1], else the coin
    value. A decided ABBA keeps its output, on this input and on every
    later sequence of inputs. *)
Theorem abba_decision_rule a sender v :
  PyDict.contains (ABBA.inputs a) sender = false ->
  let a' := ABBA.input a sender v in
  ABBA._output a' =
    match ABBA._output a with
    | Some b => Some b
    | None =>
      decision_rule (ABBA.n a) (ABBA.t a) (ABBA.ones a') (ABBA.zeros a')
        (ABBA.total_votes a') (CommonCoin.get_coin_value (ABBA.common_coin a'))
    end
  /\ forall l b, ABBA._output a' = Some b ->
                 ABBA._output (ABBA.inputs_seq a' l) = Some b.
Proof.
  intros Hnew a'. split.
  - now apply input_output_new.
  - intros l b. apply inputs_seq_output_stable.
Qed.

Lemma abba_decision_rule_witness :
  ABBA._output (ABBA.input abba_example 3 1) = Some 1
  /\ ABBA._output (ABBA.inputs_seq (ABBA.input abba_example 3 1) [(4, 0)]) = Some 1.
Proof.
  destruct (abba_decision_rule abba_example 3 1 eq_refl) as [H1 H2].
  split; [exact H1 | exact (H2 [(4, 0)] 1 eq_refl)].
Defined.

(** Claim C8. [ABBA.input] is idempotent per sender: the first input of a
    sender is recorded (an earlier vote of that sender is kept), and any
    later input of the same sender, after any other inputs, returns the
    instance unchanged: votes, output, coin and flags alike. *)
Theorem abba_input_idempotent a sender v l v' :
  PyDict.get (ABBA.inputs (ABBA.input a sender v)) sender =
    match PyDict.get (ABBA.inputs a) sender with
    | Some u => Some u
    | None => Some v
    end
  /\ ABBA.input (ABBA.inputs_seq (ABBA.input a sender v) l) sender v' =
     ABBA.inputs_seq (ABBA.input a sender v) l.
Proof.
  split.
  - destruct (PyDict.get (ABBA.inputs a) sender) eqn:E.
    + now apply input_get_kept.
    + apply dict_contains_false in E. rewrite input_inputs_new by exact E.
      apply dict_contains_false in E.
      rewrite <- dict_set_absent by exact E. apply dict_get_set_same.
  - apply input_duplicate.
    pose proof (input_contains a sender v) as H.
    unfold PyDict.contains in *.
    destruct (PyDict.get (ABBA.inputs (ABBA.input a sender v)) sender) eqn:E;
      [|discriminate].
    now rewrite (inputs_seq_get_kept l _ _ _ E).
Qed.

(** The counts after a first input [(sender, v)] with [v] different from 0
    and 1. *)
Lemma nonbinary_vote_counts a sender v :
  PyDict.contains (ABBA.inputs a) sender = false ->
  v <> 0 -> v <> 1 ->
  ABBA.total_votes (ABBA.input a sender v) = ABBA.total_votes a + 1
  /\ ABBA.ones (ABBA.input a sender v) = ABBA.ones a
  /\ ABBA.zeros (ABBA.input a sender v) = ABBA.zeros a.
Proof.
  intros Hnew H0 H1.
  unfold ABBA.total_votes, ABBA.ones, ABBA.zeros, PyDict.len, PyDict.values.
  rewrite input_inputs_new by exact Hnew.
  rewrite map_app, !count_eq_app, length_app. simpl.
  unfold count_eq. simpl.
  destruct (v =? 1) eqn:E1; [apply Z.eqb_eq in E1; contradiction|].
  destruct (v =? 0) eqn:E0; [apply Z.eqb_eq in E0; contradiction|].
  simpl. repeat split; lia.
Qed.

(** Claim C10. A first input [(sender, v)] with [v] different from 0 and 1
    is recorded under its sender, and the decision taken on this input is
    the rule evaluated with one more vote in [total_votes], the count
    compared with [n - t] in the coin-assisted rule, and with the counts of
    ones and of zeros as they were before the input: an undecided instance
    decides 1 if the earlier ones reach [n - t], else 0 if the earlier zeros
    reach [n - t], else, when the earlier total plus one reaches [n - t] and
    the coin has a value, 1 or 0 if the earlier ones or zeros reach [t + 1]
    and the coin value otherwise; in every other case it stays undecided. *)
Theorem abba_nonbinary_vote a sender v :
  PyDict.contains (ABBA.inputs a) sender = false ->
  v <> 0 -> v <> 1 ->
  let a' := ABBA.input a sender v in
  PyDict.get (ABBA.inputs a') sender = Some v
  /\ ABBA.total_votes a' = ABBA.total_votes a + 1
  /\ ABBA.ones a' = ABBA.ones a
  /\ ABBA.zeros a' = ABBA.zeros a
  /\ ABBA._output a' =
       match ABBA._output a with
       | Some b => Some b
       | None =>
         if ABBA.ones a >=? ABBA.n a - ABBA.t a then Some 1
         else if ABBA.zeros a >=? ABBA.n a - ABBA.t a then Some 0
         else if ABBA.total_votes a + 1 >=? ABBA.n a - ABBA.t a then
           match CommonCoin.get_coin_value (ABBA.common_coin a') with
           | Some c =>
             if ABBA.ones a >=? ABBA.t a + 1 then Some 1
             else if ABBA.zeros a >=? ABBA.t a + 1 then Some 0
             else Some c
           | None => None
           end
         else None
       end.
Proof.
  intros Hnew H0 H1 a'. subst a'.
  destruct (nonbinary_vote_counts a sender v Hnew H0 H1) as (Ht & Ho & Hz).
  split; [|split; [exact Ht | split; [exact Ho | split; [exact Hz|]]]].
  - rewrite input_inputs_new by exact Hnew.
    apply dict_contains_false in Hnew.
    rewrite <- dict_set_absent by exact Hnew. apply dict_get_set_same.
  - rewrite (input_output_new a sender v Hnew), Ht, Ho, Hz. reflexivity.
Qed.

(** With [n = 2] and [t = 0], after the vote 0 of the sender 1 the
    instance is undecided; the vote 7 of the sender 2 completes the total
    of 2 votes and the instance decides 0, on the one zero. *)
Lemma abba_nonbinary_vote_witness :
  ABBA._output (ABBA.input (ABBA.__init__ 1 2 0) 1 0) = None
  /\ PyDict.get
       (ABBA.inputs (ABBA.input (ABBA.input (ABBA.__init__ 1 2 0) 1 0) 2 7)) 2
     = Some 7
  /\ ABBA.total_votes (ABBA.input (ABBA.input (ABBA.__init__ 1 2 0) 1 0) 2 7)
     = 2
  /\ ABBA.ones (ABBA.input (ABBA.input (ABBA.__init__ 1 2 0) 1 0) 2 7) = 0
  /\ ABBA.zeros (ABBA.input (ABBA.input (ABBA.__init__ 1 2 0) 1 0) 2 7) = 1
  /\ ABBA._output (ABBA.input (ABBA.input (ABBA.__init__ 1 2 0) 1 0) 2 7)
     = Some 0.
Proof.
  split; [reflexivity|].
  apply (abba_nonbinary_vote (ABBA.input (ABBA.__init__ 1 2 0) 1 0) 2 7);
    [reflexivity | lia | lia].
Defined.

(** ** An ABBA that has heard from [n] senders *)

Lemma abba_inv_init owner n t : abba_inv n t (ABBA.__init__ owner n t).
Proof.
  split; simpl; auto; intros H; contradiction.
Qed.

Lemma decision_rule_some n t ones zeros total coin :
  (coin <> None <-> t <= 0) ->
  (decision_rule n t ones zeros total coin <> None <->
   n - t <= ones \/ n - t <= zeros \/ (n - t <= total /\ t <= 0)).
Proof.
  intros Hc. unfold decision_rule.
  destruct (ones >=? n - t) eqn:E1;
    [apply Z.geb_le in E1; split; [intros _; lia | intros _; discriminate]|].
  destruct (zeros >=? n - t) eqn:E2;
    [apply Z.geb_le in E2; split; [intros _; lia | intros _; discriminate]|].
  rewrite Z.geb_leb in E1, E2. apply Z.leb_gt in E1, E2.
  destruct (total >=? n - t) eqn:E3.
  - apply Z.geb_le in E3. destruct coin as [c|].
    + assert (t <= 0) by (apply Hc; discriminate).
      split; [intros _; lia | intros _].
      destruct (ones >=? t + 1); [discriminate|].
      destruct (zeros >=? t + 1); discriminate.
    + split; [intros H; now contradiction H |].
      intros [H|[H|[_ H]]]; try lia. apply Hc in H. now contradiction H.
  - rewrite Z.geb_leb in E3. apply Z.leb_gt in E3.
    split; [intros H; now contradiction H | lia].
Qed.

Lemma has_output_iff a : ABBA.has_output a = true <-> ABBA._output a <> None.
Proof. unfold ABBA.has_output. destruct (ABBA._output a); split; congruence. Qed.

Lemma has_coin_value_iff c :
  CommonCoin.has_coin_value c = true <-> CommonCoin.get_coin_value c <> None.
Proof.
  unfold CommonCoin.has_coin_value, CommonCoin.get_coin_value.
  destruct (CommonCoin._coin_value c); split; congruence.
Qed.

Lemma try_decide_coin a :
  ABBA.common_coin (ABBA._try_decide a) = ABBA.common_coin a.
Proof.
  unfold ABBA._try_decide.
  repeat match goal with
         | |- context [match ?x with _ => _ end] => destruct x
         end; reflexivity.
Qed.

Lemma try_decide_fields a :
  ABBA.n (ABBA._try_decide a) = ABBA.n a
  /\ ABBA.t (ABBA._try_decide a) = ABBA.t a
  /\ ABBA.coin_requested (ABBA._try_decide a) = ABBA.coin_requested a.
Proof.
  unfold ABBA._try_decide.
  repeat match goal with
         | |- context [match ?x with _ => _ end] => destruct x
         end; auto.
Qed.

Lemma input_fields_new a sender v :
  PyDict.contains (ABBA.inputs a) sender = false ->
  ABBA.n (ABBA.input a sender v) = ABBA.n a
  /\ ABBA.t (ABBA.input a sender v) = ABBA.t a
  /\ ABBA.coin_requested (ABBA.input a sender v) = true
  /\ ABBA.common_coin (ABBA.input a sender v) =
     if ABBA.coin_requested a then ABBA.common_coin a
     else CommonCoin.contribute_share (ABBA.common_coin a) sender 1.
Proof.
  intros Hc. unfold ABBA.input. rewrite Hc.
  set (a2 := if ABBA.coin_requested _ then _ else _).
  destruct (try_decide_fields a2) as [-> [-> ->]]. rewrite try_decide_coin.
  subst a2. simpl. destruct (ABBA.coin_requested a); simpl; auto.
Qed.

Lemma abba_inv_input n t a sender v :
  abba_inv n t a -> abba_inv n t (ABBA.input a sender v).
Proof.
  intros I.
  destruct (PyDict.contains (ABBA.inputs a) sender) eqn:Hc;
    [now rewrite input_duplicate|].
  pose proof (input_inputs_new a sender v Hc) as Hin.
  pose proof (input_output_new a sender v Hc) as Hout.
  assert (Hne : ABBA.inputs (ABBA.input a sender v) <> [])
    by (rewrite Hin; now destruct (ABBA.inputs a)).
  destruct (input_fields_new a sender v Hc) as [Hn [Ht [Hreq Hcc]]].
  rewrite (inv_n _ _ _ I) in Hn. rewrite (inv_t _ _ _ I) in Ht.
  assert (Hcoin : CommonCoin.has_coin_value
                    (ABBA.common_coin (ABBA.input a sender v)) = true <-> t <= 0).
  { rewrite Hcc.
    destruct (ABBA.inputs a) as [|p r] eqn:Ei.
    - destruct (inv_fresh _ _ _ I Ei) as [_ [-> ->]]. simpl.
      unfold CommonCoin.contribute_share, CommonCoin._try_compute_coin,
        CommonCoin.has_coin_value. simpl.
      unfold PyDict.len. simpl.
      destruct (1 >=? t + 1) eqn:E; simpl.
      + apply Z.geb_le in E. split; [lia | reflexivity].
      + rewrite Z.geb_leb in E. apply Z.leb_gt in E. split; [discriminate | lia].
    - assert (Hne' : ABBA.inputs a <> []) by (rewrite Ei; discriminate).
      rewrite (inv_requested _ _ _ I Hne').
      rewrite Ei in Hne'. rewrite <- Ei in Hne'.
      exact (inv_coin _ _ _ I Hne'). }
  split; auto.
  - intros E. contradiction.
  - intros _.
    rewrite has_output_iff, Hout.
    rewrite (inv_n _ _ _ I), (inv_t _ _ _ I).
    destruct (ABBA._output a) as [b|] eqn:Eo.
    + split; [intros _ | intros _; discriminate].
      (* the rule fired earlier and its conditions are monotone *)
      destruct (ABBA.inputs a) as [|p r] eqn:Ei.
      { destruct (inv_fresh _ _ _ I Ei) as [H _]. congruence. }
      assert (Hne' : ABBA.inputs a <> []) by (rewrite Ei; discriminate).
      assert (Hf : fires n t a).
      { apply (inv_output _ _ _ I Hne'). apply has_output_iff. congruence. }
      unfold fires, ABBA.ones, ABBA.zeros, ABBA.total_votes, PyDict.len,
        PyDict.values in *.
      rewrite Hin, map_app, !count_eq_app, length_app.
      pose proof (count_eq_nonneg 1 (map snd [(sender, v)])).
      pose proof (count_eq_nonneg 0 (map snd [(sender, v)])).
      rewrite Ei in Hf. lia.
    + apply decision_rule_some.
      rewrite <- has_coin_value_iff. exact Hcoin.
Qed.

Lemma abba_inv_inputs_seq n t l : forall a,
  abba_inv n t a -> abba_inv n t (ABBA.inputs_seq a l).
Proof.
  induction l as [|[s v] l IH]; intros a I; simpl; [exact I|].
  apply IH. now apply abba_inv_input.
Qed.

(** Property X24. An instance created for [n >= 1] senders that has
    accepted inputs from [n] distinct senders is decided exactly when the
    ones reach [n - t], or the zeros reach [n - t], or [t = 0]: the coin
    receives its single share on the first input, so it has a value only
    for [t = 0]. *)
Theorem abba_full_inputs_decided owner n t l :
  1 <= n ->
  let a := ABBA.inputs_seq (ABBA.__init__ owner n t) l in
  ABBA.total_votes a = n ->
  (ABBA.has_output a = true <->
   ABBA.ones a >= n - t \/ ABBA.zeros a >= n - t \/ t = 0).
Proof.
  intros Hn a Htot.
  pose proof (abba_inv_inputs_seq n t l _ (abba_inv_init owner n t)) as I.
  fold a in I.
  assert (Hne : ABBA.inputs a <> []).
  { unfold ABBA.total_votes, PyDict.len in Htot.
    destruct (ABBA.inputs a); [simpl in Htot; lia | discriminate]. }
  rewrite (inv_output _ _ _ I Hne). unfold fires. rewrite Htot. lia.
Qed.

Lemma abba_full_inputs_decided_witness :
  ABBA.has_output
    (ABBA.inputs_seq (ABBA.__init__ 1 4 1) [(1, 1); (2, 1); (3, 1); (4, 0)])
  = true
  <-> ABBA.ones
        (ABBA.inputs_seq (ABBA.__init__ 1 4 1) [(1, 1); (2, 1); (3, 1); (4, 0)])
      >= 4 - 1
      \/ ABBA.zeros
           (ABBA.inputs_seq (ABBA.__init__ 1 4 1)
              [(1, 1); (2, 1); (3, 1); (4, 0)])
         >= 4 - 1
      \/ 1 = 0.
Proof.
  apply (abba_full_inputs_decided 1 4 1 [(1, 1); (2, 1); (3, 1); (4, 0)]).
  - lia.
  - reflexivity.
Defined.

(** Claim C6. With [n = 4] and [t = 1] the senders 1, 2, 3 and 4 vote 1, 1,
    0 and 0. All [n] inputs are recorded and [total_votes = 4] reaches
    [n - t = 3], so [_try_decide] arrives at the coin-assisted rule; but the
    coin of the instance was given one share, on the first input, where it
    needs [t + 1 = 2]: it has no value, and the output stays [None]. Every
    further input comes from a recorded sender and changes nothing, so the
    instance never decides. *)
Theorem abba_full_inputs_undecided :
  let a :=
    ABBA.inputs_seq (ABBA.__init__ 1 4 1) [(1, 1); (2, 1); (3, 0); (4, 0)] in
  PyDict.items (ABBA.inputs a) = [(1, 1); (2, 1); (3, 0); (4, 0)]
  /\ ABBA.total_votes a = 4 /\ ABBA.ones a = 2 /\ ABBA.zeros a = 2
  /\ (ABBA.ones a >=? ABBA.n a - ABBA.t a) = false
  /\ (ABBA.zeros a >=? ABBA.n a - ABBA.t a) = false
  /\ (ABBA.total_votes a >=? ABBA.n a - ABBA.t a) = true
  /\ ABBA.coin_requested a = true
  /\ PyDict.items (CommonCoin.coin_shares (ABBA.common_coin a)) = [(1, 0)]
  /\ CommonCoin.t (ABBA.common_coin a) + 1 = 2
  /\ CommonCoin.has_coin_value (ABBA.common_coin a) = false
  /\ ABBA.has_output a = false /\ ABBA.get_output a = None
  /\ forall sender v, In sender [1; 2; 3; 4] -> ABBA.input a sender v = a.
Proof.
  cbv zeta.
  repeat (split; [vm_compute; reflexivity|]).
  intros sender v Hin. apply input_duplicate.
  destruct Hin as [<-|[<-|[<-|[<-|[]]]]]; reflexivity.
Qed.

(** * The modulus is prime *)

Lemma no_divisor_from_sound fuel : forall d n,
  0 < d -> no_divisor_from fuel d n = true ->
  forall e, d <= e -> e * e <= n -> ~ (e | n).
Proof.
  induction fuel as [|f IH]; intros d n Hd H e Hde Hee Hdiv; simpl in H.
  - apply Z.gtb_lt in H. nia.
  - destruct (d * d >? n) eqn:E1.
    + apply Z.gtb_lt in E1. nia.
    + destruct (n mod d =? 0) eqn:E2; [discriminate|].
      apply Z.eqb_neq in E2.
      destruct (Z.eq_dec e d) as [->|Hne].
      * apply E2. apply Z.mod_divide in Hdiv; [exact Hdiv | lia].
      * exact (IH (d + 1) n ltac:(lia) H e ltac:(lia) Hee Hdiv).
Qed.

Lemma trial_prime_sound n : trial_prime n = true -> Z.prime n.
Proof.
  unfold trial_prime. intros H. apply andb_true_iff in H. destruct H as [H1 H2].
  apply Z.ltb_lt in H1.
  split; [exact H1|].
  intros m Hm [c Hc].
  assert (Hcpos : 1 < c) by nia.
  assert (Hsound := no_divisor_from_sound _ 2 n ltac:(lia) H2).
  destruct (Z_le_gt_dec (m * m) n) as [Hle|Hgt].
  - apply (Hsound m); try lia. exists c. exact Hc.
  - apply (Hsound c); try nia. exists m. lia.
Qed.

Lemma prime_divisor_exists_nat (k : nat) : forall n, 1 < n -> n < Z.of_nat k ->
  exists p, Z.prime p /\ (p | n).
Proof.
  induction k as [|k IH]; intros n Hn Hk; [lia|].
  destruct (prime_dec n) as [Hp|Hnp].
  - exists n. split; [apply prime_alt; exact Hp | apply Z.divide_refl].
  - destruct (not_prime_divide n Hn Hnp) as [m [Hm Hdiv]].
    destruct (IH m) as [p [Hp Hpm]]; try lia.
    exists p. split; auto. eapply Z.divide_trans; eauto.
Qed.

Lemma prime_divisor_exists n : 1 < n -> exists p, Z.prime p /\ (p | n).
Proof.
  intros Hn. apply (prime_divisor_exists_nat (Z.to_nat (n + 1))); lia.
Qed.

Lemma pow_mod_one_rem m g a b :
  1 < m -> 0 <= a -> 0 < b ->
  g ^ a mod m = 1 -> g ^ b mod m = 1 -> g ^ (a mod b) mod m = 1.
Proof.
  intros Hm Ha Hb H1 H2.
  pose proof (Z.mod_pos_bound a b Hb) as Hr.
  pose proof (Z.div_mod a b ltac:(lia)) as Hdm.
  assert (Hq : 0 <= a / b) by (apply Z.div_pos; lia).
  rewrite Hdm in H1.
  rewrite Z.pow_add_r in H1 by nia.
  rewrite Z.pow_mul_r in H1 by lia.
  rewrite Z.mul_mod in H1 by lia.
  rewrite <- Z.mod_pow_l in H1. rewrite H2 in H1.
  rewrite Z.pow_1_l in H1 by lia.
  rewrite (Z.mod_small 1 m) in H1 by lia.
  rewrite Z.mul_1_l in H1. rewrite Z.mod_mod in H1 by lia. exact H1.
Qed.

Lemma pow_mod_one_gcd_nat m g (k : nat) : forall a b,
  1 < m -> 0 <= a -> 0 <= b -> b < Z.of_nat k ->
  g ^ a mod m = 1 -> g ^ b mod m = 1 -> g ^ (Z.gcd a b) mod m = 1.
Proof.
  induction k as [|k IH]; intros a b Hm Ha Hb Hk H1 H2; [lia|].
  destruct (Z.eq_dec b 0) as [->|Hb0].
  - rewrite Z.gcd_0_r, Z.abs_eq by lia. exact H1.
  - rewrite Z.gcd_comm, <- Z.gcd_mod by lia. rewrite Z.gcd_comm.
    pose proof (Z.mod_pos_bound a b ltac:(lia)).
    apply IH; try lia.
    apply pow_mod_one_rem; try lia; auto.
Qed.

Lemma pow_mod_one_gcd m g a b :
  1 < m -> 0 <= a -> 0 <= b ->
  g ^ a mod m = 1 -> g ^ b mod m = 1 -> g ^ (Z.gcd a b) mod m = 1.
Proof.
  intros. apply (pow_mod_one_gcd_nat m g (Z.to_nat (b + 1))); auto; lia.
Qed.

Lemma prime_divides_prod r l :
  Z.prime r -> Forall Z.prime l -> (r | zprod l) -> In r l.
Proof.
  intros Hr. induction l as [|q l IH]; intros Hl Hdiv; simpl in *.
  - destruct Hr as [Hr _]. apply Z.divide_1_r_nonneg in Hdiv; lia.
  - inversion Hl as [|? ? Hq Hl']; subst.
    apply Z.divide_prime_mul in Hdiv; auto.
    destruct Hdiv as [Hdiv|Hdiv].
    + left. symmetry. apply Z.divide_prime_prime; auto.
    + right. auto.
Qed.

(** Pocklington's criterion with a complete factorisation of [P - 1]. *)
Theorem pocklington P g qs :
  1 < P -> P - 1 = zprod qs -> Forall Z.prime qs ->
  Zpow_mod g (P - 1) P = 1 ->
  (forall q, In q qs -> Z.gcd (Zpow_mod g ((P - 1) / q) P - 1) P = 1) ->
  Z.prime P.
Proof.
  intros HP Hfact Hprimes Hg Hcert.
  rewrite Zpow_mod_correct in Hg by lia.
  assert (Hkey : forall p, Z.prime p -> (p | P) -> P <= p).
  { intros p Hp HpP.
    pose proof (Z.prime_ge_2 _ Hp) as Hp2.
    assert (HgN : g ^ (P - 1) mod p = 1).
    { rewrite <- (Z.mod_mod_divide (g ^ (P - 1)) P p HpP).
      rewrite Hg. apply Z.mod_small; lia. }
    assert (Hgnz : g mod p <> 0).
    { intros Hz. rewrite <- Z.mod_pow_l in HgN. rewrite Hz in HgN.
      rewrite Z.pow_0_l in HgN by lia. rewrite Z.mod_0_l in HgN; lia. }
    pose proof (ZmodInv.Z.fermat_nz p g Hp Hgnz) as Hf.
    pose proof (pow_mod_one_gcd p g (P - 1) (p - 1) ltac:(lia) ltac:(lia) ltac:(lia) HgN Hf) as Hd.
    set (d := Z.gcd (P - 1) (p - 1)) in *.
    assert (Hd0 : 0 < d).
    { pose proof (Z.gcd_nonneg (P - 1) (p - 1)).
      assert (d <> 0); [|lia]. unfold d. intros Hz. apply Z.gcd_eq_0_l in Hz. lia. }
    destruct (Z.gcd_divide_l (P - 1) (p - 1)) as [c Hc]. fold d in Hc.
    destruct (Z.gcd_divide_r (P - 1) (p - 1)) as [c' Hc']. fold d in Hc'.
    destruct (Z.eq_dec c 1) as [->|Hc1].
    - assert (0 < c') by nia. nia.
    - exfalso.
      assert (Hcgt : 1 < c) by nia.
      destruct (prime_divisor_exists c Hcgt) as [r [Hr [c2 Hc2]]].
      pose proof (Z.prime_ge_2 _ Hr) as Hr2.
      assert (Hin : In r qs).
      { apply prime_divides_prod; auto. rewrite <- Hfact.
        exists (c2 * d). rewrite Hc, Hc2. ring. }
      specialize (Hcert r Hin).
      assert (Hquot : (P - 1) / r = c2 * d).
      { rewrite Hc, Hc2. replace (c2 * r * d) with (c2 * d * r) by ring.
        apply Z.div_mul. lia. }
      assert (Hc2pos : 0 < c2) by nia.
      rewrite Zpow_mod_correct in Hcert by lia.
      assert (Hone : g ^ ((P - 1) / r) mod p = 1).
      { rewrite Hquot. rewrite Z.mul_comm. rewrite Z.pow_mul_r by lia.
        rewrite <- Z.mod_pow_l. rewrite Hd. rewrite Z.pow_1_l by lia.
        apply Z.mod_small. lia. }
      assert (Hdiv1 : (p | g ^ ((P - 1) / r) mod P - 1)).
      { apply Z.mod_divide; [lia|].
        rewrite Zminus_mod. rewrite (Z.mod_mod_divide _ P p HpP).
        rewrite Hone. rewrite (Z.mod_small 1 p) by lia.
        rewrite Z.sub_diag. apply Z.mod_0_l. lia. }
      assert (Hdiv : (p | 1)).
      { rewrite <- Hcert. apply Z.gcd_greatest; auto. }
      apply Z.divide_1_r_nonneg in Hdiv; lia. }
  split; [exact HP|].
  intros n Hn Hdiv.
  destruct (prime_divisor_exists n ltac:(lia)) as [p [Hp Hpn]].
  assert (p <= n). { apply Z.divide_pos_le; [lia | exact Hpn]. }
  assert (P <= p). { apply Hkey; auto. eapply Z.divide_trans; eauto. }
  lia.
Qed.

Ltac small_primes :=
  repeat (apply Forall_cons; [apply trial_prime_sound; vm_compute; reflexivity|]);
  apply Forall_nil.

Ltac certificate :=
  let q := fresh "q" in let Hq := fresh "Hq" in
  intros q Hq; simpl in Hq;
  repeat (destruct Hq as [<-|Hq]; [vm_compute; reflexivity|]); contradiction.

Lemma prime_77158673929 : Z.prime 77158673929.
Proof.
  apply (pocklington 77158673929 11 [2;2;2;3;3;3;7;73;699053]).
  - reflexivity.
  - reflexivity.
  - small_primes.
  - vm_compute; reflexivity.
  - certificate.
Qed.

Lemma PRIME_pred_factors_prime : Forall Z.prime PRIME_pred_factors.
Proof.
  unfold PRIME_pred_factors.
  repeat (apply Forall_cons;
          [first [exact prime_77158673929
                 | apply trial_prime_sound; vm_compute; reflexivity]|]).
  apply Forall_nil.
Qed.

Lemma prime_PRIME : Z.prime _PRIME.
Proof.
  apply (pocklington _PRIME 43 PRIME_pred_factors).
  - vm_compute; reflexivity.
  - vm_compute; reflexivity.
  - exact PRIME_pred_factors_prime.
  - vm_compute; reflexivity.
  - unfold PRIME_pred_factors. certificate.
Qed.

(** * Polynomials and interpolation *)

Lemma peval_nil x : peval [] x = 0.
Proof. reflexivity. Qed.

Lemma peval_cons a c x : peval (a :: c) x = a + x * peval c x.
Proof. reflexivity. Qed.

Lemma peval_padd a : forall b x, peval (padd a b) x = peval a x + peval b x.
Proof.
  induction a as [|u a IH]; intros [|v b] x; simpl;
    rewrite ?peval_cons, ?peval_nil, ?IH; ring.
Qed.

Lemma peval_pscale k a x : peval (pscale k a) x = k * peval a x.
Proof.
  induction a as [|u a IH]; simpl; rewrite ?peval_cons, ?peval_nil; [ring|].
  fold (pscale k a). rewrite IH. ring.
Qed.

Lemma peval_pmul_lin r a x : peval (pmul_lin r a) x = (x - r) * peval a x.
Proof.
  unfold pmul_lin. rewrite peval_padd, peval_pscale, peval_cons. ring.
Qed.

Lemma peval_pprod_diff l x : peval (pprod_diff l) x = prod_diff x l.
Proof.
  induction l as [|a l IH]; simpl.
  - rewrite peval_cons, peval_nil. ring.
  - rewrite peval_pmul_lin. fold (pprod_diff l). rewrite IH. reflexivity.
Qed.

Lemma peval_psum l x : peval (psum l) x = zsum (map (fun c => peval c x) l).
Proof.
  induction l as [|c l IH]; simpl; [reflexivity|].
  rewrite peval_padd. fold (psum l). now rewrite IH.
Qed.

Lemma length_padd a : forall b, length (padd a b) = Nat.max (length a) (length b).
Proof.
  induction a as [|u a IH]; intros [|v b]; simpl; auto.
Qed.

Lemma length_pscale k a : length (pscale k a) = length a.
Proof. apply length_map. Qed.

Lemma length_pmul_lin r a : length (pmul_lin r a) = S (length a).
Proof.
  unfold pmul_lin. rewrite length_padd, length_pscale. cbn [length]. lia.
Qed.

Lemma length_pprod_diff l : length (pprod_diff l) = S (length l).
Proof.
  induction l as [|a l IH]; simpl; [reflexivity|].
  rewrite length_pmul_lin. fold (pprod_diff l). now rewrite IH.
Qed.

Lemma length_psum (k : nat) l :
  Forall (fun c => (length c <= k)%nat) l -> (length (psum l) <= k)%nat.
Proof.
  induction 1 as [|c l Hc Hl IH]; simpl; [lia|].
  rewrite length_padd. fold (psum l). lia.
Qed.

Lemma length_pquot r c : length (pquot r c) = pred (length c).
Proof.
  induction c as [|a c IH]; [reflexivity|].
  destruct c as [|b c]; [reflexivity|].
  change (pquot r (a :: b :: c)) with (peval (b :: c) r :: pquot r (b :: c)).
  simpl length in *. rewrite IH. reflexivity.
Qed.

Lemma peval_pquot r c x :
  peval c x = peval c r + (x - r) * peval (pquot r c) x.
Proof.
  induction c as [|a c IH]; [simpl; rewrite !peval_nil; ring|].
  destruct c as [|b c]; [simpl; rewrite !peval_cons, !peval_nil; ring|].
  change (pquot r (a :: b :: c)) with (peval (b :: c) r :: pquot r (b :: c)).
  rewrite !(peval_cons a), (peval_cons (peval (b :: c) r)).
  rewrite IH at 1. ring.
Qed.

Section Field.
Variable p : Z.
Hypothesis p_prime : Z.prime p.

Lemma p_gt_1 : 1 < p.
Proof. pose proof (Z.prime_ge_2 _ p_prime). lia. Qed.

Lemma mod_mul_zero a b :
  (a * b) mod p = 0 -> a mod p <> 0 -> b mod p = 0.
Proof.
  pose proof p_gt_1 as Hp.
  intros Hab Ha.
  apply Z.mod_divide in Hab; [|lia].
  apply Z.divide_prime_mul in Hab; [|exact p_prime].
  destruct Hab as [H|H]; apply Z.mod_divide in H; try lia.
Qed.

Lemma mod_sub_nonzero a b : a mod p <> b mod p -> (a - b) mod p <> 0.
Proof.
  pose proof p_gt_1 as Hp.
  intros Hne H. apply Hne.
  replace a with ((a - b) + b) by ring.
  rewrite Z.add_mod by lia. rewrite H. simpl.
  rewrite Z.mod_mod by lia. reflexivity.
Qed.

(** A polynomial with more roots (distinct modulo [p]) than coefficients
    vanishes everywhere modulo [p]. *)
Lemma poly_roots_zero rs : forall c,
  (length c <= length rs)%nat ->
  distinct_mod p rs ->
  (forall r, In r rs -> peval c r mod p = 0) ->
  forall x, peval c x mod p = 0.
Proof.
  pose proof p_gt_1 as Hp.
  induction rs as [|r rs IH]; intros c Hlen Hd Hroots x.
  - destruct c; [rewrite peval_nil; apply Z.mod_0_l; lia | simpl in Hlen; lia].
  - unfold distinct_mod in Hd. simpl in Hd. inversion Hd as [|? ? Hnotin Hd']; subst.
    assert (Hq : forall y, peval (pquot r c) y mod p = 0).
    { apply IH.
      - rewrite length_pquot. simpl in Hlen. lia.
      - exact Hd'.
      - intros r' Hr'.
        apply (mod_mul_zero (r' - r)).
        + pose proof (peval_pquot r c r') as E.
          assert (H1 := Hroots r' (or_intror Hr')).
          assert (H2 := Hroots r (or_introl eq_refl)).
          rewrite E in H1. rewrite Z.add_mod in H1 by lia.
          rewrite H2 in H1. simpl in H1. rewrite Z.mod_mod in H1 by lia.
          exact H1.
        + apply mod_sub_nonzero. intros E. apply Hnotin.
          rewrite <- E. apply (in_map (fun x => x mod p)). exact Hr'. }
    rewrite (peval_pquot r c x).
    rewrite Z.add_mod by lia.
    rewrite (Hroots r (or_introl eq_refl)).
    rewrite Z.mul_mod by lia. rewrite Hq.
    rewrite Z.mul_0_r. simpl. rewrite Z.mod_0_l by lia. reflexivity.
Qed.

(** ** Lagrange interpolation *)

Lemma peval_lagrange_poly xs ys x :
  peval (lagrange_poly p xs ys) x = lagrange_sum p x xs ys.
Proof.
  unfold lagrange_poly, lagrange_sum. rewrite peval_psum, map_map.
  f_equal. apply map_ext. intros i.
  rewrite peval_pscale, peval_pprod_diff. unfold lag_term. ring.
Qed.

Lemma length_remove_nth {A} (i : nat) (l : list A) :
  (i < length l)%nat -> length (remove_nth i l) = pred (length l).
Proof.
  intros H. unfold remove_nth.
  rewrite length_app, length_firstn, length_skipn. lia.
Qed.

Lemma length_lagrange_poly xs ys :
  (length (lagrange_poly p xs ys) <= length xs)%nat.
Proof.
  unfold lagrange_poly. apply length_psum.
  apply Forall_forall. intros c Hc.
  apply in_map_iff in Hc. destruct Hc as [i [<- Hi]].
  apply in_seq in Hi.
  rewrite length_pscale, length_pprod_diff, length_remove_nth; lia.
Qed.

Lemma prod_diff_zero x l : In x l -> prod_diff x l = 0.
Proof.
  induction l as [|a l IH]; simpl; [contradiction|].
  intros [->|H]; [ring | rewrite (IH H); ring].
Qed.

Lemma prod_diff_nonzero x l :
  (forall a, In a l -> x mod p <> a mod p) -> prod_diff x l mod p <> 0.
Proof.
  pose proof p_gt_1 as Hp.
  induction l as [|a l IH]; simpl; intros H.
  - rewrite Z.mod_small; lia.
  - intros E. apply mod_mul_zero in E.
    + revert E. apply IH. intros b Hb. apply H. now right.
    + apply mod_sub_nonzero. apply H. now left.
Qed.

Lemma in_remove_nth {A} (d : A) (i m : nat) (l : list A) :
  (m < length l)%nat -> m <> i -> In (nth m l d) (remove_nth i l).
Proof.
  intros Hm Hne. unfold remove_nth. apply in_or_app.
  destruct (Nat.lt_ge_cases m i) as [Hlt|Hge].
  - left. rewrite <- (firstn_skipn i l) at 1.
    rewrite app_nth1 by (rewrite length_firstn; lia).
    apply nth_In. rewrite length_firstn. lia.
  - right. rewrite <- (firstn_skipn (S i) l) at 1.
    rewrite app_nth2 by (rewrite length_firstn; lia).
    apply nth_In. rewrite length_firstn, length_skipn. lia.
Qed.

Lemma NoDup_remove_nth {A} (d : A) (i : nat) (l : list A) :
  NoDup l -> (i < length l)%nat -> ~ In (nth i l d) (remove_nth i l).
Proof.
  intros Hnd Hi.
  pose proof (firstn_skipn i l) as E.
  destruct (skipn i l) as [|a r] eqn:Es.
  { apply (f_equal (@length A)) in Es. rewrite length_skipn in Es. simpl in Es. lia. }
  assert (Hlen : length (firstn i l) = i) by (rewrite length_firstn; lia).
  assert (Hnth : nth i l d = a).
  { rewrite <- E. rewrite app_nth2 by lia. rewrite Hlen, Nat.sub_diag. reflexivity. }
  assert (Hr : skipn (S i) l = r).
  { rewrite <- E at 1. rewrite <- Hlen at 1.
    replace (S (length (firstn i l))) with (length (firstn i l) + 1)%nat by lia.
    rewrite skipn_app, Nat.add_comm. rewrite skipn_all2 by lia.
    replace (1 + length (firstn i l) - length (firstn i l))%nat with 1%nat by lia.
    reflexivity. }
  unfold remove_nth. rewrite Hr, Hnth.
  rewrite <- E in Hnd. apply NoDup_remove_2 in Hnd. exact Hnd.
Qed.

Lemma remove_nth_map {A B} (f : A -> B) i l :
  remove_nth i (map f l) = map f (remove_nth i l).
Proof. unfold remove_nth. now rewrite map_app, firstn_map, skipn_map. Qed.

Lemma lag_den_nonzero xs i :
  distinct_mod p xs -> (i < length xs)%nat -> lag_den xs i mod p <> 0.
Proof.
  intros Hd Hi. unfold lag_den. apply prod_diff_nonzero.
  intros a Ha E.
  apply (NoDup_remove_nth 0 i _ Hd); [now rewrite length_map|].
  rewrite remove_nth_map.
  assert (Hn : nth i (map (fun x => x mod p) xs) 0 = nth i xs 0 mod p).
  { rewrite (nth_indep _ 0 (0 mod p)) by (rewrite length_map; exact Hi).
    exact (map_nth (fun x => x mod p) xs 0 i). }
  rewrite Hn, E. apply (in_map (fun x => x mod p)). exact Ha.
Qed.

Lemma zsum_single (f : nat -> Z) (m : nat) : forall k s,
  (s <= m < s + k)%nat ->
  (forall i, (s <= i < s + k)%nat -> i <> m -> f i = 0) ->
  zsum (map f (seq s k)) = f m.
Proof.
  induction k as [|k IH]; intros s Hm Hz; [lia|].
  simpl. destruct (Nat.eq_dec s m) as [->|Hne].
  - assert (E : zsum (map f (seq (S m) k)) = 0).
    { clear IH Hm. assert (Hz' : forall i, (S m <= i < S m + k)%nat -> f i = 0)
        by (intros i Hi; apply Hz; lia).
      clear Hz. revert Hz'. generalize (S m). induction k as [|k IHk]; intros s Hz; simpl; [reflexivity|].
      rewrite Hz by lia. rewrite IHk; [reflexivity|]. intros i Hi. apply Hz. lia. }
    rewrite E. ring.
  - rewrite Hz by lia. rewrite IH; [ring | lia |]. intros i Hi. apply Hz. lia.
Qed.

Lemma fermat_inverse a : a mod p <> 0 -> (a * a ^ (p - 2)) mod p = 1.
Proof.
  pose proof p_gt_1 as Hp. intros Ha.
  rewrite <- (ZmodInv.Z.fermat_nz p a p_prime Ha).
  f_equal. replace (p - 1) with (1 + (p - 2)) by ring.
  rewrite Z.pow_add_r by lia. rewrite Z.pow_1_r. reflexivity.
Qed.

Lemma lagrange_sum_at_node xs ys m :
  distinct_mod p xs -> (m < length xs)%nat ->
  lagrange_sum p (nth m xs 0) xs ys mod p = nth m ys 0 mod p.
Proof.
  pose proof p_gt_1 as Hp. intros Hd Hm.
  unfold lagrange_sum.
  rewrite (zsum_single _ m); [|lia|].
  - unfold lag_term. fold (lag_den xs m).
    rewrite <- Z.mul_assoc. rewrite Z.mul_mod by lia.
    rewrite fermat_inverse by (apply lag_den_nonzero; assumption).
    rewrite Z.mul_1_r. apply Z.mod_mod. lia.
  - intros i Hi Hne. unfold lag_term.
    rewrite (prod_diff_zero (nth m xs 0)); [ring|].
    apply in_remove_nth; lia.
Qed.

(** Interpolating the values of a polynomial with at most [length xs]
    coefficients at nodes that are distinct modulo [p] gives back the
    polynomial, at every point. *)
Theorem lagrange_sum_correct c xs ys x :
  distinct_mod p xs ->
  (length c <= length xs)%nat ->
  (forall i, (i < length xs)%nat -> nth i ys 0 mod p = peval c (nth i xs 0) mod p) ->
  lagrange_sum p x xs ys mod p = peval c x mod p.
Proof.
  pose proof p_gt_1 as Hp. intros Hd Hlen Hys.
  set (D := padd (lagrange_poly p xs ys) (pscale (-1) c)).
  assert (HD : forall y, peval D y = lagrange_sum p y xs ys - peval c y).
  { intros y. unfold D. rewrite peval_padd, peval_pscale, peval_lagrange_poly. ring. }
  assert (Hzero : peval D x mod p = 0).
  { apply (poly_roots_zero xs); auto.
    - unfold D. rewrite length_padd, length_pscale.
      pose proof (length_lagrange_poly xs ys). lia.
    - intros r Hr. apply (In_nth _ _ 0) in Hr. destruct Hr as [m [Hm <-]].
      rewrite HD. rewrite Zminus_mod.
      rewrite lagrange_sum_at_node by assumption.
      rewrite Hys by assumption.
      rewrite Z.sub_diag. apply Z.mod_0_l. lia. }
  rewrite HD in Hzero.
  replace (lagrange_sum p x xs ys) with ((lagrange_sum p x xs ys - peval c x) + peval c x) by ring.
  rewrite Z.add_mod by lia. rewrite Hzero. simpl. apply Z.mod_mod. lia.
Qed.

(** ** The code computes these sums *)

Lemma pow3_spec b e : pow3 b e p = b ^ e mod p.
Proof. unfold pow3. apply Zpow_mod_correct. pose proof p_gt_1. lia. Qed.

Lemma mod_add_compat a a' b b' :
  a mod p = a' mod p -> b mod p = b' mod p -> (a + b) mod p = (a' + b') mod p.
Proof.
  pose proof p_gt_1. intros Ha Hb.
  rewrite (Z.add_mod a b), (Z.add_mod a' b') by lia. now rewrite Ha, Hb.
Qed.

Lemma mod_mul_compat a a' b b' :
  a mod p = a' mod p -> b mod p = b' mod p -> (a * b) mod p = (a' * b') mod p.
Proof.
  pose proof p_gt_1. intros Ha Hb.
  rewrite (Z.mul_mod a b), (Z.mul_mod a' b') by lia. now rewrite Ha, Hb.
Qed.

Lemma mod_pow_compat a a' e : a mod p = a' mod p -> a ^ e mod p = a' ^ e mod p.
Proof.
  intros Ha. rewrite <- (Z.mod_pow_l a), <- (Z.mod_pow_l a'). now rewrite Ha.
Qed.

Lemma mod_mod_eq a : (a mod p) mod p = a mod p.
Proof. apply Z.mod_mod. pose proof p_gt_1. lia. Qed.

Lemma eval_polynomial_fold x c : forall (s : nat) acc,
  fold_left
    (fun result pc => (result + snd pc * pow3 x (fst pc) p) mod p)
    (combine (map Z.of_nat (seq s (length c))) c) acc mod p
  = (acc + x ^ Z.of_nat s * peval c x) mod p.
Proof.
  induction c as [|a c IH]; intros s acc;
    cbn [length seq map combine fold_left fst snd].
  - rewrite peval_nil. f_equal. ring.
  - rewrite IH. rewrite peval_cons. rewrite pow3_spec.
    replace (acc + x ^ Z.of_nat s * (a + x * peval c x))
      with ((acc + a * x ^ Z.of_nat s) + x ^ Z.of_nat (S s) * peval c x).
    2:{ rewrite Nat2Z.inj_succ, Z.pow_succ_r by lia.
        generalize (x ^ Z.of_nat s). intros. ring. }
    apply mod_add_compat; [|reflexivity].
    rewrite mod_mod_eq. apply mod_add_compat; [reflexivity|].
    apply mod_mul_compat; [reflexivity | apply mod_mod_eq].
Qed.

Lemma eval_polynomial_range x (l : list (Z * Z)) : forall acc,
  0 <= acc < p ->
  0 <= fold_left
         (fun result pc => (result + snd pc * pow3 x (fst pc) p) mod p) l acc < p.
Proof.
  pose proof p_gt_1.
  induction l as [|pc l IH]; intros acc Hacc; simpl; [exact Hacc|].
  apply IH. apply Z.mod_pos_bound. lia.
Qed.

Lemma eval_polynomial_spec c x : _eval_polynomial c x p = peval c x mod p.
Proof.
  pose proof p_gt_1.
  unfold _eval_polynomial, enumerate.
  rewrite <- (Z.mod_small (fold_left _ _ 0) p)
    by (apply eval_polynomial_range; lia).
  rewrite eval_polynomial_fold. f_equal.
  change (Z.of_nat 0) with 0. rewrite Z.pow_0_r. ring.
Qed.

Lemma fold_left_seq_nth {B} (F : B -> nat -> Z -> B) l : forall pre acc,
  fold_left (fun b j => F b j (nth j (pre ++ l) 0))
            (seq (length pre) (length l)) acc
  = fold_left (fun b jx => F b (fst jx) (snd jx))
              (combine (seq (length pre) (length l)) l) acc.
Proof.
  induction l as [|a l IH]; intros pre acc; simpl; [reflexivity|].
  rewrite app_nth2 by lia. rewrite Nat.sub_diag. simpl.
  specialize (IH (pre ++ [a]) (F acc (length pre) a)).
  rewrite length_app in IH. simpl in IH. rewrite Nat.add_1_r in IH.
  rewrite <- app_assoc in IH. simpl in IH. exact IH.
Qed.

Lemma skip_at_cons_other s i a l :
  i <> s -> skip_at s i (a :: l) = a :: skip_at (S s) i l.
Proof.
  intros Hne. unfold skip_at.
  destruct (s <=? i)%nat eqn:E1.
  - apply Nat.leb_le in E1.
    assert (E2 : (S s <=? i)%nat = true) by (apply Nat.leb_le; lia).
    rewrite E2. unfold remove_nth.
    replace (i - s)%nat with (S (i - S s)) by lia. reflexivity.
  - apply Nat.leb_gt in E1.
    assert (E2 : (S s <=? i)%nat = false) by (apply Nat.leb_gt; lia).
    now rewrite E2.
Qed.

Lemma skip_at_cons_same s a l : skip_at s s (a :: l) = l /\ skip_at (S s) s l = l.
Proof.
  unfold skip_at. rewrite Nat.leb_refl, Nat.sub_diag.
  assert (E : (S s <=? s)%nat = false) by (apply Nat.leb_gt; lia).
  rewrite E. split; reflexivity.
Qed.

Lemma num_den_fold x xi i l : forall s nd,
  let r :=
    fold_left
      (fun nd jx =>
         if Nat.eqb i (fst jx) then nd
         else ((fst nd * (x - snd jx)) mod p, (snd nd * (xi - snd jx)) mod p))
      (combine (seq s (length l)) l) nd in
  fst r mod p = (fst nd * prod_diff x (skip_at s i l)) mod p
  /\ snd r mod p = (snd nd * prod_diff xi (skip_at s i l)) mod p.
Proof.
  induction l as [|a l IH]; intros s nd; simpl.
  - assert (E : skip_at s i [] = []).
    { unfold skip_at, remove_nth. destruct (s <=? i)%nat; [|reflexivity].
      now rewrite firstn_nil, skipn_nil. }
    rewrite E. simpl. split; f_equal; ring.
  - destruct (Nat.eqb i s) eqn:Ei.
    + apply Nat.eqb_eq in Ei. subst i.
      destruct (skip_at_cons_same s a l) as [E1 E2].
      rewrite E1. specialize (IH (S s) nd). simpl in IH. rewrite E2 in IH. exact IH.
    + apply Nat.eqb_neq in Ei.
      rewrite (skip_at_cons_other s i a l Ei).
      specialize (IH (S s) ((fst nd * (x - a)) mod p, (snd nd * (xi - a)) mod p)).
      simpl in IH. destruct IH as [IH1 IH2]. rewrite IH1, IH2. simpl.
      split.
      * rewrite Z.mul_assoc. apply mod_mul_compat; [apply mod_mod_eq | reflexivity].
      * rewrite Z.mul_assoc. apply mod_mul_compat; [apply mod_mod_eq | reflexivity].
Qed.

Lemma lagrange_num_den_spec x xs i :
  fst (lagrange_num_den x xs p i) mod p = prod_diff x (remove_nth i xs) mod p
  /\ snd (lagrange_num_den x xs p i) mod p = lag_den xs i mod p.
Proof.
  unfold lagrange_num_den, lag_den.
  pose proof (fold_left_seq_nth
    (fun nd j xj =>
       if Nat.eqb i j then nd
       else ((fst nd * (x - xj)) mod p, (snd nd * (nth i xs 0 - xj)) mod p))
    xs [] (1, 1)) as E.
  cbn [length app] in E. rewrite E.
  destruct (num_den_fold x (nth i xs 0) i xs 0%nat (1, 1)) as [H1 H2].
  cbn [fst snd] in H1, H2. rewrite H1, H2.
  unfold skip_at. cbn [Nat.leb]. rewrite Nat.sub_0_r, !Z.mul_1_l.
  split; reflexivity.
Qed.

Lemma zsum_app l1 l2 : zsum (l1 ++ l2) = zsum l1 + zsum l2.
Proof. induction l1 as [|a l1 IH]; simpl; [reflexivity | rewrite IH; ring]. Qed.

Lemma lagrange_interpolate_prefix x xs ys (j : nat) :
  (j <= length xs)%nat -> (length xs <= length ys)%nat ->
  fold_left
    (fun total i =>
       match total with
       | Raise e => Raise e
       | Ok total =>
         match nth_error ys i with
         | None => Raise IndexError
         | Some yi =>
           let (num, den) := lagrange_num_den x xs p i in
           let inv_den := pow3 den (p - 2) p in
           Ok ((total + yi * num * inv_den) mod p)
         end
       end)
    (seq 0 j) (Ok 0)
  = Ok (zsum (map (lag_term p x xs ys) (seq 0 j)) mod p).
Proof.
  pose proof p_gt_1 as Hp.
  induction j as [|j IH]; intros Hj Hlen.
  - simpl. rewrite Z.mod_0_l by lia. reflexivity.
  - rewrite seq_S, fold_left_app, IH by lia. simpl.
    rewrite (nth_error_nth' ys 0) by lia.
    destruct (lagrange_num_den_spec x xs j) as [Hnum Hden].
    destruct (lagrange_num_den x xs p j) as [num den]. simpl in Hnum, Hden.
    f_equal. rewrite map_app, zsum_app. simpl. rewrite Z.add_0_r.
    apply mod_add_compat; [apply mod_mod_eq|].
    unfold lag_term. rewrite pow3_spec.
    apply mod_mul_compat.
    + apply mod_mul_compat; [reflexivity | exact Hnum].
    + rewrite mod_mod_eq. apply mod_pow_compat. exact Hden.
Qed.

Lemma lagrange_interpolate_spec x xs ys :
  (length xs <= length ys)%nat ->
  _lagrange_interpolate x xs ys p = Ok (lagrange_sum p x xs ys mod p).
Proof.
  intros Hlen. unfold _lagrange_interpolate, lagrange_sum.
  now apply lagrange_interpolate_prefix.
Qed.

End Field.

Lemma PRIME_gt_1 : 1 < _PRIME.
Proof. pose proof (Z.prime_ge_2 _ prime_PRIME). lia. Qed.

(** * The codec *)

(** ** Slices and ranges *)

Lemma slice_to_all {A} (l : list A) k :
  Z.of_nat (length l) <= k -> slice_to l k = l.
Proof.
  intros H. unfold slice_to.
  destruct (0 <=? k) eqn:E; [|apply Z.leb_gt in E; lia].
  apply firstn_all2. lia.
Qed.

Lemma slice_to_idem {A} (l : list A) k :
  0 <= k -> slice_to (slice_to l k) k = slice_to l k.
Proof.
  intros H. unfold slice_to.
  destruct (0 <=? k) eqn:E; [|apply Z.leb_gt in E; lia].
  rewrite firstn_firstn. now rewrite Nat.min_id.
Qed.

Lemma in_range a b i : In i (range a b) <-> a <= i < b.
Proof.
  unfold range. rewrite in_map_iff. split.
  - intros [j [<- Hj]]. apply in_seq in Hj. lia.
  - intros H. exists (Z.to_nat (i - a)). split; [lia|]. apply in_seq. lia.
Qed.

Lemma length_randrange_list `{PyRandom} m bound : forall g,
  length (fst (randrange_list m bound g)) = m.
Proof.
  induction m as [|m IH]; intros g; simpl; [reflexivity|].
  destruct (rng_randrange bound g) as [c g1].
  specialize (IH g1). destruct (randrange_list m bound g1) as [cs g2].
  simpl in *. now rewrite IH.
Qed.

Lemma ECEnc_coeffs_spec `{PyRandom} k secret :
  1 <= k ->
  Z.of_nat (length (fst (ECEnc_coeffs k secret))) = k
  /\ peval (fst (ECEnc_coeffs k secret)) 0 = secret.
Proof.
  intros Hk. unfold ECEnc_coeffs.
  pose proof (length_randrange_list (Z.to_nat (k - 1)) _PRIME (rng_seed secret)) as L.
  destruct (randrange_list (Z.to_nat (k - 1)) _PRIME (rng_seed secret)) as [cs g].
  simpl in *. split; [lia|]. rewrite peval_cons. ring.
Qed.

(** The shares produced by [ECEnc]. *)
Lemma ECEnc_shares `{PyRandom} n k secret g shares :
  fst (ECEnc n k secret g) = Ok shares ->
  0 <= secret < _PRIME
  /\ shares = map (fun i => (i, peval (fst (ECEnc_coeffs k secret)) i mod _PRIME))
                  (range 1 (n + 1)).
Proof.
  unfold ECEnc. intros H0.
  destruct ((0 <=? secret) && (secret <? _PRIME)) eqn:E; [|discriminate].
  apply andb_true_iff in E. destruct E as [E1 E2].
  apply Z.leb_le in E1. apply Z.ltb_lt in E2. split; [lia|].
  destruct (ECEnc_coeffs k secret) as [coeffs g']. simpl in *.
  injection H0 as <-. apply map_ext. intros i.
  now rewrite (eval_polynomial_spec _PRIME prime_PRIME).
Qed.

Lemma NoDup_map_fst_incl {A B} (f : A -> B) (S : list (A * B)) (dom : list A) :
  NoDup S -> incl S (map (fun i => (i, f i)) dom) -> NoDup (map fst S).
Proof.
  intros Hnd Hincl. induction S as [|[x y] S IH]; simpl; [constructor|].
  inversion Hnd as [|? ? Hnotin Hnd']; subst.
  constructor.
  - intros Hin. apply in_map_iff in Hin. destruct Hin as [[x' y'] [Hx Hin']].
    simpl in Hx. subst x'.
    assert (Hy : y = f x).
    { specialize (Hincl (x, y) (or_introl eq_refl)).
      apply in_map_iff in Hincl. destruct Hincl as [i [E _]]. congruence. }
    assert (Hy' : y' = f x).
    { specialize (Hincl (x, y') (or_intror Hin')).
      apply in_map_iff in Hincl. destruct Hincl as [i [E _]]. congruence. }
    apply Hnotin. congruence.
  - apply IH; [exact Hnd'|]. intros s Hs. apply Hincl. now right.
Qed.

Lemma NoDup_map_mod (p : Z) (l : list Z) :
  NoDup l -> (forall x, In x l -> 1 <= x <= p) ->
  NoDup (map (fun x => x mod p) l).
Proof.
  intros Hnd Hr. induction l as [|a l IH]; simpl; [constructor|].
  inversion Hnd as [|? ? Hnotin Hnd']; subst.
  constructor.
  - intros Hin. apply in_map_iff in Hin. destruct Hin as [b [E Hb]].
    apply Hnotin.
    assert (Ha := Hr a (or_introl eq_refl)).
    assert (Hb' := Hr b (or_intror Hb)).
    assert (b = a); [|congruence].
    destruct (Z.eq_dec a p) as [->|Hap]; destruct (Z.eq_dec b p) as [->|Hbp];
      try reflexivity.
    + rewrite Z.mod_same in E by lia. rewrite Z.mod_small in E by lia. lia.
    + rewrite Z.mod_same in E by lia. rewrite Z.mod_small in E by lia. lia.
    + rewrite !Z.mod_small in E by lia. exact E.
  - apply IH; [exact Hnd'|]. intros x Hx. apply Hr. now right.
Qed.

Lemma ECDec_nonempty n k shares :
  slice_to shares k <> [] ->
  ECDec n k shares =
  _lagrange_interpolate 0 (map fst (slice_to shares k))
                        (map snd (slice_to shares k)) _PRIME.
Proof.
  intros H. unfold ECDec. destruct (slice_to shares k); [contradiction | reflexivity].
Qed.

Lemma ECDec_empty n k shares :
  slice_to shares k = [] -> ECDec n k shares = Raise ValueError.
Proof. intros H. unfold ECDec. now rewrite H. Qed.

Lemma codec_round_trip `{PyRandom} (secret n k : Z) (g : rng)
    (shares S : list share) :
  1 <= n <= _PRIME -> 1 <= k <= n ->
  fst (ECEnc n k secret g) = Ok shares ->
  NoDup S -> incl S shares -> Z.of_nat (length S) = k ->
  ECDec n k S = Ok secret.
Proof.
  intros Hn Hk Henc Hnd Hincl Hlen.
  pose proof PRIME_gt_1 as HP.
  destruct (ECEnc_shares n k secret g shares Henc) as [Hsec Hshares].
  destruct (ECEnc_coeffs_spec k secret ltac:(lia)) as [Hclen Hc0].
  set (c := fst (ECEnc_coeffs k secret)) in *.
  rewrite ECDec_nonempty by (rewrite slice_to_all by lia; destruct S; [simpl in Hlen; lia | discriminate]).
  rewrite slice_to_all by lia.
  rewrite (lagrange_interpolate_spec _PRIME prime_PRIME)
    by (rewrite !length_map; lia).
  f_equal.
  rewrite (lagrange_sum_correct _PRIME prime_PRIME c).
  - rewrite Hc0. apply Z.mod_small. lia.
  - unfold distinct_mod. apply NoDup_map_mod.
    + apply (NoDup_map_fst_incl (fun i => peval c i mod _PRIME) S
               (range 1 (n + 1)) Hnd).
      rewrite <- Hshares. exact Hincl.
    + intros x Hx. apply in_map_iff in Hx. destruct Hx as [[x' y] [E Hin]].
      simpl in E. subst x'. apply Hincl in Hin. rewrite Hshares in Hin.
      apply in_map_iff in Hin. destruct Hin as [i [E Hi]].
      injection E as -> _. apply in_range in Hi. lia.
  - rewrite length_map. unfold share in *. lia.
  - intros i Hi. rewrite length_map in Hi.
    assert (Hin : In (nth i S (0, 0)) S) by (apply nth_In; exact Hi).
    apply Hincl in Hin. rewrite Hshares in Hin.
    apply in_map_iff in Hin. destruct Hin as [j [E _]].
    assert (E1 : nth i (map fst S) 0 = fst (nth i S (0, 0)))
      by exact (map_nth fst S (0, 0) i).
    assert (E2 : nth i (map snd S) 0 = snd (nth i S (0, 0)))
      by exact (map_nth snd S (0, 0) i).
    rewrite E1, E2, <- E. simpl. apply Z.mod_mod. lia.
Qed.

Lemma ECEnc_ok `{PyRandom} n k secret g :
  0 <= secret < _PRIME ->
  exists shares, fst (ECEnc n k secret g) = Ok shares
                 /\ length shares = Z.to_nat n.
Proof.
  intros Hs. unfold ECEnc.
  assert (E : (0 <=? secret) && (secret <? _PRIME) = true).
  { apply andb_true_iff. split; [apply Z.leb_le | apply Z.ltb_lt]; lia. }
  rewrite E. destruct (ECEnc_coeffs k secret) as [coeffs g'].
  eexists. split; [reflexivity|].
  unfold range. rewrite !length_map, length_seq. f_equal. lia.
Qed.

(** Claim C2. For every secret in [[0, _PRIME)], every [n >= 1] and every
    [k] with [1 <= k <= n], [ECEnc] returns [n] shares, and [ECDec] applied
    to any [k] distinct shares among them, in any order, returns the secret.
    [ECEnc] builds the list of its [n] shares, so a call returns only for
    [n] far below [_PRIME = 2^127 - 1]; the statement covers every such
    [n], and more: all [n <= _PRIME]. *)
Theorem codec_round_trip_bounded `{PyRandom} (secret n k : Z) (g : rng) :
  0 <= secret < _PRIME -> 1 <= n <= _PRIME -> 1 <= k <= n ->
  exists shares,
    fst (ECEnc n k secret g) = Ok shares
    /\ Z.of_nat (length shares) = n
    /\ forall S, NoDup S -> incl S shares -> Z.of_nat (length S) = k ->
                 ECDec n k S = Ok secret.
Proof.
  intros Hs Hn Hk.
  destruct (ECEnc_ok n k secret g Hs) as [shares [Henc Hlen]].
  exists shares. split; [exact Henc|]. split; [lia|].
  intros S Hnd Hincl HlenS.
  exact (codec_round_trip secret n k g shares S Hn Hk Henc Hnd Hincl HlenS).
Qed.

Lemma in_bounds_vm a b c : (a <=? b) && (b <=? c) = true -> a <= b <= c.
Proof.
  intros H. apply andb_true_iff in H. destruct H as [H1 H2].
  apply Z.leb_le in H1, H2. lia.
Qed.

Lemma codec_round_trip_witness :
  exists shares,
    fst (@ECEnc constant_rng 4 2 2025 tt) = Ok shares
    /\ Z.of_nat (length shares) = 4
    /\ forall S, NoDup S -> incl S shares -> Z.of_nat (length S) = 2 ->
                 ECDec 4 2 S = Ok 2025.
Proof.
  apply (@codec_round_trip_bounded constant_rng 2025 4 2 tt).
  - split; [lia | reflexivity].
  - apply in_bounds_vm. vm_compute. reflexivity.
  - lia.
Defined.

Lemma colliding_sum_vanishes (P e a b c d : Z) :
  0 < e -> P <> 0 ->
  (a * b * (- P) ^ e + (c * d * P ^ e + 0)) mod P = 0.
Proof.
  intros He HP.
  replace e with (Z.succ (e - 1)) by lia.
  rewrite !Z.pow_succ_r by lia.
  replace (a * b * (- P * (- P) ^ (e - 1)) + (c * d * (P * P ^ (e - 1)) + 0))
    with ((c * d * P ^ (e - 1) - a * b * (- P) ^ (e - 1)) * P) by ring.
  apply Z.mod_mul. exact HP.
Qed.

(** Two shares whose coordinates agree modulo [_PRIME] decode to 0,
    whatever their values. *)
Lemma decode_colliding_coordinates (n k y1 y2 : Z) :
  2 <= k -> ECDec n k [(1, y1); (_PRIME + 1, y2)] = Ok 0.
Proof.
  intros Hk. pose proof PRIME_gt_1 as HP.
  assert (Hs : @slice_to share [(1, y1); (_PRIME + 1, y2)] k
               = [(1, y1); (_PRIME + 1, y2)])
    by (apply slice_to_all; cbn [length]; lia).
  rewrite ECDec_nonempty; rewrite Hs; [|discriminate].
  rewrite (lagrange_interpolate_spec _PRIME prime_PRIME) by reflexivity.
  f_equal.
  unfold lagrange_sum, lag_term, lag_den, remove_nth.
  cbn [length seq map zsum fold_right nth firstn skipn app prod_diff fst snd].
  replace ((1 - (_PRIME + 1)) * 1) with (- _PRIME) by ring.
  replace ((_PRIME + 1 - 1) * 1) with _PRIME by ring.
  assert (H3 : 3 <= _PRIME) by (vm_compute; discriminate).
  apply colliding_sum_vanishes; lia.
Qed.

(** [ECDec] returns a field element for a single share under threshold 2,
    for two shares with the same coordinate, and for two shares under
    threshold 3. *)
Lemma decode_accepts_short_and_repeated :
  ECDec 4 2 [(2, 2031)] = Ok 2031
  /\ ECDec 4 2 [(2, 2031); (2, 2037)] = Ok 0
  /\ ECDec 4 3 [(2, 2031); (4, 2037)] = Ok 2025.
Proof. vm_compute. repeat split. Qed.

(** Claim C4, amended. [ECDec] validates nothing: it raises [ValueError]
    when the slice [shares[:k]] is empty and only then; for any other
    input, whether fewer than [k] shares or shares with equal coordinates,
    it returns the interpolation sum over the slice reduced modulo
    [_PRIME], a field element. *)
Theorem decode_rejects_only_empty n k shares :
  (slice_to shares k = [] /\ ECDec n k shares = Raise ValueError)
  \/ (slice_to shares k <> []
      /\ exists v, ECDec n k shares = Ok v /\ 0 <= v < _PRIME
         /\ v = lagrange_sum _PRIME 0 (map fst (slice_to shares k))
                             (map snd (slice_to shares k)) mod _PRIME).
Proof.
  pose proof PRIME_gt_1 as HP.
  destruct (slice_to shares k) as [|s sl] eqn:E.
  - left. split; [reflexivity | now apply ECDec_empty].
  - right. split; [discriminate|].
    rewrite ECDec_nonempty by (rewrite E; discriminate). rewrite E.
    rewrite (lagrange_interpolate_spec _PRIME prime_PRIME)
      by (rewrite !length_map; lia).
    eexists. split; [reflexivity|]. split; [|reflexivity].
    apply Z.mod_pos_bound. lia.
Qed.

(** Claim C9. [ECDec] uses the first [k] shares of its list and nothing
    else: for every [n], every number [k >= 0] of shares and every share
    list, of any length, [ECDec] applied to the list equals [ECDec] applied
    to its first [k] shares. *)
Theorem decode_uses_first_k n k shares :
  0 <= k -> ECDec n k shares = ECDec n k (slice_to shares k).
Proof.
  intros Hk. unfold ECDec. now rewrite slice_to_idem.
Qed.

Lemma decode_uses_first_k_witness :
  ECDec 4 2 [(2, 2031); (4, 2037); (1, 0)]
  = ECDec 4 2 (slice_to [(2, 2031); (4, 2037); (1, 0)] 2).
Proof. apply decode_uses_first_k. lia. Defined.

Lemma index_some_nonempty {A} (l : list A) i x : index l i = Some x -> l <> [].
Proof.
  intros H ->. unfold index in H. simpl in H.
  destruct (0 <=? i); [destruct (Z.to_nat i); discriminate|].
  destruct (0 <=? 0 + i); [destruct (Z.to_nat (0 + i)); discriminate | discriminate].
Qed.

(** * The node orchestrator *)

(** Claim C5, amended. When the coordinate of an incoming share differs from
    the coordinate of the node's own share for that sender, [_process_share]
    raises [AssertionError] and leaves the process as it was: no vote is
    recorded and no ABBA receives an input. [on_rbc_delivery] raises the
    same error to its caller after storing the share in [rbc_shares]. *)
Theorem share_coordinate_mismatch_raises `{PyRandom}
    (w : world) (self sender : Z) (sh own : share) (o : node) :
  PyDict.get (NODES w) self = Some o ->
  index (OciorABAStarNode._shares o) (sender - 1) = Some own ->
  fst own <> fst sh ->
  _process_share self sender sh w = (Raise AssertionError, w)
  /\ on_rbc_delivery self sender sh w =
     (Raise AssertionError,
      mkWorld (PyDict.set (NODES w) self
                 (OciorABAStarNode.set_rbc_shares o
                    (PyDict.set (OciorABAStarNode.rbc_shares o) sender sh)))
              (random w)).
Proof.
  intros Hget Hidx Hne.
  assert (Hps : forall w' o',
             PyDict.get (NODES w') self = Some o' ->
             OciorABAStarNode._shares o' = OciorABAStarNode._shares o ->
             _process_share self sender sh w' = (Raise AssertionError, w')).
  { intros w' o' Hget' Hsh.
    unfold _process_share, bind, get_node. rewrite Hget'.
    destruct sh as [x_j y_jj]. rewrite Hsh, Hidx.
    destruct own as [x_i_j y_i_j]. simpl in Hne.
    apply Z.eqb_neq in Hne. rewrite Hne. reflexivity. }
  split; [now apply (Hps w o)|].
  unfold on_rbc_delivery, bind, update_node, get_node. rewrite Hget.
  cbn [NODES random]. rewrite dict_get_set_same.
  cbn [OciorABAStarNode._shares OciorABAStarNode.set_rbc_shares].
  destruct (OciorABAStarNode._shares o) as [|s0 r] eqn:Es.
  - exfalso. eapply index_some_nonempty; eauto.
  - apply (Hps _ (OciorABAStarNode.set_rbc_shares o
                    (PyDict.set (OciorABAStarNode.rbc_shares o) sender sh))).
    + cbn [NODES]. apply dict_get_set_same.
    + cbn [OciorABAStarNode._shares OciorABAStarNode.set_rbc_shares]. now rewrite Es.
Qed.

Lemma share_coordinate_mismatch_witness :
  @_process_share constant_rng 1 2 (9, 5) (@two_nodes_one_proposal constant_rng tt)
  = (Raise AssertionError, @two_nodes_one_proposal constant_rng tt)
  /\ fst (@on_rbc_delivery constant_rng 1 2 (9, 5)
            (@two_nodes_one_proposal constant_rng tt)) = Raise AssertionError.
Proof.
  destruct (@share_coordinate_mismatch_raises constant_rng
              (@two_nodes_one_proposal constant_rng tt) 1 2 (9, 5) (2, 5)
              node_1_after_proposal)
    as [H1 H2].
  - vm_compute. reflexivity.
  - reflexivity.
  - simpl. lia.
  - split; [exact H1 | rewrite H2; reflexivity].
Defined.

(** A share [(9, 5)] delivered to node 1 in the name of sender 2, whose
    expected coordinate is 2: the delivery raises, node 1 records no vote
    for sender 2 and its ABBA for sender 2 has no input. *)
Lemma share_coordinate_mismatch_is_an_error :
  let w := @two_nodes_one_proposal constant_rng tt in
  let r := @on_rbc_delivery constant_rng 1 2 (9, 5) w in
  node_field (fun o => index (OciorABAStarNode._shares o) (2 - 1)) w 1
    = Some (Some (2, 5))
  /\ fst r = Raise AssertionError
  /\ node_field (fun o => PyDict.get (OciorABAStarNode.vi o) 2) (snd r) 1
     = Some (Some None)
  /\ node_field (fun o => option_map ABBA.inputs
                            (PyDict.get (OciorABAStarNode.abba o) 2)) (snd r) 1
     = Some (Some []).
Proof. vm_compute. repeat split. Qed.

(** What [_finalize] stores when enough ABBAs decided 1 and the selected
    proposers' shares were all received: the decoding of the node's own
    shares at the selected indices. *)
Lemma finalize_completes `{PyRandom} (w : world) (self : Z) (o : node)
    (shares : list share) (v : Z) :
  PyDict.get (NODES w) self = Some o ->
  OciorABAStarNode.t o + 1 <= Z.of_nat (length (Aones o)) ->
  missing o = [] ->
  own_shares_at o (Bones o) = Some shares ->
  ECDec (OciorABAStarNode.n o) (OciorABAStarNode.t o + 1) shares = Ok v ->
  _finalize self w =
  (Ok tt,
   mkWorld (PyDict.set (NODES w) self
              (OciorABAStarNode.set_protocol_complete
                 (OciorABAStarNode.set_final_decision o (Some v)) true))
           (random w)).
Proof.
  intros Hget HA Hmiss Hown Hdec.
  unfold _finalize, bind, get_node. rewrite Hget.
  destruct (Z.of_nat (length (Aones o)) <? OciorABAStarNode.t o + 1) eqn:E;
    [apply Z.ltb_lt in E; lia|].
  rewrite Hmiss, Hown, Hdec.
  unfold update_node. rewrite Hget. reflexivity.
Qed.

(** Claim C1. Two honest nodes with [n = 2] and [t = 0] propose 5 and 7.
    At node 2 every ABBA has decided 1, so [|A| >= t + 1], the selection is
    [Bones = [1]] and the share [(1, 5)] broadcast by node 1 is recorded.
    [Decode] of the received share gives 5, but the node is complete with
    the final value 7, the decoding of its own share [(1, 7)]; running
    [_finalize] on this state stores 7 again. *)
Theorem finalize_decodes_own_shares `{PyRandom} (g : rng) :
  let w := snd (run two_proposals (start g)) in
  fst (run two_proposals (start g)) = Ok tt
  /\ node_field OciorABAStarNode.abba_out w 2 = Some [(2, 1); (1, 1)]
  /\ node_field
       (fun o => OciorABAStarNode.t o + 1 <=? Z.of_nat (length (Aones o))) w 2
     = Some true
  /\ node_field Bones w 2 = Some [1]
  /\ node_field missing w 2 = Some []
  /\ node_field OciorABAStarNode.rbc_shares w 2 = Some [(1, (1, 5)); (2, (2, 7))]
  /\ node_field OciorABAStarNode._shares w 2 = Some [(1, 7); (2, 7)]
  /\ node_field decode_received w 2 = Some (Some (Ok 5))
  /\ node_field decode_own w 2 = Some (Some (Ok 7))
  /\ node_field OciorABAStarNode.protocol_complete w 2 = Some true
  /\ node_field OciorABAStarNode.final_decision w 2 = Some (Some 7)
  /\ fst (_finalize 2 w) = Ok tt
  /\ node_field OciorABAStarNode.final_decision (snd (_finalize 2 w)) 2
     = Some (Some 7).
Proof. vm_compute. repeat split. Qed.

(** Claim C3. In the state reached when two honest nodes with [n = 2] and
    [t = 0] have proposed 5 and 7 and the driver has polled node 1, both
    nodes are complete with final values other than the failure sentinel,
    and the values differ: 5 at node 1 and 7 at node 2. *)
Theorem honest_nodes_disagree `{PyRandom} (g : rng) :
  let w := snd (run (two_proposals ++ [Poll 1]) (start g)) in
  reachable w
  /\ node_field OciorABAStarNode.is_byzantine w 1 = Some false
  /\ node_field OciorABAStarNode.is_byzantine w 2 = Some false
  /\ node_field OciorABAStarNode.protocol_complete w 1 = Some true
  /\ node_field OciorABAStarNode.protocol_complete w 2 = Some true
  /\ node_field OciorABAStarNode.final_decision w 1 = Some (Some 5)
  /\ node_field OciorABAStarNode.final_decision w 2 = Some (Some 7).
Proof.
  split.
  - exists g, (two_proposals ++ [Poll 1]).
    vm_compute. reflexivity.
  - vm_compute. repeat split.
Qed.

(** * Keys of a dictionary *)

Lemma dict_keys_set {V} (d : dict V) k v :
  PyDict.keys (PyDict.set d k v) = PyDict.keys d
  \/ (PyDict.get d k = None /\ PyDict.keys (PyDict.set d k v) = PyDict.keys d ++ [k]).
Proof.
  unfold PyDict.keys.
  induction d as [|[k' v'] d IH]; simpl.
  - right. split; reflexivity.
  - destruct (k =? k') eqn:E.
    + left. apply Z.eqb_eq in E. subst. reflexivity.
    + destruct IH as [IH|[IH1 IH2]].
      * left. simpl. now rewrite IH.
      * right. split; [exact IH1|]. simpl. now rewrite IH2.
Qed.

Lemma dict_get_none_keys {V} (d : dict V) k :
  PyDict.get d k = None -> ~ In k (PyDict.keys d).
Proof.
  induction d as [|[k' v'] d IH]; simpl; intros Hg Hin; [exact Hin|].
  destruct (k =? k') eqn:E; [discriminate|]. apply Z.eqb_neq in E.
  destruct Hin as [->|Hin]; [now apply E | now apply IH].
Qed.

Lemma dict_get_some_keys {V} (d : dict V) k v :
  PyDict.get d k = Some v -> In k (PyDict.keys d).
Proof.
  induction d as [|[k' v'] d IH]; simpl; intros Hg; [discriminate|].
  destruct (k =? k') eqn:E.
  - apply Z.eqb_eq in E. now left.
  - right. now apply IH.
Qed.

Lemma dict_keys_set_in {V} (d : dict V) k v j :
  In j (PyDict.keys (PyDict.set d k v)) -> In j (PyDict.keys d) \/ j = k.
Proof.
  destruct (dict_keys_set d k v) as [->|[_ ->]]; [now left|].
  intros Hin. apply in_app_or in Hin. destruct Hin as [Hin|[<-|[]]]; auto.
Qed.

Lemma dict_keys_set_nodup {V} (d : dict V) k v :
  NoDup (PyDict.keys d) -> NoDup (PyDict.keys (PyDict.set d k v)).
Proof.
  intros Hnd. destruct (dict_keys_set d k v) as [->|[Hg ->]]; [exact Hnd|].
  apply NoDup_app; [exact Hnd | repeat constructor; intros [] |].
  intros x Hx [<-|[]]. revert Hx. now apply dict_get_none_keys.
Qed.

(** * Sorting *)

Lemma insert_sorted_perm x l : Permutation.Permutation (insert_sorted x l) (x :: l).
Proof.
  induction l as [|y l IH]; simpl; [apply Permutation.Permutation_refl|].
  destruct (x <=? y); [apply Permutation.Permutation_refl|].
  eapply Permutation.perm_trans; [apply Permutation.perm_skip; exact IH|].
  apply Permutation.perm_swap.
Qed.

Lemma sorted_perm l : Permutation.Permutation (sorted l) l.
Proof.
  induction l as [|x l IH]; simpl; [constructor|].
  eapply Permutation.perm_trans; [apply insert_sorted_perm|].
  now apply Permutation.perm_skip.
Qed.

Lemma NoDup_firstn {A} (k : nat) (l : list A) : NoDup l -> NoDup (firstn k l).
Proof.
  intros Hnd. rewrite <- (firstn_skipn k l) in Hnd.
  now apply NoDup_app_remove_r in Hnd.
Qed.

Lemma in_firstn {A} (k : nat) (l : list A) x : In x (firstn k l) -> In x l.
Proof.
  intros Hin. rewrite <- (firstn_skipn k l). apply in_or_app. now left.
Qed.

Lemma NoDup_map_fst_filter {A B} (f : A * B -> bool) (l : list (A * B)) :
  NoDup (map fst l) -> NoDup (map fst (filter f l)).
Proof.
  induction l as [|a l IH]; simpl; intros Hnd; [constructor|].
  inversion Hnd as [|? ? Hnotin Hnd']; subst.
  destruct (f a); simpl; [|now apply IH].
  constructor; [|now apply IH].
  intros Hin. apply Hnotin. apply in_map_iff in Hin.
  destruct Hin as [b [E Hb]]. apply filter_In in Hb. destruct Hb as [Hb _].
  rewrite <- E. now apply in_map.
Qed.

Lemma in_map_fst_filter {A B} (f : A * B -> bool) (l : list (A * B)) x :
  In x (map fst (filter f l)) -> In x (map fst l).
Proof.
  intros Hin. apply in_map_iff in Hin. destruct Hin as [b [E Hb]].
  apply filter_In in Hb. destruct Hb as [Hb _]. rewrite <- E. now apply in_map.
Qed.

(** * The value stored by [_finalize] *)

Lemma index_map_range {A} (f : Z -> A) (n j : Z) (x : A) :
  1 <= j -> index (map f (range 1 (n + 1))) (j - 1) = Some x ->
  x = f j /\ j <= n.
Proof.
  intros Hj. unfold index, range.
  destruct (0 <=? j - 1) eqn:E; [|apply Z.leb_gt in E; lia].
  rewrite map_map. set (g := fun i : nat => f (1 + Z.of_nat i)). intros Hn.
  assert (Hlt : (Z.to_nat (j - 1) < Z.to_nat (n + 1 - 1))%nat).
  { assert (L : length (map g (seq 0 (Z.to_nat (n + 1 - 1))))
                 = Z.to_nat (n + 1 - 1))
      by (rewrite length_map; apply length_seq).
    rewrite <- L. apply nth_error_Some. now rewrite Hn. }
  rewrite (nth_error_nth' _ (g 0%nat)) in Hn
    by (rewrite length_map, length_seq; exact Hlt).
  injection Hn as <-.
  rewrite (map_nth g _ 0%nat).
  rewrite seq_nth by exact Hlt. unfold g. split; [f_equal; lia | lia].
Qed.

Lemma own_shares_at_encoded (o : node) (F : Z -> Z) (n : Z) :
  OciorABAStarNode._shares o = map (fun i => (i, F i)) (range 1 (n + 1)) ->
  forall js shares,
    (forall j, In j js -> 1 <= j) ->
    own_shares_at o js = Some shares ->
    shares = map (fun i => (i, F i)) js /\ (forall j, In j js -> j <= n).
Proof.
  intros Hsh. induction js as [|j js IH]; intros shares Hpos Hown; simpl in Hown.
  - inversion Hown; subst. split; [reflexivity | intros j []].
  - destruct (index (OciorABAStarNode._shares o) (j - 1))
      as [sh|] eqn:Ei; [|discriminate].
    rewrite Hsh in Ei.
    destruct (own_shares_at o js) as [l|] eqn:El; [|discriminate].
    inversion Hown; subst shares.
    destruct (index_map_range _ n j sh (Hpos j (or_introl eq_refl)) Ei) as [-> Hle].
    destruct (IH l (fun x Hx => Hpos x (or_intror Hx)) eq_refl) as [-> Hall].
    split; [reflexivity|]. intros x [<-|Hx]; auto.
Qed.

Lemma Bones_selected (o : node) :
  NoDup (PyDict.keys (OciorABAStarNode.abba_out o)) ->
  (forall j, In j (PyDict.keys (OciorABAStarNode.abba_out o)) -> 1 <= j) ->
  0 <= OciorABAStarNode.t o ->
  OciorABAStarNode.t o + 1 <= Z.of_nat (length (Aones o)) ->
  NoDup (Bones o) /\ (forall j, In j (Bones o) -> 1 <= j)
  /\ Z.of_nat (length (Bones o)) = OciorABAStarNode.t o + 1.
Proof.
  intros Hnd Hpos Ht HA.
  assert (HndA : NoDup (Aones o)) by (apply NoDup_map_fst_filter; exact Hnd).
  assert (Hperm := sorted_perm (Aones o)).
  unfold Bones, slice_to.
  destruct (0 <=? OciorABAStarNode.t o + 1) eqn:E; [|apply Z.leb_gt in E; lia].
  split; [|split].
  - apply NoDup_firstn.
    eapply Permutation.Permutation_NoDup;
      [apply Permutation.Permutation_sym; exact Hperm | exact HndA].
  - intros j Hj. apply in_firstn in Hj.
    apply (Permutation.Permutation_in _ Hperm) in Hj.
    apply Hpos. unfold Aones in Hj. now apply in_map_fst_filter in Hj.
  - rewrite length_firstn, (Permutation.Permutation_length Hperm). lia.
Qed.

Lemma NoDup_map_graph {A B} (f : A -> B) (l : list A) :
  NoDup l -> NoDup (map (fun i => (i, f i)) l).
Proof.
  induction 1 as [|a l Hnotin Hnd IH]; simpl; constructor; [|exact IH].
  intros Hin. apply in_map_iff in Hin. destruct Hin as [b [E Hb]].
  injection E as -> _. contradiction.
Qed.

Lemma finalize_value `{PyRandom} (s : Z) (o : node) (shares : list share) (v : Z) :
  NoDup (PyDict.keys (OciorABAStarNode.abba_out o)) ->
  (forall j, In j (PyDict.keys (OciorABAStarNode.abba_out o)) -> 1 <= j) ->
  (OciorABAStarNode._shares o = []
   \/ exists g, fst (ECEnc (OciorABAStarNode.n o) (OciorABAStarNode.t o + 1) s g)
                = Ok (OciorABAStarNode._shares o)) ->
  0 <= OciorABAStarNode.t o -> OciorABAStarNode.n o <= _PRIME ->
  OciorABAStarNode.t o + 1 <= Z.of_nat (length (Aones o)) ->
  own_shares_at o (Bones o) = Some shares ->
  ECDec (OciorABAStarNode.n o) (OciorABAStarNode.t o + 1) shares = Ok v ->
  v = s.
Proof.
  intros Hnd Hpos Henc Ht Hn HA Hown Hdec.
  destruct (Bones_selected o Hnd Hpos Ht HA) as [HndB [HposB HlenB]].
  destruct Henc as [Hempty|[g Henc]].
  { exfalso. destruct (Bones o) as [|j js]; [simpl in HlenB; lia|].
    simpl in Hown. rewrite Hempty in Hown.
    unfold index in Hown. simpl in Hown.
    destruct (0 <=? j - 1); [destruct (Z.to_nat (j - 1)); discriminate|].
    destruct (0 <=? 0 + (j - 1)); [destruct (Z.to_nat (0 + (j - 1))); discriminate
                                  | discriminate]. }
  destruct (ECEnc_shares _ _ _ _ _ Henc) as [_ Hshares].
  set (F := fun i => peval (fst (ECEnc_coeffs (OciorABAStarNode.t o + 1) s)) i
                     mod _PRIME) in *.
  destruct (own_shares_at_encoded o F _ Hshares _ _ HposB Hown) as [-> Hle].
  assert (Hincl : incl (Bones o) (range 1 (OciorABAStarNode.n o + 1))).
  { intros j Hj. apply in_range. specialize (HposB j Hj). specialize (Hle j Hj). lia. }
  assert (Hk : OciorABAStarNode.t o + 1 <= OciorABAStarNode.n o).
  { pose proof (NoDup_incl_length HndB Hincl) as L.
    unfold range in L. rewrite length_map, length_seq in L. lia. }
  assert (E : ECDec (OciorABAStarNode.n o) (OciorABAStarNode.t o + 1)
                (map (fun i => (i, F i)) (Bones o)) = Ok s).
  { apply (codec_round_trip s _ _ g (OciorABAStarNode._shares o)); try lia.
    - exact Henc.
    - apply NoDup_map_graph. exact HndB.
    - rewrite Hshares. intros x Hx. apply in_map_iff in Hx.
      destruct Hx as [j [<- Hj]].
      apply (in_map (fun i => (i, F i)) _ j). now apply Hincl.
    - rewrite length_map. exact HlenB. }
  rewrite E in Hdec. now injection Hdec.
Qed.

(** * Honest nodes that propose one secret *)

Section CommonSecret.
Context `{PyRandom}.
Variable s : Z.

Lemma keeps_ret {A} (a : A) : keeps s (ret a).
Proof. intros w Hw. exact Hw. Qed.

Lemma keeps_raise {A} (e : exn) : keeps s (@raise _ A e).
Proof. intros w Hw. exact Hw. Qed.

Lemma keeps_bind {A B} (m : M A) (f : A -> M B) (Q : A -> Prop) :
  keeps s m -> yields s m Q -> (forall a, Q a -> keeps s (f a)) -> keeps s (bind m f).
Proof.
  intros Hm Hy Hf w Hw. unfold bind.
  specialize (Hm w Hw). specialize (Hy w).
  destruct (m w) as [[a|e] w']; simpl in *; [|exact Hm].
  apply Hf; [apply Hy; [exact Hw | reflexivity] | exact Hm].
Qed.

Lemma keeps_seq {A B} (m : M A) (f : A -> M B) :
  keeps s m -> (forall a, keeps s (f a)) -> keeps s (bind m f).
Proof.
  intros Hm Hf. apply (keeps_bind m f (fun _ => True)); auto.
  intros w a _ _. exact I.
Qed.

Lemma keeps_for_each {A} (l : list A) (body : A -> M unit) :
  (forall a, In a l -> keeps s (body a)) -> keeps s (for_each l body).
Proof.
  induction l as [|a l IH]; intros Hb; simpl.
  - apply keeps_ret.
  - apply keeps_seq; [apply Hb; now left|].
    intros _. apply IH. intros b Hin. apply Hb. now right.
Qed.

Lemma keeps_get_node i : keeps s (get_node i).
Proof.
  intros w Hw. unfold get_node. destruct (PyDict.get (NODES w) i); exact Hw.
Qed.

Lemma yields_get_node i : yields s (get_node i) (node_ok s).
Proof.
  intros w o Hw. unfold get_node.
  destruct (PyDict.get (NODES w) i) as [o'|] eqn:E; simpl; [|discriminate].
  intros Heq. injection Heq as <-. exact (Hw i o' E).
Qed.

Lemma keeps_node_ids : keeps s node_ids.
Proof. intros w Hw. exact Hw. Qed.

Lemma world_ok_set w i o g :
  world_ok s w -> node_ok s o -> world_ok s (mkWorld (PyDict.set (NODES w) i o) g).
Proof.
  intros Hw Ho j o' Hget. simpl in Hget.
  destruct (Z.eq_dec j i) as [->|Hne].
  - rewrite dict_get_set_same in Hget. injection Hget as <-. exact Ho.
  - rewrite dict_get_set_other in Hget by exact Hne. exact (Hw j o' Hget).
Qed.

Lemma keeps_update_node i (f : node -> node) :
  (forall o, node_ok s o -> node_ok s (f o)) -> keeps s (update_node i f).
Proof.
  intros Hf w Hw. unfold update_node.
  destruct (PyDict.get (NODES w) i) as [o|] eqn:E; simpl; [|exact Hw].
  apply world_ok_set; [exact Hw | apply Hf; exact (Hw i o E)].
Qed.

Lemma keeps_random_choice l : keeps s (random_choice l).
Proof.
  intros w Hw. unfold random_choice.
  destruct (rng_choice l (random w)) as [v g]. exact Hw.
Qed.

Lemma keeps_ECEnc_M n k secret : keeps s (ECEnc_M n k secret).
Proof.
  intros w Hw. unfold ECEnc_M.
  destruct (ECEnc n k secret (random w)) as [r g]. exact Hw.
Qed.

(** ** Updates of a node *)

Lemma node_ok_set_vi o x : node_ok s o -> node_ok s (OciorABAStarNode.set_vi o x).
Proof. intros [H1 H2 H3 H4 H5]. split; assumption. Qed.

Lemma node_ok_set_pending o x :
  node_ok s o -> node_ok s (OciorABAStarNode.set_pending_shares o x).
Proof. intros [H1 H2 H3 H4 H5]. split; assumption. Qed.

Lemma node_ok_set_rbc o x :
  node_ok s o -> node_ok s (OciorABAStarNode.set_rbc_shares o x).
Proof. intros [H1 H2 H3 H4 H5]. split; assumption. Qed.

Lemma node_ok_set_complete o x :
  node_ok s o -> node_ok s (OciorABAStarNode.set_protocol_complete o x).
Proof. intros [H1 H2 H3 H4 H5]. split; assumption. Qed.

Lemma node_ok_set_abba o j x :
  1 <= j -> node_ok s o ->
  node_ok s (OciorABAStarNode.set_abba o
             (PyDict.set (OciorABAStarNode.abba o) j x)).
Proof.
  intros Hj [H1 H2 H3 H4 H5]. split; try assumption.
  simpl. intros k Hk. apply dict_keys_set_in in Hk.
  destruct Hk as [Hk| ->]; [now apply H1 | exact Hj].
Qed.

Lemma node_ok_set_abba_out o j x :
  1 <= j -> node_ok s o ->
  node_ok s (OciorABAStarNode.set_abba_out o
             (PyDict.set (OciorABAStarNode.abba_out o) j x)).
Proof.
  intros Hj [H1 H2 H3 H4 H5]. split; try assumption; simpl.
  - intros k Hk. apply dict_keys_set_in in Hk.
    destruct Hk as [Hk| ->]; [now apply H2 | exact Hj].
  - now apply dict_keys_set_nodup.
Qed.

Lemma node_ok_set_final_none o :
  node_ok s o -> node_ok s (OciorABAStarNode.set_final_decision o None).
Proof. intros [H1 H2 H3 H4 H5]. split; try assumption. simpl. now left. Qed.

Lemma node_ok_new node_id n t b : node_ok s (OciorABAStarNode.new node_id n t b).
Proof.
  split; simpl.
  - intros j Hj. unfold PyDict.keys in Hj. rewrite map_map in Hj. simpl in Hj.
    rewrite map_id in Hj. apply in_range in Hj. lia.
  - intros j [].
  - constructor.
  - intros _. now left.
  - intros _ _ _. now left.
Qed.

(** ** The methods *)

Lemma keeps_abba_input i j sender v : keeps s (abba_input i j sender v).
Proof.
  unfold abba_input. apply (keeps_bind _ _ (node_ok s)).
  - apply keeps_get_node.
  - apply yields_get_node.
  - intros o Ho.
    destruct (PyDict.get (OciorABAStarNode.abba o) j) as [ab|] eqn:E;
      [|apply keeps_raise].
    apply keeps_update_node. intros o' Ho'. apply node_ok_set_abba; [|exact Ho'].
    apply (ok_abba_keys s o Ho). eapply dict_get_some_keys. exact E.
Qed.

Lemma keeps__finalize self : keeps s (_finalize self).
Proof.
  intros w Hw. unfold _finalize, bind, get_node, update_node.
  destruct (PyDict.get (NODES w) self) as [o|] eqn:Hget; [|exact Hw].
  pose proof (Hw self o Hget) as Ho.
  destruct (Z.of_nat (length (Aones o)) <? OciorABAStarNode.t o + 1) eqn:EA.
  { rewrite Hget. simpl. apply world_ok_set; [exact Hw|].
    apply node_ok_set_complete. now apply node_ok_set_final_none. }
  apply Z.ltb_ge in EA.
  destruct (missing o) as [|m ms].
  2:{ rewrite Hget. simpl. apply world_ok_set; [exact Hw|].
      now apply node_ok_set_complete. }
  destruct (own_shares_at o (Bones o)) as [shares|] eqn:Hown; [|exact Hw].
  destruct (ECDec (OciorABAStarNode.n o) (OciorABAStarNode.t o + 1) shares)
    as [recovered|e] eqn:Hdec; [|exact Hw].
  rewrite Hget. simpl. apply world_ok_set; [exact Hw|].
  apply node_ok_set_complete.
  destruct Ho as [H1 H2 H3 H4 H5]. split; try assumption. simpl.
  intros Hb Ht Hn. right. f_equal.
  exact (finalize_value s o shares recovered H3 H2 (H4 Hb) Ht Hn EA Hown Hdec).
Qed.

Lemma keeps__inject_default_votes self : keeps s (_inject_default_votes self).
Proof.
  unfold _inject_default_votes. apply keeps_seq; [apply keeps_get_node|].
  intros o. destruct (PyDict.len (OciorABAStarNode.abba_out o) >? 0);
    [|apply keeps_ret].
  apply keeps_for_each. intros j _.
  apply keeps_seq; [apply keeps_get_node|]. intros o'.
  destruct (PyDict.contains (OciorABAStarNode.abba_out o') j);
    [apply keeps_ret | apply keeps_abba_input].
Qed.

Lemma keeps__process_abba self : keeps s (_process_abba self).
Proof.
  unfold _process_abba. apply (keeps_bind _ _ (node_ok s)).
  - apply keeps_get_node.
  - apply yields_get_node.
  - intros o Ho. apply keeps_seq.
    + apply keeps_for_each. intros jab Hin.
      apply keeps_seq; [apply keeps_get_node|]. intros o'.
      destruct (negb (PyDict.contains (OciorABAStarNode.abba_out o') (fst jab))
                && ABBA.has_output (snd jab)); [|apply keeps_ret].
      destruct (ABBA.get_output (snd jab)) as [v|]; [|apply keeps_ret].
      apply keeps_update_node. intros o2 Ho2.
      apply node_ok_set_abba_out; [|exact Ho2].
      apply (ok_abba_keys s o Ho). unfold PyDict.keys, PyDict.items in *.
      now apply in_map.
    + intros _. apply keeps_seq; [apply keeps__inject_default_votes|].
      intros _. apply keeps_seq; [apply keeps_get_node|]. intros o'.
      destruct (PyDict.len (OciorABAStarNode.abba_out o') =? OciorABAStarNode.n o');
        [apply keeps__finalize | apply keeps_ret].
Qed.

Lemma keeps__process_share self sender sh : keeps s (_process_share self sender sh).
Proof.
  unfold _process_share. apply keeps_seq; [apply keeps_get_node|].
  intros o. destruct sh as [x_j y_jj].
  destruct (index (OciorABAStarNode._shares o) (sender - 1)) as [[x_i_j y_i_j]|];
    [|apply keeps_raise].
  destruct (negb (x_i_j =? x_j)); [apply keeps_raise|].
  apply keeps_seq.
  { destruct (OciorABAStarNode.is_byzantine o);
      [apply keeps_random_choice | apply keeps_ret]. }
  intros vote. apply keeps_seq.
  { apply keeps_update_node. intros o'. apply node_ok_set_vi. }
  intros _. apply keeps_seq; [apply keeps_node_ids|].
  intros ids. apply keeps_seq.
  { apply keeps_for_each. intros i _. apply keeps_abba_input. }
  intros _. apply keeps__process_abba.
Qed.

Lemma keeps_on_rbc_delivery self sender sh : keeps s (on_rbc_delivery self sender sh).
Proof.
  unfold on_rbc_delivery. apply keeps_seq.
  { apply keeps_update_node. intros o'. apply node_ok_set_rbc. }
  intros _. apply keeps_seq; [apply keeps_get_node|]. intros o.
  destruct (OciorABAStarNode._shares o).
  - apply keeps_update_node. intros o'. apply node_ok_set_pending.
  - apply keeps__process_share.
Qed.

Lemma keeps_broadcast owner sh : keeps s (broadcast owner sh).
Proof.
  unfold broadcast. apply keeps_seq; [apply keeps_node_ids|].
  intros ids. apply keeps_for_each. intros i _. apply keeps_on_rbc_delivery.
Qed.

Lemma keeps_propose self : keeps s (propose self s).
Proof.
  intros w Hw. unfold propose. unfold bind at 1. unfold get_node at 1.
  destruct (PyDict.get (NODES w) self) as [o|] eqn:Hget; [|exact Hw].
  pose proof (Hw self o Hget) as Ho.
  unfold bind at 1.
  set (enc := if OciorABAStarNode.is_byzantine o then _ else _).
  assert (Hspec : exists r g',
             enc w = (r, mkWorld (NODES w) g')
             /\ (OciorABAStarNode.is_byzantine o = false ->
                 r = fst (ECEnc (OciorABAStarNode.n o)
                            (OciorABAStarNode.t o + 1) s (random w)))).
  { subst enc. unfold ECEnc_M.
    destruct (OciorABAStarNode.is_byzantine o).
    - destruct (ECEnc _ _ _ (random w)) as [r g'].
      exists r, g'. split; [reflexivity | discriminate].
    - destruct (ECEnc _ _ s (random w)) as [r g'].
      exists r, g'. split; [reflexivity | intros _; reflexivity]. }
  destruct Hspec as [r [g' [Eenc Hr]]]. rewrite Eenc. clearbody enc.
  assert (Hw1 : world_ok s (mkWorld (NODES w) g'))
    by (intros j o' Hj; exact (Hw j o' Hj)).
  destruct r as [shares|e]; [|exact Hw1].
  assert (Henc : OciorABAStarNode.is_byzantine o = false ->
                 exists g, fst (ECEnc (OciorABAStarNode.n o)
                                  (OciorABAStarNode.t o + 1) s g) = Ok shares).
  { intros Hb. exists (random w). symmetry. exact (Hr Hb). }
  unfold bind at 1. unfold update_node at 1. cbn [NODES random]. rewrite Hget.
  set (w2 := mkWorld _ _).
  assert (Hw2 : world_ok s w2).
  { apply (world_ok_set (mkWorld (NODES w) g')); [exact Hw1|].
    destruct Ho as [H1 H2 H3 H4 H5]. split; try assumption. simpl.
    intros Hb. right. exact (Henc Hb). }
  destruct (index shares (OciorABAStarNode.id o - 1)) as [[x_i y_i]|];
    [|exact Hw2].
  clearbody w2. revert w2 Hw2.
  apply keeps_seq; [apply keeps_broadcast|]. intros _.
  apply keeps_seq; [apply keeps_get_node|]. intros o0.
  apply keeps_seq.
  { apply keeps_for_each. intros p _. apply keeps__process_share. }
  intros _. apply keeps_update_node. intros o1. apply node_ok_set_pending.
Qed.

Lemma keeps___init__ node_id n t b : keeps s (__init__ node_id n t b).
Proof.
  intros w Hw. unfold __init__. simpl.
  apply world_ok_set; [exact Hw | apply node_ok_new].
Qed.

Lemma keeps_poll i : keeps s (poll i).
Proof.
  unfold poll. apply keeps_seq; [apply keeps_get_node|]. intros o.
  destruct (OciorABAStarNode.protocol_complete o);
    [apply keeps_ret | apply keeps__process_abba].
Qed.

Lemma keeps_run cs : Forall (proposes_common s) cs -> keeps s (run cs).
Proof.
  intros Hcs. unfold run. apply keeps_for_each. intros c Hin.
  rewrite Forall_forall in Hcs. specialize (Hcs c Hin).
  destruct c as [node_id n t b|i secret|i]; simpl in *.
  - apply keeps___init__.
  - subst secret. apply keeps_propose.
  - apply keeps_poll.
Qed.

Lemma world_ok_start g : world_ok s (start g).
Proof. intros i o Hget. discriminate. Qed.

End CommonSecret.

Theorem common_secret_is_decided `{PyRandom} (s : Z) (g : rng) (cs : list call)
    (i : Z) (o : node) (v : Z) :
  Forall (proposes_common s) cs ->
  PyDict.get (NODES (snd (run cs (start g)))) i = Some o ->
  OciorABAStarNode.is_byzantine o = false ->
  0 <= OciorABAStarNode.t o -> OciorABAStarNode.n o <= _PRIME ->
  OciorABAStarNode.final_decision o = Some v ->
  v = s.
Proof.
  intros Hcs Hget Hb Ht Hn Hf.
  pose proof (keeps_run s cs Hcs (start g) (world_ok_start s g)) as Hw.
  destruct (ok_final s o (Hw i o Hget) Hb Ht Hn) as [E|E]; congruence.
Qed.

(** * Further properties of the program *)

(** Property X1. In a run whose [propose] calls all pass the secret [s],
    every honest
    node with [0 <= t] and [n <= _PRIME] that holds a final value other
    than the failure sentinel holds [s]; two such nodes agree. *)
Theorem honest_agreement_common_secret `{PyRandom} (s : Z) (g : rng)
    (cs : list call) (i j v1 v2 : Z) :
  Forall (proposes_common s) cs ->
  honest_final (snd (run cs (start g))) i = Some v1 ->
  honest_final (snd (run cs (start g))) j = Some v2 ->
  v1 = s /\ v2 = s /\ v1 = v2.
Proof.
  intros Hcs H1 H2.
  assert (K : forall k v, honest_final (snd (run cs (start g))) k = Some v -> v = s).
  { intros k v Hk. unfold honest_final in Hk.
    destruct (PyDict.get (NODES (snd (run cs (start g)))) k) as [o|] eqn:Hget;
      [|discriminate].
    destruct (negb (OciorABAStarNode.is_byzantine o)
              && (0 <=? OciorABAStarNode.t o)
              && (OciorABAStarNode.n o <=? _PRIME)) eqn:E; [|discriminate].
    apply andb_true_iff in E. destruct E as [E E3].
    apply andb_true_iff in E. destruct E as [E1 E2].
    apply negb_true_iff in E1. apply Z.leb_le in E2, E3.
    exact (common_secret_is_decided s g cs k o v Hcs Hget E1 E2 E3 Hk). }
  pose proof (K i v1 H1). pose proof (K j v2 H2). repeat split; congruence.
Qed.

Lemma honest_agreement_common_secret_witness :
  2025 = 2025 /\ 2025 = 2025 /\ 2025 = 2025.
Proof.
  apply (@honest_agreement_common_secret constant_rng 2025 tt
           four_honest_nodes 1 4 2025 2025).
  - unfold four_honest_nodes. repeat constructor.
  - vm_compute. reflexivity.
  - vm_compute. reflexivity.
Defined.

(** Property X2. The modulus [_PRIME = 2^127 - 1] is a prime number. *)
Theorem PRIME_is_prime : Z.prime _PRIME.
Proof. exact prime_PRIME. Qed.

(** Property X3. When at least [t + 1] ABBAs decided 1, no selected
    proposer's share is
    missing and the node's own shares at the selected indices decode to
    [v], [_finalize] stores [v] as the final decision and marks the node
    complete; nothing else changes. *)
Theorem finalize_stores_own_decoding `{PyRandom} (w : world) (self : Z)
    (o : node) (v : Z) :
  PyDict.get (NODES w) self = Some o ->
  OciorABAStarNode.t o + 1 <= Z.of_nat (length (Aones o)) ->
  missing o = [] ->
  decode_own o = Some (Ok v) ->
  _finalize self w =
  (Ok tt,
   mkWorld (PyDict.set (NODES w) self
              (OciorABAStarNode.set_protocol_complete
                 (OciorABAStarNode.set_final_decision o (Some v)) true))
           (random w)).
Proof.
  intros Hget HA Hmiss Hdec. unfold decode_own in Hdec.
  destruct (own_shares_at o (Bones o)) as [shares|] eqn:Hown; [|discriminate].
  simpl in Hdec. injection Hdec as Hdec.
  exact (finalize_completes w self o shares v Hget HA Hmiss Hown Hdec).
Qed.

Lemma finalize_stores_own_decoding_witness :
  @_finalize constant_rng 2 (@mkWorld constant_rng [(2, node_2_at_finalization)] tt)
  = (Ok tt,
     @mkWorld constant_rng
       [(2, OciorABAStarNode.set_protocol_complete
              (OciorABAStarNode.set_final_decision node_2_at_finalization (Some 7))
              true)] tt).
Proof.
  apply (@finalize_stores_own_decoding constant_rng
           (@mkWorld constant_rng [(2, node_2_at_finalization)] tt) 2
           node_2_at_finalization 7).
  - reflexivity.
  - vm_compute. discriminate.
  - reflexivity.
  - reflexivity.
Defined.

(** Property X4. When fewer than [t + 1] ABBAs decided 1, [_finalize]
    stores the failure
    sentinel and marks the node complete. *)
Theorem finalize_insufficient_proposers `{PyRandom} (w : world) (self : Z)
    (o : node) :
  PyDict.get (NODES w) self = Some o ->
  Z.of_nat (length (Aones o)) < OciorABAStarNode.t o + 1 ->
  _finalize self w =
  (Ok tt,
   mkWorld (PyDict.set (NODES w) self
              (OciorABAStarNode.set_protocol_complete
                 (OciorABAStarNode.set_final_decision o None) true))
           (random w)).
Proof.
  intros Hget HA. unfold _finalize, bind, get_node, update_node. rewrite Hget.
  apply Z.ltb_lt in HA. rewrite HA. rewrite Hget. reflexivity.
Qed.

Lemma finalize_insufficient_proposers_witness :
  @_finalize constant_rng 1
    (@mkWorld constant_rng [(1, OciorABAStarNode.new 1 4 1 false)] tt)
  = (Ok tt,
     @mkWorld constant_rng
       [(1, OciorABAStarNode.set_protocol_complete
              (OciorABAStarNode.set_final_decision
                 (OciorABAStarNode.new 1 4 1 false) None) true)] tt).
Proof.
  apply (@finalize_insufficient_proposers constant_rng
           (@mkWorld constant_rng [(1, OciorABAStarNode.new 1 4 1 false)] tt) 1
           (OciorABAStarNode.new 1 4 1 false)).
  - reflexivity.
  - vm_compute. reflexivity.
Defined.

(** Property X5. [ECEnc] raises [ValueError] for a secret outside
    [[0, _PRIME)] and
    leaves the generator as it was; for a secret in range it returns the
    shares in ascending order of [x], at [x = 1, ..., n]. *)
Theorem ECEnc_range_check `{PyRandom} (n k secret : Z) (g : rng) :
  (0 <= secret < _PRIME /\
   exists shares, fst (ECEnc n k secret g) = Ok shares
                  /\ map fst shares = range 1 (n + 1))
  \/ (~ (0 <= secret < _PRIME) /\ ECEnc n k secret g = (Raise ValueError, g)).
Proof.
  destruct (Z_le_dec 0 secret) as [H0|H0];
    [destruct (Z_lt_dec secret _PRIME) as [H1|H1]|].
  - left. split; [lia|].
    destruct (ECEnc_ok n k secret g ltac:(lia)) as [shares [Henc _]].
    exists shares. split; [exact Henc|].
    destruct (ECEnc_shares _ _ _ _ _ Henc) as [_ ->].
    rewrite map_map. simpl. apply map_id.
  - right. split; [lia|]. unfold ECEnc.
    assert (E : (secret <? _PRIME) = false) by (apply Z.ltb_ge; lia).
    rewrite E, andb_false_r. reflexivity.
  - right. split; [lia|]. unfold ECEnc.
    assert (E : (0 <=? secret) = false) by (apply Z.leb_gt; lia).
    rewrite E. reflexivity.
Qed.

(** * Further facts about the codec *)

(** ** [_eval_polynomial] for any positive modulus *)

Section Modulus.
Variable m : Z.
Hypothesis m_pos : 0 < m.

Lemma eval_polynomial_fold_mod x c : forall (s : nat) acc,
  fold_left
    (fun result pc => (result + snd pc * pow3 x (fst pc) m) mod m)
    (combine (map Z.of_nat (seq s (length c))) c) acc mod m
  = (acc + x ^ Z.of_nat s * peval c x) mod m.
Proof.
  induction c as [|a c IH]; intros s acc;
    cbn [length seq map combine fold_left fst snd].
  - rewrite peval_nil. f_equal. ring.
  - rewrite IH. rewrite peval_cons. unfold pow3.
    rewrite Zpow_mod_correct by lia.
    replace (acc + x ^ Z.of_nat s * (a + x * peval c x))
      with ((acc + a * x ^ Z.of_nat s) + x ^ Z.of_nat (S s) * peval c x).
    2:{ rewrite Nat2Z.inj_succ, Z.pow_succ_r by lia.
        generalize (x ^ Z.of_nat s). intros. ring. }
    rewrite (Z.add_mod _ (x ^ Z.of_nat (S s) * peval c x)) by lia.
    rewrite Z.mod_mod by lia.
    rewrite (Z.add_mod acc (a * (x ^ Z.of_nat s mod m))) by lia.
    rewrite (Z.mul_mod a (x ^ Z.of_nat s mod m)) by lia.
    rewrite Z.mod_mod by lia.
    rewrite <- (Z.mul_mod a) by lia.
    rewrite <- (Z.add_mod acc) by lia.
    rewrite <- Z.add_mod by lia. reflexivity.
Qed.

Lemma eval_polynomial_bounds x (l : list (Z * Z)) : forall acc,
  0 <= acc < m ->
  0 <= fold_left
         (fun result pc => (result + snd pc * pow3 x (fst pc) m) mod m) l acc < m.
Proof.
  induction l as [|pc l IH]; intros acc Hacc; simpl; [exact Hacc|].
  apply IH. apply Z.mod_pos_bound. lia.
Qed.

End Modulus.

(** Property X6. For a positive modulus, [_eval_polynomial] returns the
    value of the polynomial with the given coefficients, lowest degree
    first, reduced into [[0, prime)]; the empty coefficient list evaluates
    to 0. *)
Theorem eval_polynomial_value (coeffs : list Z) (x prime : Z) :
  0 < prime ->
  _eval_polynomial coeffs x prime = peval coeffs x mod prime
  /\ 0 <= _eval_polynomial coeffs x prime < prime
  /\ _eval_polynomial [] x prime = 0.
Proof.
  intros Hp.
  assert (E : _eval_polynomial coeffs x prime = peval coeffs x mod prime).
  { unfold _eval_polynomial, enumerate.
    rewrite <- (Z.mod_small (fold_left _ _ 0) prime)
      by (apply eval_polynomial_bounds; lia).
    rewrite eval_polynomial_fold_mod by assumption. f_equal.
    change (Z.of_nat 0) with 0. rewrite Z.pow_0_r. ring. }
  split; [exact E|]. split; [|reflexivity].
  rewrite E. apply Z.mod_pos_bound. lia.
Qed.

Lemma eval_polynomial_value_witness :
  0 < 7
  /\ _eval_polynomial [3; 0; 2] 5 7 = peval [3; 0; 2] 5 mod 7
  /\ 0 <= _eval_polynomial [3; 0; 2] 5 7 < 7
  /\ _eval_polynomial [] 5 7 = 0.
Proof. split; [lia | apply (eval_polynomial_value [3; 0; 2] 5 7); lia]. Defined.

(** ** The shares of [ECEnc] *)

Lemma range_nil a b : b <= a -> range a b = [].
Proof.
  intros Hab. unfold range.
  replace (Z.to_nat (b - a)) with 0%nat by lia. reflexivity.
Qed.

(** Property X7. For a secret in range, the shares of [ECEnc] are the
    values at [x = 1, ..., n] of one polynomial whose constant coefficient
    is the secret and which has [max(1, k)] coefficients; the polynomial
    depends on [k] and the secret only, not on [n] nor on the state of the
    generator before the call. *)
Theorem ECEnc_shares_polynomial `{PyRandom} (k secret : Z) :
  0 <= secret < _PRIME ->
  exists coeffs,
    hd 0 coeffs = secret
    /\ Z.of_nat (length coeffs) = Z.max 1 k
    /\ forall n g,
         fst (ECEnc n k secret g)
         = Ok (map (fun i => (i, peval coeffs i mod _PRIME)) (range 1 (n + 1))).
Proof.
  intros Hs. exists (fst (ECEnc_coeffs k secret)).
  assert (Hc : hd 0 (fst (ECEnc_coeffs k secret)) = secret
               /\ Z.of_nat (length (fst (ECEnc_coeffs k secret))) = Z.max 1 k).
  { unfold ECEnc_coeffs.
    pose proof (length_randrange_list (Z.to_nat (k - 1)) _PRIME
                  (rng_seed secret)) as L.
    destruct (randrange_list (Z.to_nat (k - 1)) _PRIME (rng_seed secret))
      as [cs g0].
    cbn [fst hd length] in *. split; [reflexivity | lia]. }
  destruct Hc as [Hc1 Hc2]. split; [exact Hc1|]. split; [exact Hc2|].
  intros n g.
  destruct (fst (ECEnc n k secret g)) as [shares|e] eqn:E.
  - apply ECEnc_shares in E. destruct E as [_ ->]. reflexivity.
  - exfalso. unfold ECEnc in E.
    replace ((0 <=? secret) && (secret <? _PRIME)) with true in E.
    + destruct (ECEnc_coeffs k secret). discriminate.
    + symmetry. apply andb_true_iff. split; [apply Z.leb_le | apply Z.ltb_lt]; lia.
Qed.

Lemma ECEnc_shares_polynomial_witness :
  0 <= 5 < _PRIME
  /\ exists coeffs,
       hd 0 coeffs = 5
       /\ Z.of_nat (length coeffs) = Z.max 1 2
       /\ forall n g,
            fst (@ECEnc constant_rng n 2 5 g)
            = Ok (map (fun i => (i, peval coeffs i mod _PRIME))
                      (range 1 (n + 1))).
Proof.
  assert (Hs : 0 <= 5 < _PRIME) by (split; [lia | reflexivity]).
  split; [exact Hs | exact (@ECEnc_shares_polynomial constant_rng 2 5 Hs)].
Defined.

(** Property X8. With a threshold [k <= 1] no coefficient is drawn: every
    share of [ECEnc] carries the secret itself as its [y]. *)
Theorem ECEnc_threshold_one `{PyRandom} (n k secret : Z) (g : rng) :
  k <= 1 -> 0 <= secret < _PRIME ->
  fst (ECEnc n k secret g) = Ok (map (fun i => (i, secret)) (range 1 (n + 1))).
Proof.
  intros Hk Hs. unfold ECEnc.
  replace ((0 <=? secret) && (secret <? _PRIME)) with true
    by (symmetry; apply andb_true_iff;
        split; [apply Z.leb_le | apply Z.ltb_lt]; lia).
  unfold ECEnc_coeffs.
  replace (Z.to_nat (k - 1)) with 0%nat by lia.
  cbn [randrange_list fst].
  f_equal. apply map_ext. intros i. f_equal.
  rewrite (eval_polynomial_spec _PRIME prime_PRIME).
  rewrite peval_cons, peval_nil.
  replace (secret + i * 0) with secret by ring.
  apply Z.mod_small. exact Hs.
Qed.

Lemma ECEnc_threshold_one_witness :
  1 <= 1 /\ 0 <= 2025 < _PRIME
  /\ fst (@ECEnc constant_rng 4 1 2025 tt)
     = Ok (map (fun i => (i, 2025)) (range 1 (4 + 1))).
Proof.
  assert (Hs : 0 <= 2025 < _PRIME) by (split; [lia | reflexivity]).
  split; [lia|]. split; [exact Hs|].
  apply (@ECEnc_threshold_one constant_rng 4 1 2025 tt); [lia | exact Hs].
Defined.

(** ** [_lagrange_interpolate] *)

Lemma lagrange_interpolate_fold x xs ys prime :
  _lagrange_interpolate x xs ys prime
  = fold_left (interpolate_step x xs ys prime) (seq 0 (length xs)) (Ok 0).
Proof. reflexivity. Qed.

Lemma interpolate_fold_raise x xs ys prime e l :
  fold_left (interpolate_step x xs ys prime) l (Raise e) = Raise e.
Proof. induction l as [|i l IH]; simpl; [reflexivity | exact IH]. Qed.

Lemma interpolate_fold_ok x xs ys prime : forall l acc,
  0 < prime -> 0 <= acc < prime ->
  (forall i, In i l -> (i < length ys)%nat) ->
  exists v,
    fold_left (interpolate_step x xs ys prime) l (Ok acc) = Ok v
    /\ 0 <= v < prime.
Proof.
  induction l as [|i l IH]; intros acc Hp Hacc Hl; cbn [fold_left].
  - exists acc. split; [reflexivity | exact Hacc].
  - unfold interpolate_step at 2.
    destruct (nth_error ys i) as [yi|] eqn:E.
    + destruct (lagrange_num_den x xs prime i) as [num den].
      apply IH; [exact Hp | apply Z.mod_pos_bound; lia |].
      intros j Hj. apply Hl. now right.
    + exfalso. apply nth_error_None in E.
      specialize (Hl i (or_introl eq_refl)). lia.
Qed.

Lemma interpolate_fold_firstn x xs ys prime (k : nat) : forall l acc,
  (forall i, In i l -> (i < k)%nat) ->
  fold_left (interpolate_step x xs ys prime) l acc
  = fold_left (interpolate_step x xs (firstn k ys) prime) l acc.
Proof.
  induction l as [|i l IH]; intros acc Hl; cbn [fold_left]; [reflexivity|].
  rewrite IH by (intros j Hj; apply Hl; now right).
  f_equal. unfold interpolate_step. destruct acc as [tot|e]; [|reflexivity].
  rewrite nth_error_firstn.
  specialize (Hl i (or_introl eq_refl)).
  destruct (Nat.ltb_spec i k); [reflexivity | lia].
Qed.

(** Property X9. [_lagrange_interpolate] reads [y_s[i]] for every index of
    [x_s]: it raises [IndexError] exactly when [y_s] is shorter than [x_s];
    otherwise it returns an element of [[0, prime)], and values of [y_s]
    beyond the length of [x_s] are not read. An empty [x_s] gives 0. *)
Theorem lagrange_interpolate_index_error (x : Z) (xs ys : list Z) (prime : Z) :
  2 <= prime ->
  ((length ys < length xs)%nat ->
   _lagrange_interpolate x xs ys prime = Raise IndexError)
  /\ ((length xs <= length ys)%nat ->
      (exists v, _lagrange_interpolate x xs ys prime = Ok v /\ 0 <= v < prime)
      /\ _lagrange_interpolate x xs ys prime
         = _lagrange_interpolate x xs (firstn (length xs) ys) prime)
  /\ _lagrange_interpolate x [] ys prime = Ok 0.
Proof.
  intros Hp. split; [|split; [|reflexivity]].
  - intros Hlt. rewrite lagrange_interpolate_fold.
    replace (length xs) with (length ys + S (length xs - length ys - 1))%nat
      at 1 by lia.
    rewrite seq_app, fold_left_app.
    destruct (interpolate_fold_ok x xs ys prime (seq 0 (length ys)) 0)
      as [v [-> _]]; [lia | lia | |].
    { intros i Hi. apply in_seq in Hi. lia. }
    cbn [seq fold_left]. unfold interpolate_step at 2.
    replace (nth_error ys (0 + length ys)) with (@None Z)
      by (symmetry; apply nth_error_None; lia).
    apply interpolate_fold_raise.
  - intros Hle. split.
    + rewrite lagrange_interpolate_fold. apply interpolate_fold_ok; [lia | lia |].
      intros i Hi. apply in_seq in Hi. lia.
    + rewrite !lagrange_interpolate_fold.
      apply interpolate_fold_firstn.
      intros i Hi. apply in_seq in Hi. lia.
Qed.

Lemma lagrange_interpolate_index_error_witness :
  2 <= 7
  /\ ((length [4] < length [1; 2])%nat ->
      _lagrange_interpolate 0 [1; 2] [4] 7 = Raise IndexError)
  /\ ((length [1; 2] <= length [4])%nat ->
      (exists v, _lagrange_interpolate 0 [1; 2] [4] 7 = Ok v /\ 0 <= v < 7)
      /\ _lagrange_interpolate 0 [1; 2] [4] 7
         = _lagrange_interpolate 0 [1; 2] (firstn (length [1; 2]) [4]) 7)
  /\ _lagrange_interpolate 0 [] [4] 7 = Ok 0.
Proof.
  split; [lia | apply (lagrange_interpolate_index_error 0 [1; 2] [4] 7); lia].
Defined.

(** Property X10. Over a prime modulus and for nodes that are pairwise
    distinct modulo the prime, [_lagrange_interpolate] reconstructs a
    polynomial from its values: given the values at the nodes of a
    polynomial with at most [len(x_s)] coefficients, it returns the value
    of that polynomial at any point [x], and given any values it returns
    at a node the value listed for it. *)
Theorem lagrange_interpolate_polynomial (p x : Z) (c xs ys : list Z) (i : nat) :
  Z.prime p -> distinct_mod p xs ->
  ((length c <= length xs)%nat ->
   _lagrange_interpolate x xs (map (fun xi => _eval_polynomial c xi p) xs) p
   = Ok (_eval_polynomial c x p))
  /\ ((length xs <= length ys)%nat -> (i < length xs)%nat ->
      _lagrange_interpolate (nth i xs 0) xs ys p = Ok (nth i ys 0 mod p)).
Proof.
  intros Hp Hd. split.
  - intros Hlen.
    rewrite (lagrange_interpolate_spec p Hp) by (rewrite length_map; lia).
    f_equal. rewrite (eval_polynomial_spec p Hp).
    apply (lagrange_sum_correct p Hp); [exact Hd | exact Hlen |].
    intros j Hj.
    rewrite (nth_indep _ 0 (_eval_polynomial c 0 p)) by (rewrite length_map; lia).
    rewrite (map_nth (fun xi => _eval_polynomial c xi p) xs 0 j).
    rewrite (eval_polynomial_spec p Hp).
    apply Z.mod_mod. pose proof (Z.prime_ge_2 _ Hp). lia.
  - intros Hlen Hi.
    rewrite (lagrange_interpolate_spec p Hp) by exact Hlen.
    f_equal. now apply (lagrange_sum_at_node p Hp).
Qed.

Lemma prime_7 : Z.prime 7.
Proof. apply trial_prime_sound. reflexivity. Qed.

Lemma lagrange_interpolate_polynomial_witness :
  Z.prime 7 /\ distinct_mod 7 [1; 2; 3]
  /\ ((length [3; 0; 2] <= length [1; 2; 3])%nat ->
      _lagrange_interpolate 5 [1; 2; 3]
        (map (fun xi => _eval_polynomial [3; 0; 2] xi 7) [1; 2; 3]) 7
      = Ok (_eval_polynomial [3; 0; 2] 5 7))
  /\ ((length [1; 2; 3] <= length [6; 6; 1])%nat ->
      (1 < length [1; 2; 3])%nat ->
      _lagrange_interpolate (nth 1 [1; 2; 3] 0) [1; 2; 3] [6; 6; 1] 7
      = Ok (nth 1 [6; 6; 1] 0 mod 7)).
Proof.
  assert (Hd : distinct_mod 7 [1; 2; 3]).
  { unfold distinct_mod. simpl.
    repeat constructor; simpl; intuition discriminate. }
  split; [exact prime_7|]. split; [exact Hd|].
  exact (lagrange_interpolate_polynomial 7 5 [3; 0; 2] [1; 2; 3] [6; 6; 1] 1
           prime_7 Hd).
Defined.

(** ** The order of the shares *)

Lemma prod_diff_perm x l l' : Permutation l l' -> prod_diff x l = prod_diff x l'.
Proof.
  induction 1 as [|a l l' _ IH|a b l|l l' l'' _ IH1 _ IH2]; simpl.
  - reflexivity.
  - now rewrite IH.
  - ring.
  - now rewrite IH1.
Qed.

Lemma pick_term_perm p x (a : share) r r' :
  Permutation r r' -> pick_term p x (a, r) = pick_term p x (a, r').
Proof.
  intros Hp. unfold pick_term. cbn [fst snd].
  now rewrite !(prod_diff_perm _ (map fst r) (map fst r'))
    by (apply Permutation_map; exact Hp).
Qed.

Lemma zsum_cons a l : zsum (a :: l) = a + zsum l.
Proof. reflexivity. Qed.

Lemma picks_sum_perm {A} (l l' : list A) :
  Permutation l l' ->
  forall f : A * list A -> Z,
    (forall a r r', Permutation r r' -> f (a, r) = f (a, r')) ->
    zsum (map f (picks l)) = zsum (map f (picks l')).
Proof.
  induction 1 as [|a l l' Hp IH|a b l|l l' l'' _ IH1 _ IH2]; intros f Hf.
  - reflexivity.
  - cbn [picks map]. rewrite !zsum_cons.
    rewrite (Hf a l l' Hp). f_equal.
    rewrite !map_map. cbn [fst snd].
    apply (IH (fun br => f (fst br, a :: snd br))).
    intros c r r' Hr. cbn [fst snd]. apply Hf. now constructor.
  - cbn [picks map]. rewrite !zsum_cons, !map_map. cbn [fst snd].
    match goal with
    | |- _ + (_ + zsum ?u) = _ + (_ + zsum ?v) =>
      assert (E : u = v); [|rewrite E; ring]
    end.
    apply map_ext. intros [c r]. cbn [fst snd].
    apply Hf. apply perm_swap.
  - rewrite (IH1 f Hf). apply IH2. exact Hf.
Qed.

Lemma picks_nth {A} (d : A) (l : list A) :
  picks l = map (fun i => (nth i l d, remove_nth i l)) (seq 0 (length l)).
Proof.
  induction l as [|a l IH]; [reflexivity|].
  cbn [picks length seq map]. f_equal.
  rewrite IH, map_map, <- seq_shift, map_map.
  apply map_ext. intros i. reflexivity.
Qed.

Lemma lagrange_sum_picks p x (S : list share) :
  lagrange_sum p x (map fst S) (map snd S) = zsum (map (pick_term p x) (picks S)).
Proof.
  unfold lagrange_sum. rewrite (@picks_nth share (0, 0) S), map_map, length_map.
  f_equal. apply map_ext. intros i.
  unfold lag_term, lag_den, pick_term. cbn [fst snd].
  rewrite remove_nth_map.
  rewrite (map_nth (@snd Z Z) S (0, 0) i : nth i (map snd S) 0 = _).
  rewrite (map_nth (@fst Z Z) S (0, 0) i : nth i (map fst S) 0 = _).
  reflexivity.
Qed.

(** Property X11. [ECDec] does not depend on the order of the shares it
    interpolates: two lists with the same shares in a different order, no
    longer than [k], decode alike (to the same value, or both to
    [ValueError] when empty). *)
Theorem ECDec_order_independent (n k : Z) (S S' : list share) :
  Permutation S S' -> Z.of_nat (length S) <= k ->
  ECDec n k S = ECDec n k S'.
Proof.
  intros Hp Hk.
  assert (Hl : length S' = length S) by (symmetry; now apply Permutation_length).
  destruct S as [|a S0].
  - apply Permutation_nil in Hp. now subst S'.
  - rewrite !ECDec_nonempty.
    + rewrite !slice_to_all by lia.
      rewrite !(lagrange_interpolate_spec _PRIME prime_PRIME)
        by (rewrite !length_map; lia).
      f_equal. f_equal. rewrite !lagrange_sum_picks.
      apply picks_sum_perm; [exact Hp|].
      intros b r r'. apply pick_term_perm.
    + rewrite slice_to_all by lia. intros ->. discriminate.
    + rewrite slice_to_all by lia. discriminate.
Qed.

Lemma ECDec_order_independent_witness :
  Permutation [(1, 9); (2, 13); (3, 17)] [(3, 17); (1, 9); (2, 13)]
  /\ Z.of_nat (length [(1, 9); (2, 13); (3, 17)]) <= 3
  /\ ECDec 3 3 [(1, 9); (2, 13); (3, 17)] = ECDec 3 3 [(3, 17); (1, 9); (2, 13)].
Proof.
  assert (Hp : Permutation [(1, 9); (2, 13); (3, 17)] [(3, 17); (1, 9); (2, 13)]).
  { apply (perm_trans (l' := [(1, 9); (3, 17); (2, 13)])).
    - apply perm_skip, perm_swap.
    - apply perm_swap. }
  split; [exact Hp|]. split; [simpl; lia|].
  apply (ECDec_order_independent 3 3 _ _ Hp). simpl. lia.
Defined.

(** * The common coin *)

Lemma try_compute_coin_fields c :
  CommonCoin.n (CommonCoin._try_compute_coin c) = CommonCoin.n c
  /\ CommonCoin.t (CommonCoin._try_compute_coin c) = CommonCoin.t c
  /\ CommonCoin.coin_shares (CommonCoin._try_compute_coin c)
     = CommonCoin.coin_shares c.
Proof.
  unfold CommonCoin._try_compute_coin.
  destruct (_ && _); simpl; auto.
Qed.

Lemma contribute_share_fields c i r :
  CommonCoin.n (CommonCoin.contribute_share c i r) = CommonCoin.n c
  /\ CommonCoin.t (CommonCoin.contribute_share c i r) = CommonCoin.t c
  /\ CommonCoin.coin_shares (CommonCoin.contribute_share c i r)
     = PyDict.set (CommonCoin.coin_shares c) i ((i * 7 + r * 13) mod 2).
Proof.
  unfold CommonCoin.contribute_share.
  destruct (try_compute_coin_fields
              (CommonCoin.mk (CommonCoin.n c) (CommonCoin.t c)
                 (PyDict.set (CommonCoin.coin_shares c) i ((i * 7 + r * 13) mod 2))
                 (CommonCoin._coin_value c))) as [-> [-> ->]].
  simpl. auto.
Qed.

Lemma contribute_share_kept c i r v :
  CommonCoin._coin_value c = Some v ->
  CommonCoin._coin_value (CommonCoin.contribute_share c i r) = Some v.
Proof.
  intros Hv. unfold CommonCoin.contribute_share, CommonCoin._try_compute_coin.
  cbn [CommonCoin._coin_value CommonCoin.coin_shares CommonCoin.t].
  rewrite Hv. rewrite andb_false_r. reflexivity.
Qed.

Lemma contribute_seq_kept l : forall c v,
  CommonCoin._coin_value c = Some v ->
  CommonCoin._coin_value (contribute_seq c l) = Some v.
Proof.
  induction l as [|[i r] l IH]; intros c v Hv; simpl; [exact Hv|].
  apply IH. now apply contribute_share_kept.
Qed.

Lemma is_bit_mod2 x : is_bit (x mod 2).
Proof. unfold is_bit. pose proof (Z.mod_pos_bound x 2). lia. Qed.

Lemma is_bit_lxor a b : is_bit a -> is_bit b -> is_bit (Z.lxor a b).
Proof. intros [-> | ->] [-> | ->]; vm_compute; auto. Qed.

Lemma fold_lxor_bits l : forall acc,
  Forall is_bit l -> is_bit acc -> is_bit (fold_left Z.lxor l acc).
Proof.
  induction l as [|a l IH]; intros acc Hl Hacc; simpl; [exact Hacc|].
  inversion Hl; subst. apply IH; [assumption | now apply is_bit_lxor].
Qed.

Lemma Forall_slice_to {A} (P : A -> Prop) (l : list A) k :
  Forall P l -> Forall P (slice_to l k).
Proof.
  intros Hl. rewrite Forall_forall in *. intros x Hx. apply Hl.
  unfold slice_to in Hx. destruct (0 <=? k); exact (in_firstn _ _ _ Hx).
Qed.

Lemma Forall_values_set {V} (P : V -> Prop) (d : dict V) k v :
  Forall P (PyDict.values d) -> P v -> Forall P (PyDict.values (PyDict.set d k v)).
Proof.
  unfold PyDict.values. intros Hd Hv.
  induction d as [|[k' v'] d IH]; simpl.
  - constructor; [exact Hv | constructor].
  - inversion Hd; subst. destruct (k =? k'); simpl.
    + constructor; assumption.
    + constructor; [assumption | now apply IH].
Qed.

Lemma coin_bits_init n t : coin_bits (CommonCoin.__init__ n t).
Proof. split; [constructor | intros v Hv; discriminate]. Qed.

Lemma coin_bits_contribute c i r :
  coin_bits c -> coin_bits (CommonCoin.contribute_share c i r).
Proof.
  intros [Hs Hv]. split.
  - destruct (contribute_share_fields c i r) as [_ [_ ->]].
    apply Forall_values_set; [exact Hs | apply is_bit_mod2].
  - intros v. unfold CommonCoin.contribute_share, CommonCoin._try_compute_coin.
    cbn [CommonCoin._coin_value CommonCoin.coin_shares CommonCoin.t
         CommonCoin.n].
    destruct (_ && _); cbn [CommonCoin._coin_value].
    + intros E. injection E as <-.
      apply fold_lxor_bits; [|now left].
      apply Forall_slice_to, Forall_values_set; [exact Hs | apply is_bit_mod2].
    + apply Hv.
Qed.

Lemma coin_bits_seq l : forall c, coin_bits c -> coin_bits (contribute_seq c l).
Proof.
  induction l as [|[i r] l IH]; intros c Hc; simpl; [exact Hc|].
  apply IH. now apply coin_bits_contribute.
Qed.

(** Property X12. The value of a coin is write-once and binary: once a
    coin created by [CommonCoin(n, t)] has a value after some
    contributions, that value is 0 or 1 and no later contribution changes
    it. *)
Theorem coin_value_write_once (n t : Z) (l l' : list (Z * Z)) (v : Z) :
  CommonCoin.get_coin_value (contribute_seq (CommonCoin.__init__ n t) l)
  = Some v ->
  (v = 0 \/ v = 1)
  /\ CommonCoin.get_coin_value
       (contribute_seq (contribute_seq (CommonCoin.__init__ n t) l) l')
     = Some v.
Proof.
  unfold CommonCoin.get_coin_value. intros Hv. split.
  - exact (proj2 (coin_bits_seq l _ (coin_bits_init n t)) v Hv).
  - now apply contribute_seq_kept.
Qed.

Lemma coin_value_write_once_witness :
  CommonCoin.get_coin_value
    (contribute_seq (CommonCoin.__init__ 4 1) [(1, 1); (2, 1)]) = Some 1
  /\ (1 = 0 \/ 1 = 1)
  /\ CommonCoin.get_coin_value
       (contribute_seq
          (contribute_seq (CommonCoin.__init__ 4 1) [(1, 1); (2, 1)])
          [(4, 1); (2, 2)])
     = Some 1.
Proof.
  split; [reflexivity|].
  apply (coin_value_write_once 4 1 [(1, 1); (2, 1)] [(4, 1); (2, 2)] 1).
  reflexivity.
Defined.

Lemma lxor_bit_mod2 a x : is_bit a -> Z.lxor a (x mod 2) = (a + x) mod 2.
Proof.
  intros Ha. rewrite <- (Z.add_mod_idemp_r a x 2) by lia.
  pose proof (Z.mod_pos_bound x 2 ltac:(lia)) as Hx.
  assert (Hc : x mod 2 = 0 \/ x mod 2 = 1) by lia.
  destruct Ha as [-> | ->], Hc as [-> | ->]; reflexivity.
Qed.

Lemma fold_lxor_parity (l : list (Z * Z)) : forall acc,
  is_bit acc ->
  fold_left Z.lxor
    (map (fun p => (fst p * 7 + snd p * 13) mod 2) l) acc
  = (acc + zsum (map (fun p => fst p + snd p) l)) mod 2.
Proof.
  induction l as [|[i r] l IH]; intros acc Hacc; cbn [map fold_left fst snd].
  - cbn [zsum fold_right]. rewrite Z.add_0_r.
    destruct Hacc as [-> | ->]; reflexivity.
  - rewrite IH by (apply is_bit_lxor; [exact Hacc | apply is_bit_mod2]).
    rewrite lxor_bit_mod2 by exact Hacc.
    rewrite Z.add_mod_idemp_l by lia.
    change (zsum ((i + r) :: map (fun p => fst p + snd p) l))
      with ((i + r) + zsum (map (fun p => fst p + snd p) l)).
    replace (acc + (i * 7 + r * 13) + zsum (map (fun p => fst p + snd p) l))
      with ((acc + (i + r + zsum (map (fun p => fst p + snd p) l)))
            + 2 * (3 * i + 6 * r)) by ring.
    rewrite Z.mul_comm. apply Z.mod_add. lia.
Qed.

Lemma contribute_seq_app c l1 l2 :
  contribute_seq c (l1 ++ l2) = contribute_seq (contribute_seq c l1) l2.
Proof. unfold contribute_seq. apply fold_left_app. Qed.

Lemma contribute_seq_distinct n t : forall l,
  0 <= t -> NoDup (map fst l) ->
  let c := contribute_seq (CommonCoin.__init__ n t) l in
  CommonCoin.t c = t
  /\ CommonCoin.coin_shares c
     = map (fun p => (fst p, (fst p * 7 + snd p * 13) mod 2)) l
  /\ CommonCoin._coin_value c
     = if Z.of_nat (length l) <? t + 1 then None
       else Some (zsum (map (fun p => fst p + snd p)
                            (firstn (Z.to_nat (t + 1)) l)) mod 2).
Proof.
  intros l Ht. induction l as [|[i r] l IH] using rev_ind; intros Hnd c.
  - subst c. cbn. split; [reflexivity|]. split; [reflexivity|].
    destruct (0 <? t + 1) eqn:E; [reflexivity | apply Z.ltb_ge in E; lia].
  - rewrite map_app in Hnd. cbn [map fst] in Hnd.
    assert (Hnd' : NoDup (map fst l)) by (now apply NoDup_app_remove_r in Hnd).
    assert (Hi : ~ In i (map fst l)).
    { apply NoDup_remove_2 in Hnd. rewrite app_nil_r in Hnd. exact Hnd. }
    specialize (IH Hnd'). cbv zeta in IH. destruct IH as [It [Is Iv]].
    subst c. rewrite contribute_seq_app. cbn [contribute_seq fold_left fst snd].
    fold (contribute_seq (CommonCoin.__init__ n t) l).
    set (c0 := contribute_seq (CommonCoin.__init__ n t) l) in *.
    assert (Hget : PyDict.get (CommonCoin.coin_shares c0) i = None).
    { destruct (PyDict.get (CommonCoin.coin_shares c0) i) as [u|] eqn:G;
        [|reflexivity].
      exfalso. apply dict_get_some_keys in G. apply Hi.
      unfold PyDict.keys in G. rewrite Is, map_map in G. exact G. }
    destruct (contribute_share_fields c0 i r) as [_ [Ht' Hs']].
    rewrite dict_set_absent in Hs' by exact Hget.
    split; [congruence|]. split.
    { rewrite Hs', Is, map_app. reflexivity. }
    unfold CommonCoin.contribute_share, CommonCoin._try_compute_coin.
    cbn [CommonCoin._coin_value CommonCoin.coin_shares CommonCoin.t
         CommonCoin.n].
    rewrite dict_set_absent by exact Hget.
    rewrite It, Is, Iv. unfold PyDict.len, PyDict.values.
    rewrite !length_app, !length_map. cbn [length].
    destruct (Z.of_nat (length l) <? t + 1) eqn:E1.
    + apply Z.ltb_lt in E1.
      destruct (Z.of_nat (length l + 1) >=? t + 1) eqn:E2.
      * apply Z.geb_le in E2. cbn [andb CommonCoin._coin_value].
        replace (Z.of_nat (length l + 1) <? t + 1) with false
          by (symmetry; apply Z.ltb_ge; lia).
        f_equal.
        rewrite slice_to_all
          by (rewrite length_map, length_app, length_map; cbn [length]; lia).
        rewrite firstn_all2 by (rewrite length_app; cbn [length]; lia).
        change [(i, (i * 7 + r * 13) mod 2)]
          with (map (fun p => (fst p, (fst p * 7 + snd p * 13) mod 2)) [(i, r)]).
        rewrite <- map_app, map_map. cbn [snd fst].
        rewrite (fold_lxor_parity (l ++ [(i, r)]) 0) by (now left).
        reflexivity.
      * rewrite Z.geb_leb in E2. apply Z.leb_gt in E2.
        cbn [andb CommonCoin._coin_value].
        replace (Z.of_nat (length l + 1) <? t + 1) with true
          by (symmetry; apply Z.ltb_lt; lia).
        reflexivity.
    + apply Z.ltb_ge in E1. rewrite andb_false_r.
      cbn [CommonCoin._coin_value].
      replace (Z.of_nat (length l + 1) <? t + 1) with false
        by (symmetry; apply Z.ltb_ge; lia).
      rewrite firstn_app.
      replace (Z.to_nat (t + 1) - length l)%nat with 0%nat by lia.
      cbn [firstn]. rewrite app_nil_r. reflexivity.
Qed.

(** Property X13. For [t >= 0] and contributions from pairwise distinct
    nodes, a coin created by [CommonCoin(n, t)] has no value while fewer
    than [t + 1] nodes have contributed, and from the [(t + 1)]-th
    contribution on its value is the parity of the sum of
    [node_id + round_num] over the first [t + 1] contributions. *)
Theorem coin_value_parity (n t : Z) (l : list (Z * Z)) :
  0 <= t -> NoDup (map fst l) ->
  CommonCoin.get_coin_value (contribute_seq (CommonCoin.__init__ n t) l)
  = if Z.of_nat (length l) <? t + 1 then None
    else Some (zsum (map (fun p => fst p + snd p)
                         (firstn (Z.to_nat (t + 1)) l)) mod 2).
Proof.
  intros Ht Hnd. exact (proj2 (proj2 (contribute_seq_distinct n t l Ht Hnd))).
Qed.

Lemma coin_value_parity_witness :
  0 <= 1 /\ NoDup (map fst [(3, 1); (5, 1); (2, 1)])
  /\ CommonCoin.get_coin_value
       (contribute_seq (CommonCoin.__init__ 4 1) [(3, 1); (5, 1); (2, 1)])
     = if Z.of_nat (length [(3, 1); (5, 1); (2, 1)]) <? 1 + 1 then None
       else Some (zsum (map (fun p => fst p + snd p)
                            (firstn (Z.to_nat (1 + 1))
                                    [(3, 1); (5, 1); (2, 1)])) mod 2).
Proof.
  assert (Hnd : NoDup (map fst [(3, 1); (5, 1); (2, 1)])).
  { simpl. repeat constructor; simpl; intuition discriminate. }
  split; [lia|]. split; [exact Hnd|].
  apply (coin_value_parity 4 1 [(3, 1); (5, 1); (2, 1)]); [lia | exact Hnd].
Defined.

(** * Further facts about the ABBA state machine *)

Lemma decision_rule_bit n t ones zeros total coin b :
  (forall c, coin = Some c -> is_bit c) ->
  decision_rule n t ones zeros total coin = Some b -> is_bit b.
Proof.
  intros Hc. unfold decision_rule.
  repeat match goal with
         | |- context [if ?x then _ else _] => destruct x
         | |- context [match coin with _ => _ end] => destruct coin
         end; intros E; try discriminate; injection E as <-;
    try (now left); try (now right).
  now apply Hc.
Qed.

Lemma abba_coin_input a sender v :
  coin_bits (ABBA.common_coin a) ->
  coin_bits (ABBA.common_coin (ABBA.input a sender v)).
Proof.
  intros Hc.
  destruct (PyDict.contains (ABBA.inputs a) sender) eqn:E;
    [now rewrite input_duplicate|].
  destruct (input_fields_new a sender v E) as [_ [_ [_ ->]]].
  destruct (ABBA.coin_requested a); [exact Hc | now apply coin_bits_contribute].
Qed.

Lemma abba_output_bit_input a sender v :
  coin_bits (ABBA.common_coin a) ->
  (forall b, ABBA._output a = Some b -> is_bit b) ->
  forall b, ABBA._output (ABBA.input a sender v) = Some b -> is_bit b.
Proof.
  intros Hc Ho b.
  destruct (PyDict.contains (ABBA.inputs a) sender) eqn:E;
    [rewrite input_duplicate by exact E; apply Ho|].
  rewrite (input_output_new a sender v E).
  destruct (ABBA._output a) as [b0|] eqn:Eo.
  - intros Hb. injection Hb as <-. now apply Ho.
  - apply decision_rule_bit.
    exact (proj2 (abba_coin_input a sender v Hc)).
Qed.

Lemma abba_output_bit_seq l : forall a,
  coin_bits (ABBA.common_coin a) ->
  (forall b, ABBA._output a = Some b -> is_bit b) ->
  coin_bits (ABBA.common_coin (ABBA.inputs_seq a l))
  /\ forall b, ABBA._output (ABBA.inputs_seq a l) = Some b -> is_bit b.
Proof.
  induction l as [|[s v] l IH]; intros a Hc Ho; simpl; [now split|].
  apply IH; [now apply abba_coin_input | now apply abba_output_bit_input].
Qed.

Lemma count_eq_in x l : 1 <= count_eq x l -> In x l.
Proof.
  unfold count_eq. intros Hc.
  destruct (filter (fun v => v =? x) l) as [|y r] eqn:E; [simpl in Hc; lia|].
  assert (Hy : In y (filter (fun v => v =? x) l)) by (rewrite E; now left).
  apply filter_In in Hy. destruct Hy as [Hy Hx].
  apply Z.eqb_eq in Hx. now subst y.
Qed.

Lemma count_eq_bits l :
  Forall is_bit l -> Z.of_nat (length l) = count_eq 1 l + count_eq 0 l.
Proof.
  unfold count_eq. induction 1 as [|v l Hv _ IH]; [reflexivity|].
  cbn [length filter].
  destruct Hv as [-> | ->].
  - change (0 =? 1) with false. change (0 =? 0) with true. cbn [length]. lia.
  - change (1 =? 1) with true. change (1 =? 0) with false. cbn [length]. lia.
Qed.

(** Property X14. The decision of an ABBA is binary, whatever the votes:
    an instance created by [ABBA(owner, n, t)] never outputs a value other
    than 0 or 1, after any sequence of inputs, including votes that are
    not bits. *)
Theorem abba_output_binary (owner n t : Z) (l : list (Z * Z)) (b : Z) :
  ABBA.get_output (ABBA.inputs_seq (ABBA.__init__ owner n t) l) = Some b ->
  b = 0 \/ b = 1.
Proof.
  unfold ABBA.get_output.
  apply (abba_output_bit_seq l (ABBA.__init__ owner n t)).
  - apply coin_bits_init.
  - intros b0 Hb. discriminate.
Qed.

Lemma abba_output_binary_witness :
  ABBA.get_output
    (ABBA.inputs_seq (ABBA.__init__ 1 2 0) [(2, 5); (4, 7)]) = Some 1
  /\ (1 = 0 \/ 1 = 1).
Proof.
  split; [reflexivity|].
  apply (abba_output_binary 1 2 0 [(2, 5); (4, 7)] 1). reflexivity.
Defined.

Lemma abba_validity_input n t a sender v :
  0 <= t < n -> abba_inv n t a ->
  (t = 0 -> is_bit v) ->
  (t = 0 -> Forall is_bit (PyDict.values (ABBA.inputs a))) ->
  (forall b, ABBA._output a = Some b -> In b (PyDict.values (ABBA.inputs a))) ->
  (t = 0 -> Forall is_bit (PyDict.values (ABBA.inputs (ABBA.input a sender v))))
  /\ forall b, ABBA._output (ABBA.input a sender v) = Some b ->
               In b (PyDict.values (ABBA.inputs (ABBA.input a sender v))).
Proof.
  intros Hnt I Hv Hbits Hval.
  destruct (PyDict.contains (ABBA.inputs a) sender) eqn:E;
    [rewrite input_duplicate by exact E; now split|].
  pose proof (abba_inv_input n t a sender v I) as I'.
  pose proof (input_inputs_new a sender v E) as Hin.
  assert (Hne : ABBA.inputs (ABBA.input a sender v) <> [])
    by (rewrite Hin; now destruct (ABBA.inputs a)).
  assert (Hbits' : t = 0 ->
            Forall is_bit (PyDict.values (ABBA.inputs (ABBA.input a sender v)))).
  { intros Ht. rewrite Hin. unfold PyDict.values. rewrite map_app.
    apply Forall_app. split; [now apply Hbits|].
    constructor; [now apply Hv | constructor]. }
  split; [exact Hbits'|]. intros b.
  rewrite (input_output_new a sender v E).
  destruct (ABBA._output a) as [b0|] eqn:Eo.
  - intros Hb. injection Hb as <-. rewrite Hin.
    unfold PyDict.values. rewrite map_app. apply in_or_app. left.
    now apply Hval.
  - rewrite (inv_n _ _ _ I), (inv_t _ _ _ I).
    pose proof (inv_coin _ _ _ I' Hne) as Hcoin.
    rewrite has_coin_value_iff in Hcoin.
    set (a' := ABBA.input a sender v) in *.
    unfold decision_rule.
    destruct (ABBA.ones a' >=? n - t) eqn:E1.
    { apply Z.geb_le in E1. intros Hb. injection Hb as <-.
      apply count_eq_in. unfold ABBA.ones in E1. lia. }
    destruct (ABBA.zeros a' >=? n - t) eqn:E2.
    { apply Z.geb_le in E2. intros Hb. injection Hb as <-.
      apply count_eq_in. unfold ABBA.zeros in E2. lia. }
    destruct (ABBA.total_votes a' >=? n - t) eqn:E3; [|discriminate].
    apply Z.geb_le in E3.
    destruct (CommonCoin.get_coin_value (ABBA.common_coin a')) as [c|];
      [|discriminate].
    assert (Ht : t = 0) by (assert (t <= 0) by (apply Hcoin; discriminate); lia).
    destruct (ABBA.ones a' >=? t + 1) eqn:E4.
    { apply Z.geb_le in E4. intros Hb. injection Hb as <-.
      apply count_eq_in. unfold ABBA.ones in E4. lia. }
    destruct (ABBA.zeros a' >=? t + 1) eqn:E5.
    { apply Z.geb_le in E5. intros Hb. injection Hb as <-.
      apply count_eq_in. unfold ABBA.zeros in E5. lia. }
    exfalso.
    rewrite Z.geb_leb in E4, E5. apply Z.leb_gt in E4, E5.
    pose proof (count_eq_bits _ (Hbits' Ht)) as Hc.
    unfold ABBA.ones, ABBA.zeros, ABBA.total_votes, PyDict.len,
      PyDict.values in *.
    rewrite length_map in Hc.
    pose proof (count_eq_nonneg 1 (map snd (ABBA.inputs a'))).
    pose proof (count_eq_nonneg 0 (map snd (ABBA.inputs a'))).
    lia.
Qed.

Lemma abba_validity_seq n t l : forall a,
  0 <= t < n -> abba_inv n t a ->
  (t = 0 -> Forall (fun sv => is_bit (snd sv)) l) ->
  (t = 0 -> Forall is_bit (PyDict.values (ABBA.inputs a))) ->
  (forall b, ABBA._output a = Some b -> In b (PyDict.values (ABBA.inputs a))) ->
  forall b, ABBA._output (ABBA.inputs_seq a l) = Some b ->
            In b (PyDict.values (ABBA.inputs (ABBA.inputs_seq a l))).
Proof.
  induction l as [|[s v] l IH]; intros a Hnt I Hl Hbits Hval; simpl;
    [exact Hval|].
  destruct (abba_validity_input n t a s v Hnt I) as [H1 H2]; auto.
  { intros Ht. specialize (Hl Ht). now inversion Hl. }
  apply IH; auto.
  - now apply abba_inv_input.
  - intros Ht. specialize (Hl Ht). now inversion Hl.
Qed.

(** Property X15. Validity of an ABBA created with [0 <= t < n]: a decision
    [b] is one of the recorded votes. For [t >= 1] this holds for any
    votes; for [t = 0] it holds when every vote is a bit. *)
Theorem abba_decision_is_a_vote (owner n t : Z) (l : list (Z * Z)) (b : Z) :
  0 <= t < n ->
  (t = 0 -> Forall (fun sv => snd sv = 0 \/ snd sv = 1) l) ->
  ABBA.get_output (ABBA.inputs_seq (ABBA.__init__ owner n t) l) = Some b ->
  In b (PyDict.values
          (ABBA.inputs (ABBA.inputs_seq (ABBA.__init__ owner n t) l))).
Proof.
  intros Hnt Hl. unfold ABBA.get_output.
  apply (abba_validity_seq n t l _ Hnt (abba_inv_init owner n t) Hl).
  - intros Ht. constructor.
  - intros b0 Hb. discriminate.
Qed.

Lemma abba_decision_is_a_vote_witness :
  0 <= 1 < 4
  /\ (1 = 0 -> Forall (fun sv => snd sv = 0 \/ snd sv = 1)
                      [(1, 1); (2, 5); (3, 1); (4, 1)])
  /\ ABBA.get_output
       (ABBA.inputs_seq (ABBA.__init__ 1 4 1) [(1, 1); (2, 5); (3, 1); (4, 1)])
     = Some 1
  /\ In 1 (PyDict.values
             (ABBA.inputs
                (ABBA.inputs_seq (ABBA.__init__ 1 4 1)
                   [(1, 1); (2, 5); (3, 1); (4, 1)]))).
Proof.
  split; [lia|]. split; [intros E; discriminate E|]. split; [reflexivity|].
  apply (abba_decision_is_a_vote 1 4 1 [(1, 1); (2, 5); (3, 1); (4, 1)] 1).
  - lia.
  - intros E. discriminate E.
  - reflexivity.
Defined.

(** With [n = 1] and [t = 0] a single vote of 5 from sender 2 is decided by
    the coin fallback: the output is 1, which nobody voted. *)
Lemma abba_fallback_invents_a_value :
  ABBA.get_output (ABBA.inputs_seq (ABBA.__init__ 1 1 0) [(2, 5)]) = Some 1
  /\ PyDict.values (ABBA.inputs (ABBA.inputs_seq (ABBA.__init__ 1 1 0) [(2, 5)]))
     = [5].
Proof. split; reflexivity. Qed.

Lemma count_eq_all b (l : list (Z * Z)) :
  Forall (fun sv => snd sv = b) l ->
  count_eq b (map snd l) = Z.of_nat (length l)
  /\ forall b', b' <> b -> count_eq b' (map snd l) = 0.
Proof.
  unfold count_eq. induction 1 as [|[s v] l Hv _ [IH1 IH2]];
    [split; [reflexivity | intros; reflexivity]|].
  cbn [snd] in Hv. subst v. cbn [map snd filter]. split.
  - rewrite Z.eqb_refl. cbn [length]. lia.
  - intros b' Hb. destruct (b =? b') eqn:E; [apply Z.eqb_eq in E; congruence|].
    now apply IH2.
Qed.

Lemma abba_unanimous_prefix owner n t b : forall l,
  is_bit b -> 1 <= n - t ->
  NoDup (map fst l) -> Forall (fun sv => snd sv = b) l ->
  Z.of_nat (length l) <= n - t ->
  let a := ABBA.inputs_seq (ABBA.__init__ owner n t) l in
  ABBA.inputs a = l
  /\ ABBA._output a = if Z.of_nat (length l) <? n - t then None else Some b.
Proof.
  intros l Hb Hnt.
  induction l as [|[s v] l IH] using rev_ind; intros Hnd Hall Hlen a.
  - subst a. simpl. split; [reflexivity|].
    destruct (0 <? n - t) eqn:E; [reflexivity | apply Z.ltb_ge in E; lia].
  - rewrite map_app in Hnd. cbn [map fst] in Hnd.
    assert (Hnd' : NoDup (map fst l)) by (now apply NoDup_app_remove_r in Hnd).
    assert (Hs : ~ In s (map fst l)).
    { apply NoDup_remove_2 in Hnd. rewrite app_nil_r in Hnd. exact Hnd. }
    apply Forall_app in Hall. destruct Hall as [Hall Hv].
    pose proof (Forall_inv Hv) as Hv'. cbn [snd] in Hv'. subst v.
    rewrite length_app in Hlen. cbn [length] in Hlen.
    destruct (IH Hnd' Hall ltac:(lia)) as [Iin Iout].
    subst a. unfold ABBA.inputs_seq. rewrite fold_left_app.
    cbn [fold_left fst snd]. fold (ABBA.inputs_seq (ABBA.__init__ owner n t) l).
    set (a0 := ABBA.inputs_seq (ABBA.__init__ owner n t) l) in *.
    assert (Hc : PyDict.contains (ABBA.inputs a0) s = false).
    { apply dict_contains_false.
      destruct (PyDict.get (ABBA.inputs a0) s) as [u|] eqn:G; [|reflexivity].
      exfalso. apply dict_get_some_keys in G. apply Hs.
      unfold PyDict.keys in G. now rewrite Iin in G. }
    pose proof (input_inputs_new a0 s b Hc) as Hin. rewrite Iin in Hin.
    split; [exact Hin|].
    rewrite (input_output_new a0 s b Hc), Iout.
    replace (Z.of_nat (length l) <? n - t) with true
      by (symmetry; apply Z.ltb_lt; lia).
    pose proof (abba_inv_inputs_seq n t l _ (abba_inv_init owner n t)) as I.
    fold a0 in I. rewrite (inv_n _ _ _ I), (inv_t _ _ _ I).
    unfold ABBA.ones, ABBA.zeros, ABBA.total_votes, PyDict.len, PyDict.values.
    rewrite Hin.
    assert (Hall' : Forall (fun sv : Z * Z => snd sv = b) (l ++ [(s, b)]))
      by (apply Forall_app; split; [exact Hall | exact Hv]).
    destruct (count_eq_all b _ Hall') as [C1 C2].
    rewrite length_app in *. cbn [length] in *.
    unfold decision_rule.
    destruct (Z.of_nat (length l + 1) <? n - t) eqn:E.
    + apply Z.ltb_lt in E.
      pose proof (count_eq_nonneg 1 (map snd (l ++ [(s, b)]))).
      pose proof (count_eq_nonneg 0 (map snd (l ++ [(s, b)]))).
      assert (Hc1 : count_eq 1 (map snd (l ++ [(s, b)])) < n - t).
      { destruct (Z.eq_dec 1 b) as [<-|Hne]; [lia | rewrite C2 by exact Hne; lia]. }
      assert (Hc0 : count_eq 0 (map snd (l ++ [(s, b)])) < n - t).
      { destruct (Z.eq_dec 0 b) as [<-|Hne]; [lia | rewrite C2 by exact Hne; lia]. }
      replace (count_eq 1 (map snd (l ++ [(s, b)])) >=? n - t) with false
        by (symmetry; rewrite Z.geb_leb; apply Z.leb_gt; lia).
      replace (count_eq 0 (map snd (l ++ [(s, b)])) >=? n - t) with false
        by (symmetry; rewrite Z.geb_leb; apply Z.leb_gt; lia).
      replace (Z.of_nat (length l + 1) >=? n - t) with false
        by (symmetry; rewrite Z.geb_leb; apply Z.leb_gt; lia).
      reflexivity.
    + apply Z.ltb_ge in E. destruct Hb as [-> | ->].
      * rewrite (C2 1) by lia. rewrite C1.
        replace (0 >=? n - t) with false
          by (symmetry; rewrite Z.geb_leb; apply Z.leb_gt; lia).
        replace (Z.of_nat (length l + 1) >=? n - t) with true
          by (symmetry; apply Z.geb_le; lia).
        reflexivity.
      * rewrite C1.
        replace (Z.of_nat (length l + 1) >=? n - t) with true
          by (symmetry; apply Z.geb_le; lia).
        reflexivity.
Qed.

(** Property X16. Unanimity: when the first [n - t >= 1] inputs of an ABBA
    come from distinct senders and all carry the same bit [b], the
    instance decides [b], and keeps that decision whatever inputs
    follow. *)
Theorem abba_unanimous_votes (owner n t b : Z) (l1 l2 : list (Z * Z)) :
  b = 0 \/ b = 1 -> 1 <= n - t ->
  NoDup (map fst l1) -> Forall (fun sv => snd sv = b) l1 ->
  Z.of_nat (length l1) = n - t ->
  ABBA.get_output (ABBA.inputs_seq (ABBA.__init__ owner n t) (l1 ++ l2))
  = Some b.
Proof.
  intros Hb Hnt Hnd Hall Hlen. unfold ABBA.get_output, ABBA.inputs_seq.
  rewrite fold_left_app.
  apply (inputs_seq_output_stable l2).
  destruct (abba_unanimous_prefix owner n t b l1 Hb Hnt Hnd Hall ltac:(lia))
    as [_ Hout].
  unfold ABBA.inputs_seq in Hout. rewrite Hout.
  replace (Z.of_nat (length l1) <? n - t) with false
    by (symmetry; apply Z.ltb_ge; lia).
  reflexivity.
Qed.

Lemma abba_unanimous_votes_witness :
  (0 = 0 \/ 0 = 1) /\ 1 <= 4 - 1
  /\ NoDup (map fst [(2, 0); (3, 0); (4, 0)])
  /\ Forall (fun sv => snd sv = 0) [(2, 0); (3, 0); (4, 0)]
  /\ Z.of_nat (length [(2, 0); (3, 0); (4, 0)]) = 4 - 1
  /\ ABBA.get_output
       (ABBA.inputs_seq (ABBA.__init__ 1 4 1)
          ([(2, 0); (3, 0); (4, 0)] ++ [(1, 1)]))
     = Some 0.
Proof.
  assert (Hnd : NoDup (map fst [(2, 0); (3, 0); (4, 0)])).
  { simpl. repeat constructor; simpl; intuition discriminate. }
  assert (Hall : Forall (fun sv : Z * Z => snd sv = 0) [(2, 0); (3, 0); (4, 0)]).
  { repeat constructor. }
  split; [now left|]. split; [lia|]. split; [exact Hnd|].
  split; [exact Hall|]. split; [reflexivity|].
  apply (abba_unanimous_votes 1 4 1 0 [(2, 0); (3, 0); (4, 0)] [(1, 1)]);
    [now left | lia | exact Hnd | exact Hall | reflexivity].
Defined.

(** ** The coin of an ABBA *)

Lemma abba_coin_single_input a sender v :
  (ABBA.coin_requested a = false ->
   CommonCoin.coin_shares (ABBA.common_coin a) = []) ->
  PyDict.len (CommonCoin.coin_shares (ABBA.common_coin a)) <= 1 ->
  (ABBA.coin_requested (ABBA.input a sender v) = false ->
   CommonCoin.coin_shares (ABBA.common_coin (ABBA.input a sender v)) = [])
  /\ PyDict.len (CommonCoin.coin_shares
                   (ABBA.common_coin (ABBA.input a sender v))) <= 1.
Proof.
  intros Hf Hl.
  destruct (PyDict.contains (ABBA.inputs a) sender) eqn:E;
    [rewrite input_duplicate by exact E; now split|].
  destruct (input_fields_new a sender v E) as [_ [_ [-> ->]]].
  split; [discriminate|].
  destruct (ABBA.coin_requested a); [exact Hl|].
  destruct (contribute_share_fields (ABBA.common_coin a) sender 1)
    as [_ [_ ->]].
  rewrite Hf by reflexivity. unfold PyDict.len. simpl. lia.
Qed.

Lemma abba_coin_single_seq l : forall a,
  (ABBA.coin_requested a = false ->
   CommonCoin.coin_shares (ABBA.common_coin a) = []) ->
  PyDict.len (CommonCoin.coin_shares (ABBA.common_coin a)) <= 1 ->
  PyDict.len (CommonCoin.coin_shares
                (ABBA.common_coin (ABBA.inputs_seq a l))) <= 1.
Proof.
  induction l as [|[s v] l IH]; intros a Hf Hl; simpl; [exact Hl|].
  destruct (abba_coin_single_input a s v Hf Hl) as [Hf' Hl'].
  now apply IH.
Qed.

(** Property X17. The coin of an ABBA receives at most one share, the one
    contributed on the first input. For [t >= 1] it therefore never has a
    value and the coin branch of [_try_decide] is never taken: after any
    inputs the instance is decided exactly when it has at least one input
    and the ones or the zeros reach [n - t]. *)
Theorem abba_coin_never_fires (owner n t : Z) (l : list (Z * Z)) :
  1 <= t ->
  let a := ABBA.inputs_seq (ABBA.__init__ owner n t) l in
  PyDict.len (CommonCoin.coin_shares (ABBA.common_coin a)) <= 1
  /\ CommonCoin.has_coin_value (ABBA.common_coin a) = false
  /\ (ABBA.has_output a = true <->
      ABBA.inputs a <> []
      /\ (ABBA.ones a >= n - t \/ ABBA.zeros a >= n - t)).
Proof.
  intros Ht a.
  pose proof (abba_inv_inputs_seq n t l _ (abba_inv_init owner n t)) as I.
  fold a in I. split; [|split].
  - apply abba_coin_single_seq; [reflexivity | simpl; unfold PyDict.len; simpl; lia].
  - destruct (ABBA.inputs a) as [|p r] eqn:Ei.
    + destruct (inv_fresh _ _ _ I Ei) as [_ [_ ->]]. reflexivity.
    + assert (Hne : ABBA.inputs a <> []) by (rewrite Ei; discriminate).
      destruct (CommonCoin.has_coin_value (ABBA.common_coin a)) eqn:E;
        [|reflexivity].
      apply (inv_coin _ _ _ I Hne) in E. lia.
  - destruct (ABBA.inputs a) as [|p r] eqn:Ei.
    + destruct (inv_fresh _ _ _ I Ei) as [Ho _].
      unfold ABBA.has_output. rewrite Ho.
      split; [discriminate | intros [H _]; now contradiction H].
    + assert (Hne : ABBA.inputs a <> []) by (rewrite Ei; discriminate).
      rewrite <- Ei in *.
      rewrite (inv_output _ _ _ I Hne). unfold fires.
      split; [intros H; split; [exact Hne | lia] | intros [_ H]; lia].
Qed.

Lemma abba_coin_never_fires_witness :
  1 <= 1
  /\ PyDict.len
       (CommonCoin.coin_shares
          (ABBA.common_coin
             (ABBA.inputs_seq (ABBA.__init__ 1 4 1)
                [(1, 1); (2, 1); (3, 0); (4, 0)]))) <= 1
  /\ CommonCoin.has_coin_value
       (ABBA.common_coin
          (ABBA.inputs_seq (ABBA.__init__ 1 4 1)
             [(1, 1); (2, 1); (3, 0); (4, 0)])) = false
  /\ (ABBA.has_output
        (ABBA.inputs_seq (ABBA.__init__ 1 4 1)
           [(1, 1); (2, 1); (3, 0); (4, 0)]) = true <->
      ABBA.inputs
        (ABBA.inputs_seq (ABBA.__init__ 1 4 1)
           [(1, 1); (2, 1); (3, 0); (4, 0)]) <> []
      /\ (ABBA.ones
            (ABBA.inputs_seq (ABBA.__init__ 1 4 1)
               [(1, 1); (2, 1); (3, 0); (4, 0)]) >= 4 - 1
          \/ ABBA.zeros
               (ABBA.inputs_seq (ABBA.__init__ 1 4 1)
                  [(1, 1); (2, 1); (3, 0); (4, 0)]) >= 4 - 1)).
Proof.
  split; [lia|].
  apply (abba_coin_never_fires 1 4 1 [(1, 1); (2, 1); (3, 0); (4, 0)]). lia.
Defined.

(** * Methods as relations on states *)

Section Relational.
Context `{PyRandom}.
Variable R : world -> world -> Prop.
Hypothesis R_refl : forall w, R w w.
Hypothesis R_trans : forall w1 w2 w3, R w1 w2 -> R w2 w3 -> R w1 w3.
Hypothesis R_random : forall w g, R w (mkWorld (NODES w) g).

Lemma follows_ret {A} (a : A) : follows R (ret a).
Proof. intros w. apply R_refl. Qed.

Lemma follows_raise {A} (e : exn) : follows R (@raise _ A e).
Proof. intros w. apply R_refl. Qed.

Lemma follows_bind {A B} (m : M A) (f : A -> M B) :
  follows R m -> (forall a, follows R (f a)) -> follows R (bind m f).
Proof.
  intros Hm Hf w. unfold bind. specialize (Hm w).
  destruct (m w) as [[a|e] w']; simpl in *; [|exact Hm].
  eapply R_trans; [exact Hm | apply Hf].
Qed.

Lemma follows_for_each {A} (l : list A) (body : A -> M unit) :
  (forall a, In a l -> follows R (body a)) -> follows R (for_each l body).
Proof.
  induction l as [|a l IH]; intros Hb; simpl.
  - apply follows_ret.
  - apply follows_bind; [apply Hb; now left|].
    intros _. apply IH. intros b Hin. apply Hb. now right.
Qed.

Lemma follows_read {A} (i : Z) (k : node -> M A) :
  (forall w o, PyDict.get (NODES w) i = Some o -> R w (snd (k o w))) ->
  follows R (bind (get_node i) k).
Proof.
  intros Hk w. unfold bind, get_node.
  destruct (PyDict.get (NODES w) i) as [o|] eqn:E; simpl.
  - now apply Hk.
  - apply R_refl.
Qed.

Lemma follows_get_node (i : Z) : follows R (get_node i).
Proof.
  intros w. unfold get_node. destruct (PyDict.get (NODES w) i); apply R_refl.
Qed.

Lemma follows_node_ids : follows R node_ids.
Proof. intros w. apply R_refl. Qed.

Lemma follows_random_choice l : follows R (random_choice l).
Proof.
  intros w. unfold random_choice.
  destruct (rng_choice l (random w)) as [v g]. apply R_random.
Qed.

Lemma follows_ECEnc_M n k secret : follows R (ECEnc_M n k secret).
Proof.
  intros w. unfold ECEnc_M.
  destruct (ECEnc n k secret (random w)) as [r g]. apply R_random.
Qed.

End Relational.

Lemma update_node_at `{PyRandom} (w : world) (i : Z) (o : node)
    (f : node -> node) :
  PyDict.get (NODES w) i = Some o ->
  update_node i f w = (Ok tt, mkWorld (PyDict.set (NODES w) i (f o)) (random w)).
Proof. intros E. unfold update_node. now rewrite E. Qed.

Lemma get_node_at `{PyRandom} (w : world) (i : Z) (o : node) :
  PyDict.get (NODES w) i = Some o -> get_node i w = (Ok o, w).
Proof. intros E. unfold get_node. now rewrite E. Qed.

Lemma dict_keys_set_present {V} (d : dict V) k v u :
  PyDict.get d k = Some u -> PyDict.keys (PyDict.set d k v) = PyDict.keys d.
Proof.
  intros Hg. destruct (dict_keys_set d k v) as [E|[E _]]; [exact E | congruence].
Qed.

Lemma dict_contains_set {V} (d : dict V) k v j :
  PyDict.contains d j = true -> PyDict.contains (PyDict.set d k v) j = true.
Proof.
  unfold PyDict.contains. destruct (Z.eq_dec j k) as [->|Hne].
  - now rewrite dict_get_set_same.
  - now rewrite dict_get_set_other.
Qed.

(** * Votes and decisions are never taken back *)

Lemma abba_grows_refl a : abba_grows a a.
Proof. split; auto. Qed.

Lemma abba_grows_trans a1 a2 a3 :
  abba_grows a1 a2 -> abba_grows a2 a3 -> abba_grows a1 a3.
Proof.
  intros [A1 A2 A3 A4 A5] [B1 B2 B3 B4 B5]. split; try congruence; auto.
Qed.

Lemma try_decide_owner a : ABBA.owner (ABBA._try_decide a) = ABBA.owner a.
Proof.
  unfold ABBA._try_decide.
  repeat match goal with
         | |- context [match ?x with _ => _ end] => destruct x
         end; reflexivity.
Qed.

Lemma input_static a sender v :
  ABBA.owner (ABBA.input a sender v) = ABBA.owner a
  /\ ABBA.n (ABBA.input a sender v) = ABBA.n a
  /\ ABBA.t (ABBA.input a sender v) = ABBA.t a.
Proof.
  unfold ABBA.input. destruct (PyDict.contains (ABBA.inputs a) sender); [auto|].
  set (a2 := if ABBA.coin_requested _ then _ else _).
  rewrite try_decide_owner.
  destruct (try_decide_fields a2) as [-> [-> _]].
  subst a2. simpl. destruct (ABBA.coin_requested a); simpl; auto.
Qed.

Lemma abba_grows_input a sender v : abba_grows a (ABBA.input a sender v).
Proof.
  destruct (input_static a sender v) as [H1 [H2 H3]].
  split; auto.
  - intros s u. apply input_get_kept.
  - intros b. apply input_output_stable.
Qed.

Section Grows.
Context `{PyRandom}.
Variable sh : bool.

Lemma node_grows_refl o : node_grows sh o o.
Proof.
  split; auto. intros j a Ha. exists a. split; [exact Ha | apply abba_grows_refl].
Qed.

Lemma node_grows_trans o1 o2 o3 :
  node_grows sh o1 o2 -> node_grows sh o2 o3 -> node_grows sh o1 o3.
Proof.
  intros [A1 A2 A3 A4 A5 A6 A7 A8 A9 A10] [B1 B2 B3 B4 B5 B6 B7 B8 B9 B10].
  split; try congruence; auto.
  - intros Hs. rewrite B5, A5 by exact Hs. reflexivity.
  - intros j a Ha. destruct (A8 j a Ha) as [a' [Ha' G1]].
    destruct (B8 j a' Ha') as [a'' [Ha'' G2]].
    exists a''. split; [exact Ha'' | eapply abba_grows_trans; eauto].
Qed.

Lemma world_grows_refl w : world_grows sh w w.
Proof.
  split; [reflexivity|]. intros i o Ho. exists o.
  split; [exact Ho | apply node_grows_refl].
Qed.

Lemma world_grows_trans w1 w2 w3 :
  world_grows sh w1 w2 -> world_grows sh w2 w3 -> world_grows sh w1 w3.
Proof.
  intros [K1 N1] [K2 N2]. split; [congruence|].
  intros i o Ho. destruct (N1 i o Ho) as [o' [Ho' G1]].
  destruct (N2 i o' Ho') as [o'' [Ho'' G2]].
  exists o''. split; [exact Ho'' | eapply node_grows_trans; eauto].
Qed.

Lemma world_grows_random w g : world_grows sh w (mkWorld (NODES w) g).
Proof.
  split; [reflexivity|]. intros i o Ho. exists o.
  split; [exact Ho | apply node_grows_refl].
Qed.

Lemma world_grows_set w i o o' g :
  PyDict.get (NODES w) i = Some o -> node_grows sh o o' ->
  world_grows sh w (mkWorld (PyDict.set (NODES w) i o') g).
Proof.
  intros Hget Hg. split; cbn [NODES].
  - eapply dict_keys_set_present. exact Hget.
  - intros j oj Hj. destruct (Z.eq_dec j i) as [->|Hne].
    + rewrite dict_get_set_same. exists o'. split; [reflexivity|]. congruence.
    + rewrite dict_get_set_other by exact Hne. exists oj.
      split; [exact Hj | apply node_grows_refl].
Qed.

Lemma grows_update_node i (f : node -> node) :
  (forall o, node_grows sh o (f o)) -> follows (world_grows sh) (update_node i f).
Proof.
  intros Hf w. unfold update_node.
  destruct (PyDict.get (NODES w) i) as [o|] eqn:E; simpl.
  - exact (world_grows_set w i o (f o) (random w) E (Hf o)).
  - apply world_grows_refl.
Qed.

Lemma node_grows_set_vi o x : node_grows sh o (OciorABAStarNode.set_vi o x).
Proof.
  destruct (node_grows_refl o) as [A1 A2 A3 A4 A5 A6 A7 A8 A9 A10].
  split; auto.
Qed.

Lemma node_grows_set_pending o x :
  node_grows sh o (OciorABAStarNode.set_pending_shares o x).
Proof.
  destruct (node_grows_refl o) as [A1 A2 A3 A4 A5 A6 A7 A8 A9 A10].
  split; auto.
Qed.

Lemma node_grows_set_final o x :
  node_grows sh o (OciorABAStarNode.set_final_decision o x).
Proof.
  destruct (node_grows_refl o) as [A1 A2 A3 A4 A5 A6 A7 A8 A9 A10].
  split; auto.
Qed.

Lemma node_grows_set_complete o :
  node_grows sh o (OciorABAStarNode.set_protocol_complete o true).
Proof.
  destruct (node_grows_refl o) as [A1 A2 A3 A4 A5 A6 A7 A8 A9 A10].
  split; auto.
Qed.

Lemma node_grows_set_rbc o sender x :
  node_grows sh o
    (OciorABAStarNode.set_rbc_shares o
       (PyDict.set (OciorABAStarNode.rbc_shares o) sender x)).
Proof.
  destruct (node_grows_refl o) as [A1 A2 A3 A4 A5 A6 A7 A8 A9 A10].
  split; auto. cbn. intros j. apply dict_contains_set.
Qed.

Lemma node_grows_set_abba o j ab sender v :
  PyDict.get (OciorABAStarNode.abba o) j = Some ab ->
  node_grows sh o
    (OciorABAStarNode.set_abba o
       (PyDict.set (OciorABAStarNode.abba o) j (ABBA.input ab sender v))).
Proof.
  intros Hab.
  destruct (node_grows_refl o) as [A1 A2 A3 A4 A5 A6 A7 A8 A9 A10].
  split; auto; cbn.
  - eapply dict_keys_set_present. exact Hab.
  - intros k a Ha. destruct (Z.eq_dec k j) as [->|Hne].
    + rewrite dict_get_set_same. eexists. split; [reflexivity|].
      assert (a = ab) by congruence. subst a. apply abba_grows_input.
    + rewrite dict_get_set_other by exact Hne. exists a.
      split; [exact Ha | apply abba_grows_refl].
Qed.

Lemma node_grows_set_abba_out o j v :
  PyDict.contains (OciorABAStarNode.abba_out o) j = false ->
  node_grows sh o
    (OciorABAStarNode.set_abba_out o
       (PyDict.set (OciorABAStarNode.abba_out o) j v)).
Proof.
  intros Hc. apply dict_contains_false in Hc.
  destruct (node_grows_refl o) as [A1 A2 A3 A4 A5 A6 A7 A8 A9 A10].
  split; auto; cbn.
  intros k u Hk. destruct (Z.eq_dec k j) as [->|Hne]; [congruence|].
  now rewrite dict_get_set_other.
Qed.

Local Abbreviation grows := (follows (world_grows sh)).

Lemma grows_bind {A B} (m : M A) (f : A -> M B) :
  grows m -> (forall a, grows (f a)) -> grows (bind m f).
Proof. apply follows_bind. apply world_grows_trans. Qed.

Lemma grows_for_each {A} (l : list A) (body : A -> M unit) :
  (forall a, In a l -> grows (body a)) -> grows (for_each l body).
Proof.
  apply follows_for_each; [apply world_grows_refl | apply world_grows_trans].
Qed.

Lemma grows_read {A} (i : Z) (k : node -> M A) :
  (forall w o, PyDict.get (NODES w) i = Some o ->
               world_grows sh w (snd (k o w))) ->
  grows (bind (get_node i) k).
Proof. apply follows_read. apply world_grows_refl. Qed.

Lemma grows_abba_input i j sender v : grows (abba_input i j sender v).
Proof.
  unfold abba_input. apply grows_read. intros w o Hget.
  destruct (PyDict.get (OciorABAStarNode.abba o) j) as [ab|] eqn:E;
    [|apply world_grows_refl].
  rewrite (update_node_at w i o) by exact Hget. cbn [snd].
  eapply world_grows_set; [exact Hget | now apply node_grows_set_abba].
Qed.

Lemma grows__finalize self : grows (_finalize self).
Proof.
  unfold _finalize. apply grows_read. intros w o Hget.
  destruct (Z.of_nat (length (Aones o)) <? OciorABAStarNode.t o + 1).
  { apply grows_update_node. intros o'.
    eapply node_grows_trans;
      [apply node_grows_set_final | apply node_grows_set_complete]. }
  destruct (missing o) as [|m ms].
  2:{ apply grows_update_node. intros o'. apply node_grows_set_complete. }
  destruct (own_shares_at o (Bones o)) as [shares|]; [|apply world_grows_refl].
  destruct (ECDec _ _ shares) as [recovered|e]; [|apply world_grows_refl].
  apply grows_update_node. intros o'.
  eapply node_grows_trans;
    [apply node_grows_set_final | apply node_grows_set_complete].
Qed.

Lemma grows__inject_default_votes self : grows (_inject_default_votes self).
Proof.
  unfold _inject_default_votes. apply grows_read. intros w o Hget.
  destruct (PyDict.len (OciorABAStarNode.abba_out o) >? 0);
    [|apply world_grows_refl].
  apply grows_for_each. intros j _.
  apply grows_read. intros w' o' Hget'.
  destruct (PyDict.contains (OciorABAStarNode.abba_out o') j);
    [apply world_grows_refl | apply grows_abba_input].
Qed.

Lemma grows__process_abba self : grows (_process_abba self).
Proof.
  unfold _process_abba. apply grows_read. intros w o Hget.
  revert w Hget. intros w _. revert w.
  apply grows_bind.
  - apply grows_for_each. intros jab _.
    apply grows_read. intros w o' Hget'.
    destruct (negb (PyDict.contains (OciorABAStarNode.abba_out o') (fst jab)))
      eqn:Ec; cbn [andb]; [|apply world_grows_refl].
    destruct (ABBA.has_output (snd jab)); [|apply world_grows_refl].
    destruct (ABBA.get_output (snd jab)) as [v|]; [|apply world_grows_refl].
    rewrite (update_node_at w self o') by exact Hget'. cbn [snd].
    eapply world_grows_set; [exact Hget'|].
    apply node_grows_set_abba_out. now apply negb_true_iff in Ec.
  - intros _. apply grows_bind; [apply grows__inject_default_votes|].
    intros _. apply grows_read. intros w o' Hget'.
    destruct (PyDict.len (OciorABAStarNode.abba_out o') =? OciorABAStarNode.n o');
      [apply grows__finalize | apply world_grows_refl].
Qed.

Lemma grows__process_share self sender sharev :
  grows (_process_share self sender sharev).
Proof.
  unfold _process_share. apply grows_read. intros w o Hget.
  revert w Hget. intros w _. revert w. destruct sharev as [x_j y_jj].
  destruct (index (OciorABAStarNode._shares o) (sender - 1)) as [[x_i_j y_i_j]|];
    [|apply follows_raise, world_grows_refl].
  destruct (negb (x_i_j =? x_j)); [apply follows_raise, world_grows_refl|].
  apply grows_bind.
  { destruct (OciorABAStarNode.is_byzantine o).
    - apply follows_random_choice. apply world_grows_random.
    - apply follows_ret, world_grows_refl. }
  intros vote. apply grows_bind.
  { apply grows_update_node. intros o'. apply node_grows_set_vi. }
  intros _. apply grows_bind; [apply follows_node_ids, world_grows_refl|].
  intros ids. apply grows_bind.
  { apply grows_for_each. intros i _. apply grows_abba_input. }
  intros _. apply grows__process_abba.
Qed.

Lemma grows_on_rbc_delivery self sender sharev :
  grows (on_rbc_delivery self sender sharev).
Proof.
  unfold on_rbc_delivery. apply grows_bind.
  { apply grows_update_node. intros o'. apply node_grows_set_rbc. }
  intros _. apply grows_read. intros w o Hget.
  destruct (OciorABAStarNode._shares o).
  - apply grows_update_node. intros o'. apply node_grows_set_pending.
  - apply grows__process_share.
Qed.

Lemma grows_broadcast owner sharev : grows (broadcast owner sharev).
Proof.
  unfold broadcast. apply grows_bind; [apply follows_node_ids, world_grows_refl|].
  intros ids. apply grows_for_each. intros i _. apply grows_on_rbc_delivery.
Qed.

Lemma grows_poll i : grows (poll i).
Proof.
  unfold poll. apply grows_read. intros w o Hget.
  destruct (OciorABAStarNode.protocol_complete o);
    [apply world_grows_refl | apply grows__process_abba].
Qed.

(** What [propose] runs after it has stored the shares. *)
Lemma grows_propose_tail (self : Z) (o : node) (x_i y_i : Z) :
  grows
    (bind (broadcast (OciorABAStarNode.id o) (x_i, y_i)) (fun _ =>
     bind (get_node self) (fun o =>
     bind (for_each (OciorABAStarNode.pending_shares o) (fun p =>
             _process_share self (fst p) (snd p))) (fun _ =>
     update_node self (fun o => OciorABAStarNode.set_pending_shares o []))))).
Proof.
  apply grows_bind; [apply grows_broadcast|]. intros _.
  apply grows_read. intros w o' Hget'.
  revert w Hget'. intros w _. revert w.
  apply grows_bind.
  { apply grows_for_each. intros p _. apply grows__process_share. }
  intros _. apply grows_update_node. intros o1. apply node_grows_set_pending.
Qed.

End Grows.

Lemma node_grows_weaken sh o o' : node_grows sh o o' -> node_grows false o o'.
Proof.
  intros [A1 A2 A3 A4 A5 A6 A7 A8 A9 A10]. split; auto. discriminate.
Qed.

Lemma world_grows_weaken `{PyRandom} sh w w' :
  world_grows sh w w' -> world_grows false w w'.
Proof.
  intros [K N]. split; [exact K|]. intros i o Ho.
  destruct (N i o Ho) as [o' [Ho' G]]. exists o'.
  split; [exact Ho' | eapply node_grows_weaken; exact G].
Qed.

Lemma node_grows_set_shares o x :
  node_grows false o (OciorABAStarNode.set__shares o x).
Proof.
  destruct (node_grows_refl false o) as [A1 A2 A3 A4 A5 A6 A7 A8 A9 A10].
  split; auto. discriminate.
Qed.

(** [propose], from a state where [self] is registered: the state after the
    shares were stored, and the rest of the method. *)
Lemma propose_unfold `{PyRandom} (w : world) (self secret : Z) (o : node) :
  PyDict.get (NODES w) self = Some o ->
  let s' := if OciorABAStarNode.is_byzantine o
            then (secret + OciorABAStarNode.id o * 1000) mod _PRIME
            else secret in
  propose self secret w =
  match ECEnc (OciorABAStarNode.n o) (OciorABAStarNode.t o + 1) s' (random w)
  with
  | (Raise e, g) => (Raise e, mkWorld (NODES w) g)
  | (Ok shares, g) =>
    let w1 := mkWorld (PyDict.set (NODES w) self
                         (OciorABAStarNode.set__shares o shares)) g in
    match index shares (OciorABAStarNode.id o - 1) with
    | None => (Raise IndexError, w1)
    | Some (x_i, y_i) =>
      bind (broadcast (OciorABAStarNode.id o) (x_i, y_i)) (fun _ =>
      bind (get_node self) (fun o =>
      bind (for_each (OciorABAStarNode.pending_shares o) (fun p =>
              _process_share self (fst p) (snd p))) (fun _ =>
      update_node self (fun o => OciorABAStarNode.set_pending_shares o []))))
      w1
    end
  end.
Proof.
  intros Hget s'. unfold propose. unfold bind at 1.
  rewrite (get_node_at w self o Hget). unfold bind at 1.
  assert (E : (if OciorABAStarNode.is_byzantine o
               then ECEnc_M (OciorABAStarNode.n o) (OciorABAStarNode.t o + 1)
                      ((secret + OciorABAStarNode.id o * 1000) mod _PRIME)
               else ECEnc_M (OciorABAStarNode.n o) (OciorABAStarNode.t o + 1)
                      secret) w
              = let (r, g) := ECEnc (OciorABAStarNode.n o)
                                (OciorABAStarNode.t o + 1) s' (random w) in
                (r, mkWorld (NODES w) g)).
  { subst s'. unfold ECEnc_M. destruct (OciorABAStarNode.is_byzantine o);
      reflexivity. }
  rewrite E.
  destruct (ECEnc (OciorABAStarNode.n o) (OciorABAStarNode.t o + 1) s' (random w))
    as [[shares|e] g]; [|reflexivity].
  unfold bind at 1.
  rewrite (update_node_at (mkWorld (NODES w) g) self o) by exact Hget.
  cbn [NODES random].
  destruct (index shares (OciorABAStarNode.id o - 1)) as [[x_i y_i]|];
    reflexivity.
Qed.

Lemma grows_propose `{PyRandom} self secret :
  follows (world_grows false) (propose self secret).
Proof.
  intros w. destruct (PyDict.get (NODES w) self) as [o|] eqn:Hget.
  2:{ unfold propose, bind, get_node. rewrite Hget. apply world_grows_refl. }
  rewrite (propose_unfold w self secret o Hget). cbv zeta.
  destruct (ECEnc _ _ _ (random w)) as [[shares|e] g];
    [|apply world_grows_random].
  assert (G1 : world_grows false w
                 (mkWorld (PyDict.set (NODES w) self
                             (OciorABAStarNode.set__shares o shares)) g)).
  { eapply world_grows_set; [exact Hget | apply node_grows_set_shares]. }
  destruct (index shares (OciorABAStarNode.id o - 1)) as [[x_i y_i]|];
    [|exact G1].
  eapply world_grows_trans; [exact G1|].
  apply grows_propose_tail.
Qed.

Lemma grows_run `{PyRandom} cs :
  Forall no_create cs -> follows (world_grows false) (run cs).
Proof.
  intros Hcs. unfold run.
  apply follows_for_each; [apply world_grows_refl | apply world_grows_trans|].
  intros c Hin. rewrite Forall_forall in Hcs. specialize (Hcs c Hin).
  destruct c as [node_id n t b|i secret|i]; cbn [do_call].
  - contradiction.
  - apply grows_propose.
  - apply grows_poll.
Qed.

(** Property X18. Votes and decisions are never taken back. Over any
    sequence of [propose] calls and driver polls, from any state and
    whether or not a call raises, the registry keeps its nodes and, for
    every node: a recorded ABBA output [abba_out[j]] keeps its value, every
    ABBA instance keeps its recorded votes and its decision, a received
    broadcast stays recorded, and a complete node stays complete. *)
Theorem run_keeps_decisions `{PyRandom} (cs : list call) (w : world) :
  Forall no_create cs ->
  PyDict.keys (NODES (snd (run cs w))) = PyDict.keys (NODES w)
  /\ forall i o,
       PyDict.get (NODES w) i = Some o ->
       exists o',
         PyDict.get (NODES (snd (run cs w))) i = Some o'
         /\ node_grows false o o'.
Proof. intros Hcs. exact (grows_run cs Hcs w). Qed.

Lemma run_keeps_decisions_witness :
  Forall no_create [Propose 1 5; Poll 2]
  /\ PyDict.keys
       (NODES (snd (@run constant_rng [Propose 1 5; Poll 2]
                      (snd (@run constant_rng
                              [Create 1 2 0 false; Create 2 2 0 false]
                              (@start constant_rng tt))))))
     = PyDict.keys
         (NODES (snd (@run constant_rng
                        [Create 1 2 0 false; Create 2 2 0 false]
                        (@start constant_rng tt))))
  /\ forall i o,
       PyDict.get
         (NODES (snd (@run constant_rng
                        [Create 1 2 0 false; Create 2 2 0 false]
                        (@start constant_rng tt)))) i = Some o ->
       exists o',
         PyDict.get
           (NODES (snd (@run constant_rng [Propose 1 5; Poll 2]
                          (snd (@run constant_rng
                                  [Create 1 2 0 false; Create 2 2 0 false]
                                  (@start constant_rng tt)))))) i = Some o'
         /\ node_grows false o o'.
Proof.
  assert (Hcs : Forall no_create [Propose 1 5; Poll 2])
    by (repeat constructor).
  split; [exact Hcs|].
  exact (@run_keeps_decisions constant_rng [Propose 1 5; Poll 2] _ Hcs).
Defined.

(** * Recorded outputs agree with the ABBA instances *)

Lemma abba_wf_init owner n t : abba_wf n t (ABBA.__init__ owner n t).
Proof.
  split.
  - apply abba_inv_init.
  - apply coin_bits_init.
  - intros b Hb. discriminate.
Qed.

Lemma abba_wf_input n t a sender v :
  abba_wf n t a -> abba_wf n t (ABBA.input a sender v).
Proof.
  intros [W1 W2 W3]. split.
  - now apply abba_inv_input.
  - now apply abba_coin_input.
  - now apply abba_output_bit_input.
Qed.

Lemma length_range a b : length (range a b) = Z.to_nat (b - a).
Proof. unfold range. now rewrite length_map, length_seq. Qed.

Lemma NoDup_map_injective {A B} (f : A -> B) (l : list A) :
  (forall x y, f x = f y -> x = y) -> NoDup l -> NoDup (map f l).
Proof.
  intros Hf. induction 1 as [|x l Hx _ IH]; cbn [map]; constructor.
  - intros Hin. apply in_map_iff in Hin. destruct Hin as [y [Hy Hin]].
    apply Hf in Hy. now subst y.
  - exact IH.
Qed.

Lemma NoDup_range a b : NoDup (range a b).
Proof.
  unfold range. apply NoDup_map_injective.
  - intros i j Hij. lia.
  - apply seq_NoDup.
Qed.

Lemma dict_keys_get {V} (d : dict V) k :
  In k (PyDict.keys d) -> exists v, PyDict.get d k = Some v.
Proof.
  intros Hin. destruct (PyDict.get d k) as [v|] eqn:E; [now exists v|].
  exfalso. revert Hin. now apply dict_get_none_keys.
Qed.

Lemma dict_in_get {V} (d : dict V) k v :
  NoDup (PyDict.keys d) -> In (k, v) d -> PyDict.get d k = Some v.
Proof.
  unfold PyDict.keys. induction d as [|[k' v'] d IH]; intros Hnd Hin;
    [contradiction|].
  cbn [map fst] in Hnd. inversion Hnd as [|? ? Hk Hnd']; subst.
  cbn [PyDict.get]. destruct Hin as [E|Hin].
  - injection E as -> ->. now rewrite Z.eqb_refl.
  - destruct (k =? k') eqn:E.
    + apply Z.eqb_eq in E. subst k'. exfalso. apply Hk.
      change k with (fst (k, v)). now apply in_map.
    + now apply IH.
Qed.

Lemma dict_get_map_graph {V} (f : Z -> V) (l : list Z) j v :
  PyDict.get (map (fun i => (i, f i)) l) j = Some v -> v = f j /\ In j l.
Proof.
  induction l as [|i l IH]; cbn [map PyDict.get]; [discriminate|].
  destruct (j =? i) eqn:E.
  - apply Z.eqb_eq in E. subst i. intros Hv. injection Hv as <-.
    split; [reflexivity | now left].
  - intros Hv. destruct (IH Hv) as [-> Hin]. split; [reflexivity | now right].
Qed.

Lemma dict_len_set_absent {V} (d : dict V) k v :
  PyDict.get d k = None -> PyDict.len (PyDict.set d k v) = PyDict.len d + 1.
Proof.
  intros Hg. rewrite dict_set_absent by exact Hg.
  unfold PyDict.len. rewrite length_app. cbn [length]. lia.
Qed.

(** A node that has recorded [n] outputs has one for every instance. *)
Lemma node_wf_outputs_full o j :
  node_wf o ->
  PyDict.len (OciorABAStarNode.abba_out o) = OciorABAStarNode.n o ->
  In j (PyDict.keys (OciorABAStarNode.abba o)) ->
  In j (PyDict.keys (OciorABAStarNode.abba_out o)).
Proof.
  intros [W1 W2 W3 W4 W5 W6] Hlen Hj.
  assert (Hincl : incl (PyDict.keys (OciorABAStarNode.abba o))
                       (PyDict.keys (OciorABAStarNode.abba_out o)));
    [|exact (Hincl j Hj)].
  apply NoDup_length_incl; [exact W4| |].
  - rewrite W1, length_range. unfold PyDict.len in Hlen.
    unfold PyDict.keys. rewrite length_map. lia.
  - intros k Hk. apply dict_keys_get in Hk. destruct Hk as [v Hv].
    destruct (W3 k v Hv) as [a [Ha _]].
    eapply dict_get_some_keys. exact Ha.
Qed.

Section Wf.
Context `{PyRandom}.

Lemma keeps_wf_refl w : keeps_wf w w.
Proof. intros Hw. exact Hw. Qed.

Lemma keeps_wf_trans w1 w2 w3 : keeps_wf w1 w2 -> keeps_wf w2 w3 -> keeps_wf w1 w3.
Proof. intros H1 H2 Hw. apply H2, H1, Hw. Qed.

Lemma keeps_wf_random w g : keeps_wf w (mkWorld (NODES w) g).
Proof. intros Hw i o Ho. exact (Hw i o Ho). Qed.

Lemma world_wf_set w i o g :
  world_wf w -> node_wf o -> world_wf (mkWorld (PyDict.set (NODES w) i o) g).
Proof.
  intros Hw Ho j oj Hj. cbn [NODES] in Hj.
  destruct (Z.eq_dec j i) as [->|Hne].
  - rewrite dict_get_set_same in Hj. injection Hj as <-. exact Ho.
  - rewrite dict_get_set_other in Hj by exact Hne. exact (Hw j oj Hj).
Qed.

Local Abbreviation wf_kept := (follows keeps_wf).

Lemma wf_bind {A B} (m : M A) (f : A -> M B) :
  wf_kept m -> (forall a, wf_kept (f a)) -> wf_kept (bind m f).
Proof. apply follows_bind. apply keeps_wf_trans. Qed.

Lemma wf_for_each {A} (l : list A) (body : A -> M unit) :
  (forall a, In a l -> wf_kept (body a)) -> wf_kept (for_each l body).
Proof. apply follows_for_each; [apply keeps_wf_refl | apply keeps_wf_trans]. Qed.

Lemma wf_read {A} (i : Z) (k : node -> M A) :
  (forall w o, PyDict.get (NODES w) i = Some o -> keeps_wf w (snd (k o w))) ->
  wf_kept (bind (get_node i) k).
Proof. apply follows_read. apply keeps_wf_refl. Qed.

Lemma wf_update_node i (f : node -> node) :
  (forall o, node_wf o -> node_wf (f o)) -> wf_kept (update_node i f).
Proof.
  intros Hf w Hw. unfold update_node.
  destruct (PyDict.get (NODES w) i) as [o|] eqn:E; simpl; [|exact Hw].
  apply world_wf_set; [exact Hw | apply Hf; exact (Hw i o E)].
Qed.

Lemma node_wf_set_vi o x : node_wf o -> node_wf (OciorABAStarNode.set_vi o x).
Proof. intros [W1 W2 W3 W4 W5 W6]. split; assumption. Qed.

Lemma node_wf_set_pending o x :
  node_wf o -> node_wf (OciorABAStarNode.set_pending_shares o x).
Proof. intros [W1 W2 W3 W4 W5 W6]. split; assumption. Qed.

Lemma node_wf_set_rbc o x :
  node_wf o -> node_wf (OciorABAStarNode.set_rbc_shares o x).
Proof. intros [W1 W2 W3 W4 W5 W6]. split; assumption. Qed.

Lemma node_wf_set_shares o x :
  node_wf o -> node_wf (OciorABAStarNode.set__shares o x).
Proof. intros [W1 W2 W3 W4 W5 W6]. split; assumption. Qed.

Lemma node_wf_new node_id n t b : node_wf (OciorABAStarNode.new node_id n t b).
Proof.
  split; cbn.
  - unfold PyDict.keys. rewrite map_map. cbn [fst]. apply map_id.
  - intros j a Ha.
    apply (dict_get_map_graph (fun j => ABBA.__init__ j n t)) in Ha.
    destruct Ha as [-> _]. apply abba_wf_init.
  - intros j v Hv. discriminate.
  - constructor.
  - discriminate.
  - discriminate.
Qed.

Lemma node_wf_set_abba o j ab sender v :
  node_wf o -> PyDict.get (OciorABAStarNode.abba o) j = Some ab ->
  node_wf (OciorABAStarNode.set_abba o
             (PyDict.set (OciorABAStarNode.abba o) j (ABBA.input ab sender v))).
Proof.
  intros [W1 W2 W3 W4 W5 W6] Hab. split; cbn; try assumption.
  - rewrite <- W1. eapply dict_keys_set_present. exact Hab.
  - intros k a. destruct (Z.eq_dec k j) as [->|Hne].
    + rewrite dict_get_set_same. intros E. injection E as <-.
      apply abba_wf_input. exact (W2 j ab Hab).
    + rewrite dict_get_set_other by exact Hne. apply W2.
  - intros k u Hk. destruct (W3 k u Hk) as [a [Ha Ho]].
    destruct (Z.eq_dec k j) as [->|Hne].
    + rewrite dict_get_set_same. eexists. split; [reflexivity|].
      assert (a = ab) by congruence. subst a. now apply input_output_stable.
    + rewrite dict_get_set_other by exact Hne. now exists a.
Qed.

Lemma node_wf_set_abba_out o j a v :
  node_wf o ->
  PyDict.contains (OciorABAStarNode.abba_out o) j = false ->
  PyDict.get (OciorABAStarNode.abba o) j = Some a ->
  ABBA._output a = Some v ->
  node_wf (OciorABAStarNode.set_abba_out o
             (PyDict.set (OciorABAStarNode.abba_out o) j v)).
Proof.
  intros Ho Hc Ha Hv. pose proof Ho as [W1 W2 W3 W4 W5 W6].
  split; cbn; try assumption.
  - intros k u. destruct (Z.eq_dec k j) as [->|Hne].
    + rewrite dict_get_set_same. intros E. injection E as <-. now exists a.
    + rewrite dict_get_set_other by exact Hne. apply W3.
  - now apply dict_keys_set_nodup.
  - intros Hcomp. exfalso. specialize (W5 Hcomp).
    assert (Hj : In j (PyDict.keys (OciorABAStarNode.abba_out o))).
    { apply (node_wf_outputs_full o j Ho W5).
      eapply dict_get_some_keys. exact Ha. }
    apply dict_keys_get in Hj. destruct Hj as [u Hu].
    apply dict_contains_false in Hc. congruence.
Qed.

Lemma wf_abba_input i j sender v : wf_kept (abba_input i j sender v).
Proof.
  unfold abba_input. apply wf_read. intros w o Hget Hw.
  destruct (PyDict.get (OciorABAStarNode.abba o) j) as [ab|] eqn:E;
    [|exact Hw].
  rewrite (update_node_at w i o) by exact Hget. cbn [snd].
  apply world_wf_set; [exact Hw|].
  apply node_wf_set_abba; [exact (Hw i o Hget) | exact E].
Qed.

Lemma finalize_wf w self o :
  PyDict.get (NODES w) self = Some o ->
  PyDict.len (OciorABAStarNode.abba_out o) = OciorABAStarNode.n o ->
  keeps_wf w (snd (_finalize self w)).
Proof.
  intros Hget Hlen Hw. pose proof (Hw self o Hget) as [W1 W2 W3 W4 W5 W6].
  assert (Hdone : forall x,
            node_wf (OciorABAStarNode.set_protocol_complete
                       (OciorABAStarNode.set_final_decision o x) true)).
  { intros x. split; cbn; auto. }
  unfold _finalize, bind. rewrite (get_node_at w self o Hget).
  destruct (Z.of_nat (length (Aones o)) <? OciorABAStarNode.t o + 1).
  { rewrite (update_node_at w self o) by exact Hget. cbn [snd].
    apply world_wf_set; [exact Hw | apply Hdone]. }
  destruct (missing o) as [|m ms].
  2:{ rewrite (update_node_at w self o) by exact Hget. cbn [snd].
      apply world_wf_set; [exact Hw|]. split; cbn; auto. }
  destruct (own_shares_at o (Bones o)) as [shares|]; [|exact Hw].
  destruct (ECDec _ _ shares) as [recovered|e]; [|exact Hw].
  rewrite (update_node_at w self o) by exact Hget. cbn [snd].
  apply world_wf_set; [exact Hw | apply Hdone].
Qed.

Lemma wf__inject_default_votes self : wf_kept (_inject_default_votes self).
Proof.
  unfold _inject_default_votes. apply wf_read. intros w o Hget.
  destruct (PyDict.len (OciorABAStarNode.abba_out o) >? 0);
    [|apply keeps_wf_refl].
  apply wf_for_each. intros j _.
  apply wf_read. intros w' o' Hget'.
  destruct (PyDict.contains (OciorABAStarNode.abba_out o') j);
    [apply keeps_wf_refl | apply wf_abba_input].
Qed.

Lemma keeps_wf_abba_refl self ab0 w : keeps_wf_abba self ab0 w w.
Proof. intros Hw. exact Hw. Qed.

Lemma keeps_wf_abba_trans self ab0 w1 w2 w3 :
  keeps_wf_abba self ab0 w1 w2 -> keeps_wf_abba self ab0 w2 w3 ->
  keeps_wf_abba self ab0 w1 w3.
Proof. intros H1 H2 Hw. apply H2, H1, Hw. Qed.

(** The loop of [_process_abba] that records the outputs. *)
Lemma wf_record_outputs self ab0 (jab : Z * ABBA.obj) :
  In jab ab0 ->
  follows (keeps_wf_abba self ab0)
    (bind (get_node self) (fun o =>
       if negb (PyDict.contains (OciorABAStarNode.abba_out o) (fst jab))
          && ABBA.has_output (snd jab)
       then
         match ABBA.get_output (snd jab) with
         | Some v =>
           update_node self (fun o =>
             OciorABAStarNode.set_abba_out o
               (PyDict.set (OciorABAStarNode.abba_out o) (fst jab) v))
         | None => ret tt
         end
       else ret tt)).
Proof.
  intros Hin. apply follows_read; [apply keeps_wf_abba_refl|].
  intros w o Hget [Hw Hab].
  rewrite Hget in Hab. cbn [option_map] in Hab. injection Hab as Hab.
  assert (Hkeep : world_wf w
                  /\ option_map OciorABAStarNode.abba (PyDict.get (NODES w) self)
                     = Some ab0)
    by (split; [exact Hw | rewrite Hget; cbn; now rewrite Hab]).
  destruct (negb (PyDict.contains (OciorABAStarNode.abba_out o) (fst jab)))
    eqn:Ec; cbn [andb]; [|exact Hkeep].
  destruct (ABBA.has_output (snd jab)); [|exact Hkeep].
  destruct (ABBA.get_output (snd jab)) as [v|] eqn:Ev; [|exact Hkeep].
  rewrite (update_node_at w self o) by exact Hget. cbn [snd NODES].
  pose proof (Hw self o Hget) as Ho.
  split.
  - apply world_wf_set; [exact Hw|].
    apply (node_wf_set_abba_out o (fst jab) (snd jab) v Ho).
    + now apply negb_true_iff in Ec.
    + rewrite Hab. apply dict_in_get.
      * rewrite <- Hab, (wf_abba_keys o Ho). apply NoDup_range.
      * now destruct jab.
    + exact Ev.
  - rewrite dict_get_set_same. cbn. now rewrite Hab.
Qed.

Lemma wf__process_abba self : wf_kept (_process_abba self).
Proof.
  unfold _process_abba. apply wf_read. intros w o Hget Hw.
  unfold bind at 1.
  pose proof (follows_for_each (keeps_wf_abba self (OciorABAStarNode.abba o))
                (keeps_wf_abba_refl self _) (keeps_wf_abba_trans self _)
                (PyDict.items (OciorABAStarNode.abba o)) _
                (fun jab Hin => wf_record_outputs self _ jab Hin) w) as Hloop.
  destruct (for_each (PyDict.items (OciorABAStarNode.abba o)) _ w)
    as [[u|e] w1] eqn:El; cbn [snd] in Hloop.
  2:{ cbn [snd]. apply Hloop. split; [exact Hw | now rewrite Hget]. }
  assert (Hw1 : world_wf w1)
    by (apply Hloop; split; [exact Hw | now rewrite Hget]).
  revert Hw1. generalize w1. clear.
  apply wf_bind; [apply wf__inject_default_votes|].
  intros _. apply wf_read. intros w o' Hget'.
  destruct (PyDict.len (OciorABAStarNode.abba_out o') =? OciorABAStarNode.n o')
    eqn:E; [|apply keeps_wf_refl].
  apply Z.eqb_eq in E. now apply (finalize_wf w self o').
Qed.

Lemma wf__process_share self sender sharev :
  wf_kept (_process_share self sender sharev).
Proof.
  unfold _process_share. apply wf_read. intros w o Hget.
  revert w Hget. intros w _. revert w. destruct sharev as [x_j y_jj].
  destruct (index (OciorABAStarNode._shares o) (sender - 1)) as [[x_i_j y_i_j]|];
    [|apply follows_raise, keeps_wf_refl].
  destruct (negb (x_i_j =? x_j)); [apply follows_raise, keeps_wf_refl|].
  apply wf_bind.
  { destruct (OciorABAStarNode.is_byzantine o).
    - apply follows_random_choice. apply keeps_wf_random.
    - apply follows_ret, keeps_wf_refl. }
  intros vote. apply wf_bind.
  { apply wf_update_node. intros o'. apply node_wf_set_vi. }
  intros _. apply wf_bind; [apply follows_node_ids, keeps_wf_refl|].
  intros ids. apply wf_bind.
  { apply wf_for_each. intros i _. apply wf_abba_input. }
  intros _. apply wf__process_abba.
Qed.

Lemma wf_on_rbc_delivery self sender sharev :
  wf_kept (on_rbc_delivery self sender sharev).
Proof.
  unfold on_rbc_delivery. apply wf_bind.
  { apply wf_update_node. intros o'. apply node_wf_set_rbc. }
  intros _. apply wf_read. intros w o Hget.
  destruct (OciorABAStarNode._shares o).
  - apply wf_update_node. intros o'. apply node_wf_set_pending.
  - apply wf__process_share.
Qed.

Lemma wf_broadcast owner sharev : wf_kept (broadcast owner sharev).
Proof.
  unfold broadcast. apply wf_bind; [apply follows_node_ids, keeps_wf_refl|].
  intros ids. apply wf_for_each. intros i _. apply wf_on_rbc_delivery.
Qed.

Lemma wf_poll i : wf_kept (poll i).
Proof.
  unfold poll. apply wf_read. intros w o Hget.
  destruct (OciorABAStarNode.protocol_complete o);
    [apply keeps_wf_refl | apply wf__process_abba].
Qed.

Lemma wf_propose self secret : wf_kept (propose self secret).
Proof.
  intros w. destruct (PyDict.get (NODES w) self) as [o|] eqn:Hget.
  2:{ unfold propose, bind, get_node. rewrite Hget. apply keeps_wf_refl. }
  rewrite (propose_unfold w self secret o Hget). cbv zeta.
  destruct (ECEnc _ _ _ (random w)) as [[shares|e] g];
    [|apply keeps_wf_random].
  assert (G1 : keeps_wf w
                 (mkWorld (PyDict.set (NODES w) self
                             (OciorABAStarNode.set__shares o shares)) g)).
  { intros Hw. apply world_wf_set; [exact Hw|].
    apply node_wf_set_shares. exact (Hw self o Hget). }
  destruct (index shares (OciorABAStarNode.id o - 1)) as [[x_i y_i]|];
    [|exact G1].
  eapply keeps_wf_trans; [exact G1|].
  generalize (mkWorld (PyDict.set (NODES w) self
                         (OciorABAStarNode.set__shares o shares)) g).
  apply wf_bind; [apply wf_broadcast|]. intros _.
  apply wf_read. intros w' o' Hget'.
  revert w' Hget'. intros w' _. revert w'.
  apply wf_bind.
  { apply wf_for_each. intros p _. apply wf__process_share. }
  intros _. apply wf_update_node. intros o1. apply node_wf_set_pending.
Qed.

Lemma wf___init__ node_id n t b : wf_kept (__init__ node_id n t b).
Proof.
  intros w Hw. unfold __init__. cbn [snd].
  apply world_wf_set; [exact Hw | apply node_wf_new].
Qed.

Lemma wf_run cs : wf_kept (run cs).
Proof.
  unfold run. apply wf_for_each. intros c _.
  destruct c as [node_id n t b|i secret|i]; cbn [do_call].
  - apply wf___init__.
  - apply wf_propose.
  - apply wf_poll.
Qed.

End Wf.

(** Property X19. In every state reached from the empty registry by
    constructions, [propose] calls and driver polls, whether or not a call
    raised, every node is consistent: a recorded output [abba_out[j]] is
    0 or 1, has [1 <= j <= n] and is the decision of the node's own ABBA
    instance [j]; a node that is complete has recorded all [n] outputs;
    and a node that holds a final decision is complete. *)
Theorem reachable_nodes_consistent `{PyRandom} (g : rng) (cs : list call)
    (i : Z) (o : node) :
  PyDict.get (NODES (snd (run cs (start g)))) i = Some o ->
  (forall j v,
     PyDict.get (OciorABAStarNode.abba_out o) j = Some v ->
     (v = 0 \/ v = 1) /\ 1 <= j <= OciorABAStarNode.n o
     /\ exists a, PyDict.get (OciorABAStarNode.abba o) j = Some a
                  /\ ABBA.get_output a = Some v)
  /\ (OciorABAStarNode.protocol_complete o = true ->
      PyDict.len (OciorABAStarNode.abba_out o) = OciorABAStarNode.n o)
  /\ (forall v, OciorABAStarNode.final_decision o = Some v ->
                OciorABAStarNode.protocol_complete o = true).
Proof.
  intros Hget.
  assert (Hw : world_wf (snd (run cs (start g)))).
  { apply wf_run. intros k ok Hk. discriminate. }
  pose proof (Hw i o Hget) as [W1 W2 W3 W4 W5 W6].
  split; [|split; assumption].
  intros j v Hv. destruct (W3 j v Hv) as [a [Ha Ho]].
  split; [exact (wf_output _ _ _ (W2 j a Ha) v Ho)|]. split.
  - apply dict_get_some_keys in Ha. rewrite W1 in Ha.
    apply in_range in Ha. lia.
  - now exists a.
Qed.

Lemma reachable_nodes_consistent_witness :
  PyDict.get
    (NODES (snd (@run constant_rng two_proposals (@start constant_rng tt)))) 2
  = Some node_2_at_finalization
  /\ (forall j v,
        PyDict.get (OciorABAStarNode.abba_out node_2_at_finalization) j
        = Some v ->
        (v = 0 \/ v = 1)
        /\ 1 <= j <= OciorABAStarNode.n node_2_at_finalization
        /\ exists a,
             PyDict.get (OciorABAStarNode.abba node_2_at_finalization) j
             = Some a
             /\ ABBA.get_output a = Some v)
  /\ (OciorABAStarNode.protocol_complete node_2_at_finalization = true ->
      PyDict.len (OciorABAStarNode.abba_out node_2_at_finalization)
      = OciorABAStarNode.n node_2_at_finalization)
  /\ (forall v,
        OciorABAStarNode.final_decision node_2_at_finalization = Some v ->
        OciorABAStarNode.protocol_complete node_2_at_finalization = true).
Proof.
  split; [reflexivity|].
  apply (@reachable_nodes_consistent constant_rng tt two_proposals 2).
  reflexivity.
Defined.

(** * Deliveries and proposals *)

Lemma dict_set_set {V} (d : dict V) k a b :
  PyDict.set (PyDict.set d k a) k b = PyDict.set d k b.
Proof.
  induction d as [|[k' v'] d IH]; cbn [PyDict.set].
  - now rewrite Z.eqb_refl.
  - destruct (k =? k') eqn:E; cbn [PyDict.set].
    + now rewrite Z.eqb_refl.
    + rewrite E. now rewrite IH.
Qed.

(** Property X20. A share delivered to a node that has not proposed yet
    (its own share list is empty) is recorded in [rbc_shares] and appended
    to [pending_shares]; the node casts no vote and nothing else changes,
    in this node or in any other. *)
Theorem on_rbc_delivery_buffers `{PyRandom} (w : world) (self sender : Z)
    (sh : share) (o : node) :
  PyDict.get (NODES w) self = Some o ->
  OciorABAStarNode._shares o = [] ->
  on_rbc_delivery self sender sh w
  = (Ok tt,
     mkWorld
       (PyDict.set (NODES w) self
          (OciorABAStarNode.set_pending_shares
             (OciorABAStarNode.set_rbc_shares o
                (PyDict.set (OciorABAStarNode.rbc_shares o) sender sh))
             (OciorABAStarNode.pending_shares o ++ [(sender, sh)])))
       (random w)).
Proof.
  intros Hget Hsh. unfold on_rbc_delivery. unfold bind at 1.
  rewrite (update_node_at w self o) by exact Hget.
  set (o1 := OciorABAStarNode.set_rbc_shares o _).
  set (w1 := mkWorld _ _).
  assert (Hget1 : PyDict.get (NODES w1) self = Some o1)
    by (subst w1; cbn [NODES]; apply dict_get_set_same).
  unfold bind. rewrite (get_node_at w1 self o1 Hget1).
  replace (OciorABAStarNode._shares o1) with (@nil share)
    by (subst o1; cbn; now rewrite Hsh).
  rewrite (update_node_at w1 self o1) by exact Hget1.
  subst w1. cbn [NODES random]. now rewrite dict_set_set.
Qed.

Lemma on_rbc_delivery_buffers_witness :
  PyDict.get
    (NODES (snd (@run constant_rng [Create 1 2 0 false; Create 2 2 0 false]
                   (@start constant_rng tt)))) 2
  = Some (OciorABAStarNode.new 2 2 0 false)
  /\ OciorABAStarNode._shares (OciorABAStarNode.new 2 2 0 false) = []
  /\ @on_rbc_delivery constant_rng 2 1 (1, 5)
       (snd (@run constant_rng [Create 1 2 0 false; Create 2 2 0 false]
               (@start constant_rng tt)))
     = (Ok tt,
        mkWorld
          (PyDict.set
             (NODES (snd (@run constant_rng
                            [Create 1 2 0 false; Create 2 2 0 false]
                            (@start constant_rng tt)))) 2
             (OciorABAStarNode.set_pending_shares
                (OciorABAStarNode.set_rbc_shares
                   (OciorABAStarNode.new 2 2 0 false)
                   (PyDict.set
                      (OciorABAStarNode.rbc_shares
                         (OciorABAStarNode.new 2 2 0 false)) 1 (1, 5)))
                (OciorABAStarNode.pending_shares
                   (OciorABAStarNode.new 2 2 0 false) ++ [(1, (1, 5))])))
          (random (snd (@run constant_rng
                          [Create 1 2 0 false; Create 2 2 0 false]
                          (@start constant_rng tt))))).
Proof.
  split; [reflexivity|]. split; [reflexivity|].
  apply (@on_rbc_delivery_buffers constant_rng); reflexivity.
Defined.

(** Property X21. [propose] on an honest node with a secret outside
    [[0, _PRIME)] raises [ValueError] before anything is changed: the
    node keeps its shares, nothing is broadcast and the generator is not
    reseeded. *)
Theorem propose_rejects_secret `{PyRandom} (w : world) (self secret : Z)
    (o : node) :
  PyDict.get (NODES w) self = Some o ->
  OciorABAStarNode.is_byzantine o = false ->
  ~ (0 <= secret < _PRIME) ->
  propose self secret w = (Raise ValueError, w).
Proof.
  intros Hget Hb Hs. rewrite (propose_unfold w self secret o Hget). cbv zeta.
  rewrite Hb. unfold ECEnc.
  replace ((0 <=? secret) && (secret <? _PRIME)) with false.
  - destruct w. reflexivity.
  - symmetry. apply andb_false_iff.
    destruct (Z.leb_spec 0 secret); [right | now left].
    apply Z.ltb_ge. lia.
Qed.

Lemma propose_rejects_secret_witness :
  PyDict.get
    (NODES (snd (@run constant_rng [Create 1 2 0 false; Create 2 2 0 false]
                   (@start constant_rng tt)))) 1
  = Some (OciorABAStarNode.new 1 2 0 false)
  /\ OciorABAStarNode.is_byzantine (OciorABAStarNode.new 1 2 0 false) = false
  /\ ~ (0 <= -1 < _PRIME)
  /\ @propose constant_rng 1 (-1)
       (snd (@run constant_rng [Create 1 2 0 false; Create 2 2 0 false]
               (@start constant_rng tt)))
     = (Raise ValueError,
        snd (@run constant_rng [Create 1 2 0 false; Create 2 2 0 false]
               (@start constant_rng tt))).
Proof.
  assert (Hs : ~ (0 <= -1 < _PRIME)) by lia.
  split; [reflexivity|]. split; [reflexivity|]. split; [exact Hs|].
  apply (@propose_rejects_secret constant_rng _ 1 (-1)
           (OciorABAStarNode.new 1 2 0 false)); [reflexivity | reflexivity | exact Hs].
Defined.

(** Property X22. Whenever the secret that [propose] encodes is in range,
    which is always the case on a Byzantine node since it reduces the
    corrupted secret modulo [_PRIME], the node holds the shares of that
    encoding when [propose] ends, whether it returns or a later step
    raises: no delivery or vote changes a node's own shares. *)
Theorem propose_installs_shares `{PyRandom} (w : world) (self secret : Z)
    (o : node) :
  PyDict.get (NODES w) self = Some o ->
  OciorABAStarNode.is_byzantine o = true \/ 0 <= secret < _PRIME ->
  exists shares o',
    fst (ECEnc (OciorABAStarNode.n o) (OciorABAStarNode.t o + 1)
           (proposed_secret o secret) (random w)) = Ok shares
    /\ PyDict.get (NODES (snd (propose self secret w))) self = Some o'
    /\ OciorABAStarNode._shares o' = shares.
Proof.
  intros Hget Hs.
  assert (Hr : 0 <= proposed_secret o secret < _PRIME).
  { unfold proposed_secret. destruct (OciorABAStarNode.is_byzantine o).
    - apply Z.mod_pos_bound. pose proof PRIME_gt_1. lia.
    - destruct Hs as [Hs|Hs]; [discriminate | exact Hs]. }
  destruct (ECEnc_ok (OciorABAStarNode.n o) (OciorABAStarNode.t o + 1)
              (proposed_secret o secret) (random w) Hr) as [shares [Henc _]].
  exists shares.
  rewrite (propose_unfold w self secret o Hget). cbv zeta.
  fold (proposed_secret o secret).
  destruct (ECEnc _ _ (proposed_secret o secret) (random w)) as [r g].
  cbn [fst] in Henc. subst r.
  set (w1 := mkWorld _ g).
  assert (Hget1 : PyDict.get (NODES w1) self
                  = Some (OciorABAStarNode.set__shares o shares))
    by (subst w1; cbn [NODES]; apply dict_get_set_same).
  destruct (index shares (OciorABAStarNode.id o - 1)) as [[x_i y_i]|].
  - destruct (grows_propose_tail true self o x_i y_i w1) as [_ Hn].
    destruct (Hn self _ Hget1) as [o' [Ho' G]].
    exists o'. split; [reflexivity|]. split; [exact Ho'|].
    rewrite (grows_shares _ _ _ G eq_refl). reflexivity.
  - eexists. split; [reflexivity|]. split; [exact Hget1 | reflexivity].
Qed.

Lemma propose_installs_shares_witness :
  PyDict.get
    (NODES (snd (@run constant_rng [Create 1 4 1 true; Create 2 4 1 false]
                   (@start constant_rng tt)))) 1
  = Some (OciorABAStarNode.new 1 4 1 true)
  /\ (OciorABAStarNode.is_byzantine (OciorABAStarNode.new 1 4 1 true) = true
      \/ 0 <= -7 < _PRIME)
  /\ exists shares o',
       fst (@ECEnc constant_rng
              (OciorABAStarNode.n (OciorABAStarNode.new 1 4 1 true))
              (OciorABAStarNode.t (OciorABAStarNode.new 1 4 1 true) + 1)
              (proposed_secret (OciorABAStarNode.new 1 4 1 true) (-7))
              (random (snd (@run constant_rng
                              [Create 1 4 1 true; Create 2 4 1 false]
                              (@start constant_rng tt))))) = Ok shares
       /\ PyDict.get
            (NODES (snd (@propose constant_rng 1 (-7)
                           (snd (@run constant_rng
                                   [Create 1 4 1 true; Create 2 4 1 false]
                                   (@start constant_rng tt)))))) 1 = Some o'
       /\ OciorABAStarNode._shares o' = shares.
Proof.
  split; [reflexivity|]. split; [now left|].
  apply (@propose_installs_shares constant_rng _ 1 (-7)
           (OciorABAStarNode.new 1 4 1 true)); [reflexivity | now left].
Defined.

(** * Runs without faults *)

(** ** Rules for computations that return *)

Section Triples.
Context `{PyRandom}.

Lemma triple_ret {A} (P : world -> Prop) (a : A) (Q : A -> world -> Prop) :
  (forall w, P w -> Q a w) -> triple P (ret a) Q.
Proof. intros HQ w Hw. exists a, w. split; [reflexivity | now apply HQ]. Qed.

Lemma triple_bind {A B} (P : world -> Prop) (m : M A) (f : A -> M B)
    (Q : A -> world -> Prop) (R : B -> world -> Prop) :
  triple P m Q -> (forall a, triple (Q a) (f a) R) -> triple P (bind m f) R.
Proof.
  intros Hm Hf w Hw. destruct (Hm w Hw) as [a [w1 [E1 Q1]]].
  destruct (Hf a w1 Q1) as [b [w2 [E2 R2]]].
  exists b, w2. split; [|exact R2]. unfold bind. now rewrite E1.
Qed.

Lemma triple_conseq {A} (P P' : world -> Prop) (m : M A)
    (Q Q' : A -> world -> Prop) :
  triple P' m Q' -> (forall w, P w -> P' w) ->
  (forall a w, Q' a w -> Q a w) -> triple P m Q.
Proof.
  intros Hm HP HQ w Hw. destruct (Hm w (HP w Hw)) as [a [w1 [E1 Q1]]].
  exists a, w1. split; [exact E1 | now apply HQ].
Qed.

Lemma triple_pre {A} (P P' : world -> Prop) (m : M A) (Q : A -> world -> Prop) :
  triple P' m Q -> (forall w, P w -> P' w) -> triple P m Q.
Proof. intros Hm HP. apply (triple_conseq P P' m Q Q Hm HP). auto. Qed.

Lemma triple_post {A} (P : world -> Prop) (m : M A) (Q Q' : A -> world -> Prop) :
  triple P m Q' -> (forall a w, Q' a w -> Q a w) -> triple P m Q.
Proof. intros Hm HQ. apply (triple_conseq P P m Q Q' Hm); auto. Qed.

Lemma range_cons a b : a < b -> range a b = a :: range (a + 1) b.
Proof.
  intros Hab. unfold range.
  replace (Z.to_nat (b - a)) with (S (Z.to_nat (b - (a + 1)))) by lia.
  cbn [seq map]. f_equal; [lia|].
  rewrite <- seq_shift, map_map. apply map_ext. intros i. lia.
Qed.

Lemma range_snoc a b : a <= b -> range a (b + 1) = range a b ++ [b].
Proof.
  intros Hab. unfold range.
  replace (Z.to_nat (b + 1 - a)) with (Z.to_nat (b - a) + 1)%nat by lia.
  rewrite seq_app, map_app. cbn [seq map]. f_equal. f_equal. lia.
Qed.

Lemma triple_for_range (J : Z -> world -> Prop) (body : Z -> M unit) a b :
  a <= b ->
  (forall k, a <= k < b -> triple (J k) (body k) (fun _ => J (k + 1))) ->
  triple (J a) (for_each (range a b) body) (fun _ => J b).
Proof.
  intros Hab Hbody.
  remember (Z.to_nat (b - a)) as m eqn:Em.
  revert a Hab Hbody Em. induction m as [|m IH]; intros a Hab Hbody Em.
  - assert (a = b) by lia. subst a. rewrite range_nil by lia.
    apply triple_ret. auto.
  - rewrite range_cons by lia. cbn [for_each].
    apply (triple_bind _ _ _ (fun _ => J (a + 1))).
    + apply Hbody. lia.
    + intros _. apply IH; [lia | | lia].
      intros k Hk. apply Hbody. lia.
Qed.

Lemma for_each_map {A B} (g : A -> B) (l : list A) (body : B -> M unit) :
  for_each (map g l) body = for_each l (fun a => body (g a)).
Proof.
  induction l as [|a l IH]; cbn [map for_each]; [reflexivity|].
  now rewrite IH.
Qed.

End Triples.

(** ** Dictionaries given by a function on their keys *)

Lemma dict_get_graph {V} (f : Z -> V) (l : list Z) j :
  In j l -> PyDict.get (map (fun i => (i, f i)) l) j = Some (f j).
Proof.
  induction l as [|a l IH]; cbn [map PyDict.get In]; intros Hin; [contradiction|].
  destruct (Z.eqb_spec j a) as [->|Hne]; [reflexivity|].
  destruct Hin as [->|Hin]; [contradiction | now apply IH].
Qed.

Lemma dict_keys_graph {V} (f : Z -> V) (l : list Z) :
  PyDict.keys (map (fun i => (i, f i)) l) = l.
Proof.
  unfold PyDict.keys. rewrite map_map. cbn [fst]. apply map_id.
Qed.

Lemma dict_ext {V} (d : dict V) (f : Z -> V) :
  NoDup (PyDict.keys d) ->
  (forall j, In j (PyDict.keys d) -> PyDict.get d j = Some (f j)) ->
  d = map (fun j => (j, f j)) (PyDict.keys d).
Proof.
  induction d as [|[k v] d IH]; cbn [PyDict.keys map fst]; intros Hnd Hget;
    [reflexivity|].
  inversion Hnd as [|? ? Hnotin Hnd']; subst.
  pose proof (Hget k (or_introl eq_refl)) as Hk.
  cbn [PyDict.get] in Hk. rewrite Z.eqb_refl in Hk. injection Hk as ->.
  f_equal. apply IH; [exact Hnd'|].
  intros j Hj. specialize (Hget j (or_intror Hj)). cbn [PyDict.get] in Hget.
  destruct (Z.eqb_spec j k) as [E|Hne]; [subst j; contradiction | exact Hget].
Qed.

Lemma dict_contains_set_same {V} (d : dict V) k v :
  PyDict.contains (PyDict.set d k v) k = true.
Proof. unfold PyDict.contains. now rewrite dict_get_set_same. Qed.

Lemma dict_contains_keys {V} (d : dict V) k :
  PyDict.contains d k = true -> In k (PyDict.keys d).
Proof.
  unfold PyDict.contains. destruct (PyDict.get d k) as [v|] eqn:E; [|discriminate].
  intros _. now apply dict_get_some_keys in E.
Qed.

Lemma nth_error_range a b k :
  0 <= k < b - a -> nth_error (range a b) (Z.to_nat k) = Some (a + k).
Proof.
  intros Hk. unfold range.
  rewrite nth_error_map, nth_error_seq.
  destruct (Nat.ltb_spec (Z.to_nat k) (Z.to_nat (b - a))) as [_|Hge]; [|lia].
  cbn [option_map]. f_equal. lia.
Qed.

(** ** The ABBA instances of a run without faults *)

Lemma votes_snoc k : 0 <= k -> votes (k + 1) = votes k ++ [(k + 1, 1)].
Proof.
  intros Hk. unfold votes. rewrite (range_snoc 1 (k + 1)) by lia.
  now rewrite map_app.
Qed.

Lemma votes_keys k : map fst (votes k) = range 1 (k + 1).
Proof. unfold votes. rewrite map_map. cbn [fst]. apply map_id. Qed.

Lemma votes_length k : 0 <= k -> Z.of_nat (length (votes k)) = k.
Proof. intros Hk. unfold votes. rewrite length_map, length_range. lia. Qed.

Lemma votes_all_one k : Forall (fun sv : Z * Z => snd sv = 1) (votes k).
Proof.
  apply Forall_forall. intros x Hx. unfold votes in Hx.
  apply in_map_iff in Hx. destruct Hx as [i [<- _]]. reflexivity.
Qed.

Lemma voted_step n j k :
  0 <= k -> ABBA.input (voted n j k) (k + 1) 1 = voted n j (k + 1).
Proof.
  intros Hk. unfold voted. rewrite votes_snoc by lia.
  unfold ABBA.inputs_seq. now rewrite fold_left_app.
Qed.

Lemma voted_state n j k :
  1 <= n -> 0 <= k <= n ->
  ABBA.inputs (voted n j k) = votes k
  /\ ABBA._output (voted n j k) = if k <? n then None else Some 1.
Proof.
  intros Hn Hk.
  assert (Hb : is_bit 1) by (right; reflexivity).
  assert (Hnd : NoDup (map fst (votes k)))
    by (rewrite votes_keys; apply NoDup_range).
  pose proof (abba_unanimous_prefix j n 0 1 (votes k) Hb ltac:(lia) Hnd
                (votes_all_one k)) as U.
  rewrite votes_length in U by lia.
  specialize (U ltac:(lia)). cbv zeta in U.
  replace (n - 0) with n in U by lia. exact U.
Qed.

Lemma voted_inv n j k : abba_inv n 0 (voted n j k).
Proof. apply abba_inv_inputs_seq. apply abba_inv_init. Qed.

Lemma voted_output_none n j k :
  1 <= n -> 0 <= k < n -> ABBA._output (voted n j k) = None.
Proof.
  intros Hn Hk. destruct (voted_state n j k Hn ltac:(lia)) as [_ ->].
  destruct (Z.ltb_spec k n); [reflexivity | lia].
Qed.

Lemma voted_output_one n j :
  1 <= n -> ABBA._output (voted n j n) = Some 1.
Proof.
  intros Hn. destruct (voted_state n j n Hn ltac:(lia)) as [_ ->].
  destruct (Z.ltb_spec n n); [lia | reflexivity].
Qed.

Lemma defaulted_state n j :
  2 <= n ->
  ABBA._output (defaulted n j) = Some 1
  /\ PyDict.contains (ABBA.inputs (defaulted n j)) n = true.
Proof.
  intros Hn. unfold defaulted.
  set (a0 := voted n j (n - 1)).
  destruct (voted_state n j (n - 1) ltac:(lia) ltac:(lia)) as [Hin Hout].
  fold a0 in Hin, Hout.
  destruct (Z.ltb_spec (n - 1) n) as [_|]; [|lia].
  assert (Hg : PyDict.get (ABBA.inputs a0) n = None).
  { destruct (PyDict.get (ABBA.inputs a0) n) as [u|] eqn:G; [|reflexivity].
    exfalso. apply dict_get_some_keys in G. unfold PyDict.keys in G.
    rewrite Hin, votes_keys in G. apply in_range in G. lia. }
  assert (Hc : PyDict.contains (ABBA.inputs a0) n = false)
    by (now apply dict_contains_false).
  pose proof (input_inputs_new a0 n 0 Hc) as Hin'.
  split.
  - rewrite (input_output_new a0 n 0 Hc), Hout.
    pose proof (voted_inv n j (n - 1)) as I. fold a0 in I.
    rewrite (inv_n _ _ _ I), (inv_t _ _ _ I).
    pose proof (abba_inv_input n 0 a0 n 0 I) as I'.
    assert (Hne : ABBA.inputs (ABBA.input a0 n 0) <> []).
    { rewrite Hin'. intros E. now apply app_eq_nil in E as [_ E]. }
    assert (Hcoin : CommonCoin.has_coin_value
                      (ABBA.common_coin (ABBA.input a0 n 0)) = true)
      by (apply (inv_coin _ _ _ I' Hne); lia).
    unfold CommonCoin.has_coin_value, CommonCoin.get_coin_value in *.
    destruct (CommonCoin._coin_value (ABBA.common_coin (ABBA.input a0 n 0)))
      as [c|]; [|discriminate].
    unfold ABBA.ones, ABBA.zeros, ABBA.total_votes, PyDict.len, PyDict.values.
    rewrite Hin', Hin, map_app, !count_eq_app, length_app, Nat2Z.inj_add.
    destruct (count_eq_all 1 (votes (n - 1)) (votes_all_one (n - 1))) as [C1 C0].
    rewrite C1, (C0 0) by lia.
    rewrite votes_length by lia.
    change (count_eq 1 (map snd [(n, 0)])) with 0.
    change (count_eq 0 (map snd [(n, 0)])) with 1.
    change (Z.of_nat (length [(n, 0)])) with 1.
    unfold decision_rule.
    destruct (Z.geb_spec (n - 1 + 0) (n - 0)) as [|_]; [lia|].
    destruct (Z.geb_spec (0 + 1) (n - 0)) as [|_]; [lia|].
    destruct (Z.geb_spec (n - 1 + 1) (n - 0)) as [_|]; [|lia].
    destruct (Z.geb_spec (n - 1 + 0) (0 + 1)) as [_|]; [reflexivity | lia].
  - rewrite Hin'. rewrite <- (dict_set_absent _ _ _ Hg).
    apply dict_contains_set_same.
Qed.

Lemma defaulted_again n j :
  2 <= n -> ABBA.input (defaulted n j) n 1 = defaulted n j.
Proof.
  intros Hn. apply input_duplicate. now apply defaulted_state.
Qed.

(** ** Sharing and decoding with the threshold 1 *)

Lemma ECEnc_one `{PyRandom} n s g :
  0 <= s < _PRIME ->
  ECEnc n 1 s g = (Ok (common_shares n s), rng_seed s).
Proof.
  intros Hs. unfold ECEnc.
  replace ((0 <=? s) && (s <? _PRIME)) with true
    by (symmetry; apply andb_true_iff;
        split; [apply Z.leb_le | apply Z.ltb_lt]; lia).
  unfold ECEnc_coeffs. change (Z.to_nat (1 - 1)) with 0%nat.
  cbn [randrange_list]. unfold common_shares.
  apply (f_equal (fun l : list share => (Ok l, rng_seed s))).
  apply map_ext. intros i. f_equal.
  rewrite (eval_polynomial_spec _PRIME prime_PRIME).
  rewrite peval_cons, peval_nil.
  replace (s + i * 0) with s by ring.
  apply Z.mod_small. exact Hs.
Qed.

Lemma ECDec_one n h s :
  0 <= s < _PRIME -> ECDec n 1 [(h, s)] = Ok s.
Proof.
  intros Hs. unfold ECDec. change (slice_to [(h, s)] 1) with [(h, s)].
  cbn [map fst snd].
  rewrite (lagrange_interpolate_spec _PRIME prime_PRIME) by (cbn; lia).
  f_equal. unfold lagrange_sum. cbn [length seq map zsum fold_right].
  unfold lag_term, remove_nth. cbn [nth firstn skipn app].
  unfold prod_diff. cbn [map fold_right zprod].
  rewrite Z.pow_1_l
    by (pose proof PRIME_gt_1; lia).
  replace (s * 1 * 1 + 0) with s by ring.
  apply Z.mod_small. exact Hs.
Qed.

Lemma index_common n s h :
  1 <= h <= n -> index (common_shares n s) (h - 1) = Some (h, s).
Proof.
  intros Hh. unfold index, common_shares.
  destruct (Z.leb_spec 0 (h - 1)) as [_|]; [|lia].
  rewrite nth_error_map, nth_error_range by lia.
  cbn [option_map]. do 2 f_equal. lia.
Qed.

(** ** Recorded outputs that are all 1 *)

Lemma ones_out_nil n : ones_out n [].
Proof.
  split; [constructor|]. split; [intros j []|constructor].
Qed.

Lemma ones_out_single n j : 1 <= j <= n -> ones_out n [(j, 1)].
Proof.
  intros Hj. split; [|split].
  - repeat constructor. intros [].
  - intros k [<-|[]]. exact Hj.
  - repeat constructor.
Qed.

Lemma ones_out_set n d k : ones_out n d -> 1 <= k <= n -> ones_out n (PyDict.set d k 1).
Proof.
  intros [Hnd [Hk Hv]] Hkn. split; [|split].
  - now apply dict_keys_set_nodup.
  - intros j Hj. apply dict_keys_set_in in Hj. destruct Hj as [Hj| ->]; auto.
  - now apply Forall_values_set.
Qed.

Lemma ones_full_len n (d : dict Z) :
  0 <= n -> ones_out n d ->
  (forall j, 1 <= j <= n -> PyDict.contains d j = true) ->
  PyDict.len d = n.
Proof.
  intros Hn [Hnd [Hk _]] Hall.
  assert (L1 : (length (PyDict.keys d) <= length (range 1 (n + 1)))%nat).
  { apply NoDup_incl_length; [exact Hnd|]. intros j Hj. apply in_range.
    specialize (Hk j Hj). lia. }
  assert (L2 : (length (range 1 (n + 1)) <= length (PyDict.keys d))%nat).
  { apply NoDup_incl_length; [apply NoDup_range|]. intros j Hj.
    apply in_range in Hj. apply dict_contains_keys. apply Hall. lia. }
  rewrite length_range in L1, L2. unfold PyDict.keys in L1, L2.
  rewrite length_map in L1, L2. unfold PyDict.len. lia.
Qed.

Lemma Aones_ones (o : node) :
  Forall (fun v => v = 1) (PyDict.values (OciorABAStarNode.abba_out o)) ->
  Aones o = PyDict.keys (OciorABAStarNode.abba_out o).
Proof.
  unfold Aones, PyDict.items, PyDict.keys, PyDict.values.
  induction (OciorABAStarNode.abba_out o) as [|[k v] d IH];
    intros Hv; [reflexivity|].
  cbn [map snd] in Hv. inversion Hv as [|? ? Hv1 Hv']; subst.
  cbn [map filter fst snd]. change (1 =? 1) with true. cbn [map fst].
  f_equal. now apply IH.
Qed.

(** ** Nodes and registries that fit a description *)

Ltac zcases :=
  repeat match goal with
  | |- context [?a =? ?b] => destruct (Z.eqb_spec a b)
  | |- context [?a <? ?b] => destruct (Z.ltb_spec a b)
  | |- context [?a <=? ?b] => destruct (Z.leb_spec a b)
  end; try lia.

Section FaultFree.
Context `{PyRandom}.
Variables n s : Z.
Hypothesis Hn : 1 <= n.
Hypothesis Hs : 0 <= s < _PRIME.

Lemma sat_set_vi i sp o x :
  sat n s i sp o -> sat n s i sp (OciorABAStarNode.set_vi o x).
Proof. intros []; constructor; assumption. Qed.

Lemma sat_set_rbc i sp o x r :
  sat n s i sp o ->
  (forall j, 1 <= j <= r -> PyDict.contains x j = true) ->
  sat n s i (sp_rn sp r) (OciorABAStarNode.set_rbc_shares o x).
Proof. intros [] Hx; constructor; assumption. Qed.

Lemma sat_set_pending i sp o m :
  sat n s i sp o ->
  sat n s i (sp_pn sp m) (OciorABAStarNode.set_pending_shares o (buffered s m)).
Proof. intros []; constructor; try assumption. reflexivity. Qed.

Lemma sat_set_shares i sp o :
  sat n s i sp o ->
  sat n s i (sp_sf sp true)
      (OciorABAStarNode.set__shares o (common_shares n s)).
Proof. intros []; constructor; try assumption. reflexivity. Qed.

Lemma sat_set_abba i sp o x A :
  sat n s i sp o ->
  PyDict.keys x = range 1 (n + 1) ->
  (forall j, 1 <= j <= n -> PyDict.get x j = Some (A j)) ->
  sat n s i (sp_ab sp A) (OciorABAStarNode.set_abba o x).
Proof. intros [] Hk Hg; constructor; assumption. Qed.

Lemma sat_set_out i sp o x os :
  sat n s i sp o -> out_sat n os x ->
  sat n s i (sp_og sp os) (OciorABAStarNode.set_abba_out o x).
Proof. intros [] Hx; constructor; assumption. Qed.

Lemma sat_set_done i sp o :
  sat n s i sp o ->
  sat n s i (sp_dn sp true)
      (OciorABAStarNode.set_protocol_complete
         (OciorABAStarNode.set_final_decision o (Some s)) true).
Proof. intros []; constructor; try assumption; reflexivity. Qed.

Lemma sat_ext i sp sp' o :
  sat n s i sp o ->
  sf sp = sf sp' -> pn sp = pn sp' -> rn sp' <= rn sp ->
  (forall j, 1 <= j <= n -> ab sp j = ab sp' j) ->
  (forall d, out_sat n (og sp) d -> out_sat n (og sp') d) ->
  dn sp = dn sp' ->
  sat n s i sp' o.
Proof.
  intros Ho E1 E2 E3 E4 E5 E6. constructor.
  - apply (sat_id _ _ _ _ _ Ho).
  - apply (sat_n _ _ _ _ _ Ho).
  - apply (sat_t _ _ _ _ _ Ho).
  - apply (sat_honest _ _ _ _ _ Ho).
  - rewrite <- E1. apply (sat_shares _ _ _ _ _ Ho).
  - rewrite <- E2. apply (sat_pending _ _ _ _ _ Ho).
  - intros j Hj. apply (sat_rbc _ _ _ _ _ Ho). lia.
  - apply (sat_abba_keys _ _ _ _ _ Ho).
  - intros j Hj. rewrite <- E4 by exact Hj. now apply (sat_abba _ _ _ _ _ Ho).
  - apply E5, (sat_out _ _ _ _ _ Ho).
  - rewrite <- E6. apply (sat_final _ _ _ _ _ Ho).
  - rewrite <- E6. apply (sat_complete _ _ _ _ _ Ho).
Qed.

Lemma sat_new i :
  sat n s i (mkS false 0 0 (fun j => voted n j 0) (Exact []) false)
      (OciorABAStarNode.new i n 0 false).
Proof.
  constructor; try reflexivity.
  - cbn [rn]. intros j Hj. lia.
  - apply dict_keys_graph.
  - intros j Hj. cbn [ab]. unfold OciorABAStarNode.new. cbn [OciorABAStarNode.abba].
    rewrite (dict_get_graph (fun j => ABBA.__init__ j n 0)) by (apply in_range; lia).
    reflexivity.
Qed.

Lemma sat_abba_items i sp o :
  sat n s i sp o ->
  PyDict.items (OciorABAStarNode.abba o)
  = map (fun j => (j, ab sp j)) (range 1 (n + 1)).
Proof.
  intros Ho. unfold PyDict.items.
  rewrite <- (sat_abba_keys _ _ _ _ _ Ho). apply dict_ext.
  - rewrite (sat_abba_keys _ _ _ _ _ Ho). apply NoDup_range.
  - intros j Hj. rewrite (sat_abba_keys _ _ _ _ _ Ho) in Hj.
    apply in_range in Hj. apply (sat_abba _ _ _ _ _ Ho). lia.
Qed.

Lemma wsat_get S w i :
  wsat n s S w -> 1 <= i <= n ->
  exists o, PyDict.get (NODES w) i = Some o /\ sat n s i (S i) o.
Proof. intros [_ Hw] Hi. now apply Hw. Qed.

Lemma wsat_set S w i o' sp g :
  wsat n s S w -> 1 <= i <= n -> sat n s i sp o' ->
  wsat n s (upd S i sp) (mkWorld (PyDict.set (NODES w) i o') g).
Proof.
  intros [Hk Hw] Hi Ho'. destruct (Hw i Hi) as [o [Hg _]].
  split; cbn [NODES].
  - rewrite (dict_keys_set_present _ _ _ _ Hg). exact Hk.
  - intros k Hkn. unfold upd. destruct (Z.eqb_spec k i) as [->|Hne].
    + exists o'. split; [apply dict_get_set_same | exact Ho'].
    + rewrite dict_get_set_other by exact Hne. now apply Hw.
Qed.

Lemma wsat_ext S S' w :
  (forall i o, 1 <= i <= n -> sat n s i (S i) o -> sat n s i (S' i) o) ->
  wsat n s S w -> wsat n s S' w.
Proof.
  intros HS [Hk Hw]. split; [exact Hk|].
  intros i Hi. destruct (Hw i Hi) as [o [Hg Ho]].
  exists o. split; [exact Hg | now apply HS].
Qed.

Lemma wsat_eq S S' w :
  (forall i, 1 <= i <= n -> S i = S' i) -> wsat n s S w -> wsat n s S' w.
Proof.
  intros HS. apply wsat_ext. intros i o Hi Ho. now rewrite <- HS.
Qed.

Lemma wsat_same S w i o sp :
  wsat n s S w -> 1 <= i <= n ->
  PyDict.get (NODES w) i = Some o -> sat n s i sp o ->
  wsat n s (upd S i sp) w.
Proof.
  intros [Hk Hw] Hi Hg Ho. split; [exact Hk|].
  intros k Hkn. unfold upd. destruct (Z.eqb_spec k i) as [->|Hne].
  - exists o. now split.
  - now apply Hw.
Qed.

Lemma wsat_random S w g :
  wsat n s S w -> wsat n s S (mkWorld (NODES w) g).
Proof. intros Hw. exact Hw. Qed.

(** ** The primitive steps *)

Lemma t_read {A} S i (f : node -> M A) (Q : A -> world -> Prop) :
  1 <= i <= n ->
  (forall o, sat n s i (S i) o ->
     triple (fun w => wsat n s S w /\ PyDict.get (NODES w) i = Some o)
            (f o) Q) ->
  triple (wsat n s S) (bind (get_node i) f) Q.
Proof.
  intros Hi Hf w Hw. destruct (wsat_get S w i Hw Hi) as [o [Hg Ho]].
  unfold bind. rewrite (get_node_at w i o Hg).
  apply (Hf o Ho). now split.
Qed.

Lemma t_keep {A} S i o (m : M A) (Q : A -> world -> Prop) :
  triple (wsat n s S) m Q ->
  triple (fun w => wsat n s S w /\ PyDict.get (NODES w) i = Some o) m Q.
Proof. intros Hm. apply (triple_pre _ _ _ _ Hm). now intros w [Hw _]. Qed.

Lemma t_update_at S i f sp o :
  1 <= i <= n -> sat n s i sp (f o) ->
  triple (fun w => wsat n s S w /\ PyDict.get (NODES w) i = Some o)
         (update_node i f) (fun _ => wsat n s (upd S i sp)).
Proof.
  intros Hi Ho w [Hw Hg]. exists tt. eexists.
  split; [apply (update_node_at w i o f Hg)|].
  now apply wsat_set.
Qed.

Lemma t_update S i f sp :
  1 <= i <= n ->
  (forall o, sat n s i (S i) o -> sat n s i sp (f o)) ->
  triple (wsat n s S) (update_node i f) (fun _ => wsat n s (upd S i sp)).
Proof.
  intros Hi Hf w Hw. destruct (wsat_get S w i Hw Hi) as [o [Hg Ho]].
  apply (t_update_at S i f sp o Hi (Hf o Ho) w). now split.
Qed.

Lemma t_ids {A} S (f : list Z -> M A) (Q : A -> world -> Prop) :
  triple (wsat n s S) (f (range 1 (n + 1))) Q ->
  triple (wsat n s S) (bind node_ids f) Q.
Proof.
  intros Hf w Hw. unfold bind, node_ids. rewrite (proj1 Hw). now apply Hf.
Qed.

Lemma t_abba_input S i j v b :
  1 <= i <= n -> 1 <= j <= n ->
  triple (wsat n s S) (abba_input i j v b)
         (fun _ => wsat n s (upd S i (vote_spec (S i) j v b))).
Proof.
  intros Hi Hj. unfold abba_input. apply t_read; [exact Hi|]. intros o Ho.
  rewrite (sat_abba _ _ _ _ _ Ho j Hj).
  apply t_update_at; [exact Hi|]. unfold vote_spec.
  apply sat_set_abba; [exact Ho | |].
  - rewrite (dict_keys_set_present _ _ _ _ (sat_abba _ _ _ _ _ Ho j Hj)).
    apply (sat_abba_keys _ _ _ _ _ Ho).
  - intros k Hk. destruct (Z.eqb_spec k j) as [->|Hne].
    + apply dict_get_set_same.
    + rewrite dict_get_set_other by exact Hne. now apply (sat_abba _ _ _ _ _ Ho).
Qed.

(** Every node records the vote [b] of [v] on the sender [p]. *)
Lemma t_vote_all S p v b :
  1 <= p <= n ->
  triple (wsat n s S)
         (for_each (range 1 (n + 1)) (fun k => abba_input k p v b))
         (fun _ => wsat n s (fun k => vote_spec (S k) p v b)).
Proof.
  intros Hp.
  set (J := fun k => wsat n s (fun i => if i <? k then vote_spec (S i) p v b
                                        else S i)).
  apply (triple_conseq _ (J 1) _ _ (fun _ => J (n + 1))).
  - apply (triple_for_range J); [lia|]. intros k Hk. unfold J.
    eapply triple_post; [apply t_abba_input; lia|].
    intros u w. apply wsat_eq. intros i Hi. unfold upd. zcases; congruence.
  - intros w. unfold J. apply wsat_eq. intros i Hi. zcases. reflexivity.
  - intros u w. unfold J. apply wsat_eq. intros i Hi. zcases. reflexivity.
Qed.

End FaultFree.

(** ** Processing the ABBA outputs *)

Section ProcessAbba.
Context `{PyRandom}.
Variables n s : Z.
Hypothesis Hn : 1 <= n.
Hypothesis Hs : 0 <= s < _PRIME.

Lemma sat_og i sp o os :
  sat n s i sp o -> out_sat n os (OciorABAStarNode.abba_out o) ->
  sat n s i (sp_og sp os) o.
Proof.
  intros Ho Hout. destruct o. exact (sat_set_out n s i sp _ _ os Ho Hout).
Qed.

Lemma upd_upd S i sp sp' k : upd (upd S i sp) i sp' k = upd S i sp' k.
Proof. unfold upd. destruct (k =? i); reflexivity. Qed.

Lemma upd_same S i sp : upd S i sp i = sp.
Proof. unfold upd. now rewrite Z.eqb_refl. Qed.

(** What [_finalize] finds on a node that has proposed, has received
    every share and has recorded the output 1 of every instance. *)
Lemma finalize_ready i sp o :
  sat n s i sp o -> sf sp = true -> n <= rn sp ->
  ones_out n (OciorABAStarNode.abba_out o) ->
  (forall j, 1 <= j <= n ->
     PyDict.contains (OciorABAStarNode.abba_out o) j = true) ->
  (Z.of_nat (length (Aones o)) <? OciorABAStarNode.t o + 1) = false
  /\ missing o = []
  /\ exists h, own_shares_at o (Bones o) = Some [(h, s)].
Proof.
  intros Ho Hsf Hrn Hones Hall.
  pose proof (Aones_ones o (proj2 (proj2 Hones))) as HA.
  pose proof (ones_full_len n _ ltac:(lia) Hones Hall) as Hlen.
  assert (HlenA : Z.of_nat (length (Aones o)) = n).
  { rewrite HA. unfold PyDict.keys. rewrite length_map. exact Hlen. }
  rewrite (sat_t _ _ _ _ _ Ho), HlenA.
  split; [apply Z.ltb_ge; lia|].
  assert (HB : exists h, Bones o = [h] /\ 1 <= h <= n).
  { unfold Bones, slice_to. rewrite (sat_t _ _ _ _ _ Ho).
    change (0 <=? 0 + 1) with true. change (Z.to_nat (0 + 1)) with 1%nat.
    pose proof (sorted_perm (Aones o)) as Hperm.
    destruct (sorted (Aones o)) as [|h r] eqn:E.
    - apply Permutation_length in Hperm. cbn [length] in Hperm. lia.
    - exists h. split; [reflexivity|].
      apply (proj1 (proj2 Hones)). rewrite <- HA.
      apply (Permutation_in _ Hperm). now left. }
  destruct HB as [h [HB Hh]]. unfold missing. rewrite HB.
  cbn [filter own_shares_at].
  rewrite (sat_rbc _ _ _ _ _ Ho h) by lia. cbn [negb].
  split; [reflexivity|]. exists h.
  rewrite (sat_shares _ _ _ _ _ Ho), Hsf, index_common by exact Hh.
  reflexivity.
Qed.

Lemma t_finalize S i :
  1 <= i <= n -> sf (S i) = true -> n <= rn (S i) ->
  (forall d, out_sat n (og (S i)) d ->
     ones_out n d /\ forall j, 1 <= j <= n -> PyDict.contains d j = true) ->
  triple (wsat n s S) (_finalize i)
         (fun _ => wsat n s (upd S i (sp_dn (S i) true))).
Proof.
  intros Hi Hsf Hrn Hog. unfold _finalize.
  apply t_read; [exact Hi|]. intros o Ho.
  destruct (Hog _ (sat_out _ _ _ _ _ Ho)) as [Hones Hall].
  destruct (finalize_ready i (S i) o Ho Hsf Hrn Hones Hall) as [E1 [E2 [h E3]]].
  rewrite E1, E2, E3, (sat_n _ _ _ _ _ Ho), (sat_t _ _ _ _ _ Ho).
  change (0 + 1) with 1. rewrite (ECDec_one n h s Hs).
  apply t_update_at; [exact Hi|]. now apply sat_set_done.
Qed.

(** No instance of the node has decided: nothing changes. *)
Lemma pa_quiet S i :
  1 <= i <= n -> og (S i) = Exact [] ->
  (forall j, 1 <= j <= n -> ABBA._output (ab (S i) j) = None) ->
  triple (wsat n s S) (_process_abba i) (fun _ => wsat n s S).
Proof.
  intros Hi Hog Hnone. unfold _process_abba.
  apply t_read; [exact Hi|]. intros o Ho. apply t_keep.
  rewrite (sat_abba_items n s i _ o Ho), for_each_map.
  apply (triple_bind _ _ _ (fun _ => wsat n s S)).
  - apply (triple_for_range (fun _ => wsat n s S)); [lia|].
    intros k Hk. cbn [fst snd]. apply t_read; [exact Hi|]. intros o1 Ho1.
    unfold ABBA.has_output. rewrite (Hnone k) by lia. rewrite andb_false_r.
    apply triple_ret. now intros w [Hw _].
  - intros _. apply (triple_bind _ _ _ (fun _ => wsat n s S)).
    + unfold _inject_default_votes. apply t_read; [exact Hi|]. intros o1 Ho1.
      pose proof (sat_out _ _ _ _ _ Ho1) as Hout. rewrite Hog in Hout.
      cbn [out_sat] in Hout. rewrite Hout.
      change (PyDict.len (@nil (Z * Z)) >? 0) with false. cbv iota.
      apply triple_ret. now intros w [Hw _].
    + intros _. apply t_read; [exact Hi|]. intros o1 Ho1.
      pose proof (sat_out _ _ _ _ _ Ho1) as Hout. rewrite Hog in Hout.
      cbn [out_sat] in Hout. rewrite Hout, (sat_n _ _ _ _ _ Ho1).
      change (PyDict.len (@nil (Z * Z))) with 0.
      destruct (Z.eqb_spec 0 n); [lia|].
      apply triple_ret. now intros w [Hw _].
Qed.

(** Every instance of the node has decided 1: the node records the
    outputs that it lacks and finishes with the secret. *)
Lemma pa_decided S i :
  1 <= i <= n -> sf (S i) = true -> n <= rn (S i) ->
  (forall j, 1 <= j <= n -> ABBA._output (ab (S i) j) = Some 1) ->
  (forall d, out_sat n (og (S i)) d -> ones_out n d) ->
  triple (wsat n s S) (_process_abba i)
         (fun _ => wsat n s (upd S i (sp_dn (sp_og (S i) (Ones n)) true))).
Proof.
  intros Hi Hsf Hrn Hone Hog. unfold _process_abba.
  apply t_read; [exact Hi|]. intros o Ho.
  rewrite (sat_abba_items n s i _ o Ho), for_each_map.
  set (J := fun k => wsat n s (upd S i (sp_og (S i) (Ones (k - 1))))).
  apply (triple_bind _ _ _ (fun _ => J (n + 1))).
  - apply (triple_pre _ (J 1)).
    + apply (triple_for_range J); [lia|]. intros k Hk. unfold J.
      cbn [fst snd]. apply t_read; [exact Hi|]. intros o1 Ho1.
      rewrite upd_same in Ho1.
      destruct (sat_out _ _ _ _ _ Ho1) as [Hones Hcov]. cbn [og sp_og] in *.
      unfold ABBA.has_output, ABBA.get_output. rewrite (Hone k) by lia.
      destruct (PyDict.contains (OciorABAStarNode.abba_out o1) k) eqn:C;
        cbn [negb andb].
      * apply triple_ret. intros w [Hw Hg].
        apply (wsat_eq n s (upd (upd S i (sp_og (S i) (Ones (k - 1)))) i
                                (sp_og (S i) (Ones (k + 1 - 1)))));
          [intros i' _; apply upd_upd|].
        apply (wsat_same n s _ w i o1); [exact Hw | exact Hi | exact Hg|].
        apply (sat_og i _ o1 (Ones (k + 1 - 1)) Ho1). split; [exact Hones|].
        intros j Hj. destruct (Z.eq_dec j k) as [->|Hne]; [exact C|].
        apply Hcov. lia.
      * eapply triple_post.
        { apply (t_update_at n s _ i _ (sp_og (S i) (Ones (k + 1 - 1))) o1 Hi).
          apply (sat_set_out n s i _ o1 _ (Ones (k + 1 - 1)) Ho1).
          split; [apply ones_out_set; [exact Hones | lia]|].
          intros j Hj. destruct (Z.eq_dec j k) as [->|Hne].
          - apply dict_contains_set_same.
          - apply dict_contains_set. apply Hcov. lia. }
        intros u w. apply wsat_eq. intros i' _. apply upd_upd.
    + intros w [Hw Hg]. unfold J.
      apply (wsat_same n s S w i o); [exact Hw | exact Hi | exact Hg|].
      apply (sat_og i _ o (Ones (1 - 1)) Ho). split.
      * apply Hog. apply (sat_out _ _ _ _ _ Ho).
      * intros j Hj. lia.
  - intros _. unfold J. replace (n + 1 - 1) with n by lia.
    apply (triple_bind _ _ _
             (fun _ => wsat n s (upd S i (sp_og (S i) (Ones n))))).
    + unfold _inject_default_votes. apply t_read; [exact Hi|]. intros o1 Ho1.
      apply t_keep.
      destruct (PyDict.len (OciorABAStarNode.abba_out o1) >? 0);
        [|apply triple_ret; auto].
      rewrite (sat_n _ _ _ _ _ Ho1).
      apply (triple_for_range
               (fun _ => wsat n s (upd S i (sp_og (S i) (Ones n))))); [lia|].
      intros k Hk. apply t_read; [exact Hi|]. intros o2 Ho2.
      rewrite upd_same in Ho2.
      destruct (sat_out _ _ _ _ _ Ho2) as [_ Hcov]. cbn [og sp_og] in Hcov.
      rewrite (Hcov k) by lia. apply triple_ret. now intros w [Hw _].
    + intros _. apply t_read; [exact Hi|]. intros o1 Ho1. apply t_keep.
      rewrite upd_same in Ho1.
      destruct (sat_out _ _ _ _ _ Ho1) as [Hones Hcov]. cbn [og sp_og] in *.
      rewrite (ones_full_len n _ ltac:(lia) Hones Hcov), (sat_n _ _ _ _ _ Ho1).
      rewrite Z.eqb_refl.
      eapply triple_post.
      { apply t_finalize; [exact Hi | | |].
        - rewrite upd_same. exact Hsf.
        - rewrite upd_same. exact Hrn.
        - rewrite upd_same. cbn [og sp_og out_sat]. auto. }
      intros u w. apply wsat_eq. intros i' _. rewrite upd_upd, upd_same.
      reflexivity.
Qed.

End ProcessAbba.

(** ** Shares: delivery and vote *)

Ltac zsplit :=
  repeat match goal with
  | |- context [?a =? ?b] => destruct (Z.eqb_spec a b); try lia; try subst
  | |- context [?a <? ?b] => destruct (Z.ltb_spec a b); try lia
  | |- context [?a <=? ?b] => destruct (Z.leb_spec a b); try lia
  end.

Ltac spec_simpl :=
  cbn [sf pn rn ab og dn sp_sf sp_pn sp_rn sp_ab sp_og sp_dn vote_spec
       andb orb negb].

Ltac conv_tac :=
  intros ? ?;
  unfold upd, proposed, delivering, catching_up, finishing, polling;
  spec_simpl; zsplit; spec_simpl;
  repeat split; try reflexivity; try lia;
  intros ? ?; zsplit; spec_simpl; try reflexivity; try (f_equal; lia).

Lemma bind_ret `{PyRandom} {A B} (a : A) (f : A -> M B) : bind (ret a) f = f a.
Proof. reflexivity. Qed.

Lemma buffered_snoc s m :
  0 <= m -> buffered s (m + 1) = buffered s m ++ [(m + 1, (m + 1, s))].
Proof.
  intros Hm. unfold buffered. rewrite (range_snoc 1 (m + 1)) by lia.
  now rewrite map_app.
Qed.

Lemma voted_next n j k :
  1 <= k -> ABBA.input (voted n j (k - 1)) k 1 = voted n j k.
Proof.
  intros Hk. pose proof (voted_step n j (k - 1) ltac:(lia)) as E.
  replace (k - 1 + 1) with k in E by lia. exact E.
Qed.

Section Shares.
Context `{PyRandom}.
Variables n s : Z.
Hypothesis Hn : 1 <= n.
Hypothesis Hs : 0 <= s < _PRIME.

Lemma wsat_conv S S' w :
  (forall i, 1 <= i <= n ->
     sf (S i) = sf (S' i) /\ pn (S i) = pn (S' i) /\ rn (S i) = rn (S' i)
     /\ og (S i) = og (S' i) /\ dn (S i) = dn (S' i)
     /\ forall j, 1 <= j <= n -> ab (S i) j = ab (S' i) j) ->
  wsat n s S w -> wsat n s S' w.
Proof.
  intros HS. apply wsat_ext. intros i o Hi Ho.
  destruct (HS i Hi) as (E1 & E2 & E3 & E4 & E5 & E6).
  apply (sat_ext n s i (S i)); auto; try lia.
  intros d. now rewrite E4.
Qed.

(** The last node finds that only its own instance has decided: it
    records that output and casts its default votes. *)
Lemma pa_first S :
  2 <= n -> og (S n) = Exact [] ->
  (forall j, 1 <= j < n -> ab (S n) j = voted n j (n - 1)) ->
  ab (S n) n = voted n n n ->
  triple (wsat n s S) (_process_abba n)
    (fun _ => wsat n s
       (upd S n (sp_og (sp_ab (S n) (fun j => if j <? n then defaulted n j
                                              else voted n n n))
                       (Exact [(n, 1)])))).
Proof.
  intros H2 Hog Hab Habn. assert (Hi : 1 <= n <= n) by lia.
  unfold _process_abba. apply t_read; [exact Hi|]. intros o Ho.
  rewrite (sat_abba_items n s n _ o Ho), for_each_map.
  set (J := fun k => wsat n s
              (upd S n (sp_og (S n) (if k <=? n then Exact []
                                     else Exact [(n, 1)])))).
  apply (triple_bind _ _ _ (fun _ => J (n + 1))).
  - apply (triple_pre _ (J 1)).
    + apply (triple_for_range J); [lia|]. intros k Hk. unfold J.
      destruct (Z.leb_spec k n) as [_|]; [|lia].
      cbn [fst snd]. apply t_read; [exact Hi|]. intros o1 Ho1.
      rewrite upd_same in Ho1.
      pose proof (sat_out _ _ _ _ _ Ho1) as Hout.
      cbn [og sp_og out_sat] in Hout.
      destruct (Z.eq_dec k n) as [->|Hne].
      * rewrite Habn, Hout. unfold ABBA.has_output, ABBA.get_output.
        rewrite (voted_output_one n n Hn).
        change (PyDict.contains (@nil (Z * Z)) n) with false. cbn [negb andb].
        eapply triple_post.
        { apply (t_update_at n s _ n _ (sp_og (S n) (Exact [(n, 1)])) o1 Hi).
          apply (sat_set_out n s n _ o1 _ (Exact [(n, 1)]) Ho1).
          rewrite Hout. reflexivity. }
        intros u w. apply wsat_eq. intros i' _. rewrite upd_upd.
        destruct (Z.leb_spec (n + 1) n); [lia | reflexivity].
      * rewrite (Hab k) by lia. unfold ABBA.has_output.
        rewrite (voted_output_none n k (n - 1) Hn) by lia.
        rewrite andb_false_r.
        apply triple_ret. intros w [Hw _].
        destruct (Z.leb_spec (k + 1) n); [exact Hw | lia].
    + intros w [Hw Hg]. unfold J. destruct (Z.leb_spec 1 n); [|lia].
      apply (wsat_same n s S w n o); [exact Hw | exact Hi | exact Hg|].
      apply (sat_og n s n _ o (Exact []) Ho).
      pose proof (sat_out _ _ _ _ _ Ho) as Hout. now rewrite Hog in Hout.
  - intros _. unfold J. destruct (Z.leb_spec (n + 1) n) as [|_]; [lia|].
    apply (triple_bind _ _ _
      (fun _ => wsat n s
         (upd S n (sp_og (sp_ab (S n) (fun j => if j <? n then defaulted n j
                                                else voted n n n))
                         (Exact [(n, 1)]))))).
    + unfold _inject_default_votes. apply t_read; [exact Hi|]. intros o1 Ho1.
      rewrite upd_same in Ho1.
      pose proof (sat_out _ _ _ _ _ Ho1) as Hout.
      cbn [og sp_og out_sat] in Hout.
      rewrite Hout, (sat_n _ _ _ _ _ Ho1).
      change (PyDict.len [(n, 1)] >? 0) with true. cbv iota. apply t_keep.
      set (J' := fun k => wsat n s
             (upd S n (sp_og (sp_ab (S n)
                 (fun j => if (j <? k) && (j <? n) then defaulted n j
                           else ab (S n) j))
                 (Exact [(n, 1)])))).
      apply (triple_conseq _ (J' 1) _ _ (fun _ => J' (n + 1))).
      * apply (triple_for_range J'); [lia|]. intros k Hk. unfold J'.
        apply t_read; [exact Hi|]. intros o2 Ho2.
        rewrite upd_same in Ho2.
        pose proof (sat_out _ _ _ _ _ Ho2) as Hout2.
        cbn [og sp_og out_sat] in Hout2.
        rewrite Hout2, (sat_id _ _ _ _ _ Ho2).
        unfold PyDict.contains. cbn [PyDict.get].
        destruct (Z.eqb_spec k n) as [->|Hne].
        -- apply triple_ret. intros w [Hw _]. revert Hw.
           apply wsat_conv. conv_tac.
        -- apply t_keep. eapply triple_post; [apply t_abba_input; lia|].
           intros u w. apply wsat_conv. conv_tac.
           unfold defaulted. now rewrite Hab by lia.
      * intros w. apply wsat_conv. conv_tac.
      * intros u w. apply wsat_conv. conv_tac.
        match goal with |- ab (S n) ?j = _ => replace j with n by lia end.
        exact Habn.
    + intros _. apply t_read; [exact Hi|]. intros o1 Ho1.
      rewrite upd_same in Ho1.
      pose proof (sat_out _ _ _ _ _ Ho1) as Hout.
      cbn [og sp_og out_sat] in Hout.
      rewrite Hout, (sat_n _ _ _ _ _ Ho1).
      change (PyDict.len [(n, 1)]) with 1.
      destruct (Z.eqb_spec 1 n); [lia|].
      apply triple_ret. now intros w [Hw _].
Qed.

(** A node that has proposed votes 1 on the share of the sender [p]; what
    follows is up to [_process_abba]. *)
Lemma t_process_share S i p (Q : unit -> world -> Prop) :
  1 <= i <= n -> 1 <= p <= n -> sf (S i) = true ->
  triple (wsat n s (fun k => vote_spec (S k) p i 1)) (_process_abba i) Q ->
  triple (wsat n s S) (_process_share i p (p, s)) Q.
Proof.
  intros Hi Hp Hsf HQ. unfold _process_share.
  apply t_read; [exact Hi|]. intros o Ho.
  rewrite (sat_shares _ _ _ _ _ Ho), Hsf, (index_common n s p Hp).
  rewrite Z.eqb_refl. cbn [negb].
  rewrite (sat_honest _ _ _ _ _ Ho), (sat_id _ _ _ _ _ Ho), Z.eqb_refl.
  rewrite bind_ret.
  apply (triple_bind _ _ _ (fun _ => wsat n s S)).
  - eapply triple_post.
    + apply (t_update_at n s S i _ (S i) o Hi). now apply sat_set_vi.
    + intros u w. apply wsat_eq. intros k _. unfold upd.
      destruct (Z.eqb_spec k i) as [->|]; reflexivity.
  - intros _. apply t_ids.
    apply (triple_bind _ _ _ (fun _ => wsat n s (fun k => vote_spec (S k) p i 1))).
    + apply (t_vote_all n s Hn). exact Hp.
    + intros _. exact HQ.
Qed.

(** A delivery to a node that has not proposed is buffered. *)
Lemma t_deliver_buffer S i p :
  1 <= i <= n -> 1 <= p -> sf (S i) = false ->
  pn (S i) = p - 1 -> rn (S i) = p - 1 ->
  triple (wsat n s S) (on_rbc_delivery i p (p, s))
         (fun _ => wsat n s (upd S i (sp_pn (sp_rn (S i) p) p))).
Proof.
  intros Hi Hp Hsf Hpn Hrn. unfold on_rbc_delivery.
  apply (triple_bind _ _ _ (fun _ => wsat n s (upd S i (sp_rn (S i) p)))).
  - apply t_update; [exact Hi|]. intros o Ho.
    apply sat_set_rbc; [exact Ho|]. intros j Hj.
    destruct (Z.eq_dec j p) as [->|Hne]; [apply dict_contains_set_same|].
    apply dict_contains_set. apply (sat_rbc _ _ _ _ _ Ho). lia.
  - intros _. apply t_read; [exact Hi|]. intros o1 Ho1.
    rewrite upd_same in Ho1.
    pose proof (sat_shares _ _ _ _ _ Ho1) as Hsh.
    cbn [sf sp_rn] in Hsh. rewrite Hsf in Hsh. rewrite Hsh.
    eapply triple_post.
    + apply (t_update_at n s _ i _ (sp_pn (sp_rn (S i) p) p) o1 Hi).
      pose proof (sat_set_pending n s i _ o1 p Ho1) as Hp'.
      rewrite (sat_pending _ _ _ _ _ Ho1). cbn [pn sp_rn]. rewrite Hpn.
      pose proof (buffered_snoc s (p - 1) ltac:(lia)) as E.
      replace (p - 1 + 1) with p in E by lia.
      rewrite E in Hp'. exact Hp'.
    + intros u w. apply wsat_eq. intros k _. apply upd_upd.
Qed.

(** A delivery to a node that has proposed is processed at once. *)
Lemma t_deliver_process S i p (Q : unit -> world -> Prop) :
  1 <= i <= n -> 1 <= p <= n -> sf (S i) = true -> rn (S i) = p - 1 ->
  triple (wsat n s (upd S i (sp_rn (S i) p))) (_process_share i p (p, s)) Q ->
  triple (wsat n s S) (on_rbc_delivery i p (p, s)) Q.
Proof.
  intros Hi Hp Hsf Hrn HQ. unfold on_rbc_delivery.
  apply (triple_bind _ _ _ (fun _ => wsat n s (upd S i (sp_rn (S i) p)))).
  - apply t_update; [exact Hi|]. intros o Ho.
    apply sat_set_rbc; [exact Ho|]. intros j Hj.
    destruct (Z.eq_dec j p) as [->|Hne]; [apply dict_contains_set_same|].
    apply dict_contains_set. apply (sat_rbc _ _ _ _ _ Ho). lia.
  - intros _. apply t_read; [exact Hi|]. intros o1 Ho1.
    rewrite upd_same in Ho1.
    pose proof (sat_shares _ _ _ _ _ Ho1) as Hsh.
    cbn [sf sp_rn] in Hsh. rewrite Hsf in Hsh. rewrite Hsh.
    destruct (common_shares n s) as [|a l] eqn:E.
    + exfalso. apply (f_equal (@length share)) in E. unfold common_shares in E.
      rewrite length_map, length_range in E. cbn [length] in E. lia.
    + apply t_keep. exact HQ.
Qed.

End Shares.

(** ** Proposals *)

Ltac min_tac :=
  repeat match goal with
  | |- context [Z.min ?a ?b] =>
    first [ replace (Z.min a b) with a by lia
          | replace (Z.min a b) with b by lia ]
  | |- context [?a + 1 - 1] => replace (a + 1 - 1) with a by lia
  end.

Ltac spec_at_self :=
  unfold upd; rewrite ?Z.eqb_refl;
  unfold proposed, delivering, catching_up, finishing, polling;
  spec_simpl; repeat (progress (zsplit; spec_simpl)).

Ltac spec_now := spec_at_self; try reflexivity; try lia.

Section Proposals.
Context `{PyRandom}.
Variables n s : Z.
Hypothesis Hn : 1 <= n.
Hypothesis Hs : 0 <= s < _PRIME.

Lemma triple_pure {A} (phi : Prop) (P : world -> Prop) (m : M A)
    (Q : A -> world -> Prop) :
  (phi -> triple P m Q) -> triple (fun w => phi /\ P w) m Q.
Proof. intros Hm w [Hphi Hw]. now apply Hm. Qed.

Lemma t_ECEnc S :
  triple (wsat n s S) (ECEnc_M n 1 s)
         (fun sh w => sh = common_shares n s /\ wsat n s S w).
Proof.
  intros w Hw. unfold ECEnc_M. rewrite (ECEnc_one n s (random w) Hs).
  eexists _, _. split; [reflexivity|]. split; [reflexivity | exact Hw].
Qed.

(** A delivery that completes no instance of the receiver. *)
Lemma t_deliver_quiet p k :
  1 <= p <= n -> 1 <= k <= n -> (k <= p -> k < n) ->
  triple (wsat n s (delivering n p k)) (on_rbc_delivery k p (p, s))
         (fun _ => wsat n s (delivering n p (k + 1))).
Proof.
  intros Hp Hk Hq. destruct (Z_le_gt_dec k p) as [Hle|Hgt].
  - apply (t_deliver_process n s Hn); [exact Hk | exact Hp | | |].
    + spec_now.
    + spec_now.
    + apply (t_process_share n s Hn); [exact Hk | exact Hp | |].
      * spec_now.
      * eapply triple_post.
        { apply (pa_quiet n s Hn); [exact Hk | |].
          - spec_now.
          - intros j Hj. spec_at_self; min_tac.
            + rewrite voted_next by lia. apply voted_output_none; lia.
            + apply voted_output_none; lia.
            + apply voted_output_none; lia. }
        intros u w. apply wsat_conv. conv_tac; min_tac;
          try (apply voted_next; lia); try (f_equal; lia).
  - eapply triple_post.
    + apply t_deliver_buffer; [exact Hk | lia | | |].
      * spec_now.
      * spec_now.
      * spec_now.
    + intros u w. apply wsat_conv. conv_tac; min_tac; try (f_equal; lia).
Qed.

Lemma t_broadcast_quiet p :
  1 <= p < n ->
  triple (wsat n s (delivering n p 1)) (broadcast p (p, s))
         (fun _ => wsat n s (delivering n p (n + 1))).
Proof.
  intros Hp. unfold broadcast. apply t_ids.
  apply (triple_for_range (fun k => wsat n s (delivering n p k))); [lia|].
  intros k Hk. apply t_deliver_quiet; lia.
Qed.

(** The proposer votes on a delivery that it had buffered. *)
Lemma t_catch_up p k :
  1 <= p < n -> 1 <= k < p ->
  triple (wsat n s (catching_up n p k)) (_process_share p k (k, s))
         (fun _ => wsat n s (catching_up n p (k + 1))).
Proof.
  intros Hp Hk.
  apply (t_process_share n s Hn); [lia | lia | |].
  - spec_now.
  - eapply triple_post.
    { apply (pa_quiet n s Hn); [lia | |].
      - spec_now.
      - intros j Hj. spec_at_self;
          try rewrite voted_next by lia; apply voted_output_none; lia. }
    intros u w. apply wsat_conv. conv_tac;
      try (apply voted_next; lia); try (f_equal; lia).
Qed.

(** The frame of [propose]: sharing, broadcast, buffered deliveries. *)
Lemma t_propose p (B C : Z -> node_spec) :
  1 <= p <= n ->
  triple (wsat n s (delivering n p 1)) (broadcast p (p, s))
         (fun _ => wsat n s B) ->
  pn (B p) = p - 1 ->
  triple (wsat n s B)
         (for_each (range 1 p) (fun k => _process_share p k (k, s)))
         (fun _ => wsat n s C) ->
  triple (wsat n s (proposed n (p - 1))) (propose p s)
         (fun _ => wsat n s (upd C p (sp_pn (C p) 0))).
Proof.
  intros Hp HB HpB HC. unfold propose.
  apply t_read; [exact Hp|]. intros o Ho. apply t_keep.
  rewrite (sat_honest _ _ _ _ _ Ho), (sat_n _ _ _ _ _ Ho),
    (sat_t _ _ _ _ _ Ho), (sat_id _ _ _ _ _ Ho).
  change (0 + 1) with 1.
  apply (triple_bind _ _ _ _ _ (t_ECEnc _)).
  intros shares. apply triple_pure. intros ->.
  apply (triple_bind _ _ _ (fun _ => wsat n s (delivering n p 1))).
  - eapply triple_post.
    + apply t_update; [exact Hp|]. intros o1 Ho1.
      apply (sat_set_shares n s p _ o1 Ho1).
    + intros u w. apply wsat_conv. conv_tac; min_tac; try (f_equal; lia).
  - intros _. rewrite (index_common n s p Hp).
    apply (triple_bind _ _ _ _ _ HB). intros _.
    apply t_read; [exact Hp|]. intros o1 Ho1. apply t_keep.
    rewrite (sat_pending _ _ _ _ _ Ho1), HpB.
    unfold buffered. rewrite for_each_map. cbn [fst snd].
    replace (p - 1 + 1) with p by lia.
    apply (triple_bind _ _ _ _ _ HC). intros _.
    apply t_update; [exact Hp|]. intros o2 Ho2.
    exact (sat_set_pending n s p _ o2 0 Ho2).
Qed.

Lemma t_propose_quiet p :
  1 <= p < n ->
  triple (wsat n s (proposed n (p - 1))) (propose p s)
         (fun _ => wsat n s (proposed n p)).
Proof.
  intros Hp. eapply triple_post.
  - apply (t_propose p (delivering n p (n + 1)) (catching_up n p p));
      [lia | apply t_broadcast_quiet; exact Hp | |].
    + spec_now.
    + apply (triple_conseq _ (wsat n s (catching_up n p 1)) _ _
               (fun _ => wsat n s (catching_up n p p))).
      * apply (triple_for_range (fun k => wsat n s (catching_up n p k)));
          [lia|]. intros k Hk. apply t_catch_up; lia.
      * intros w. apply wsat_conv. conv_tac; min_tac; try (f_equal; lia).
      * auto.
  - intros u w. apply wsat_conv. conv_tac; try (f_equal; lia).
Qed.

(** The last proposal: the last node sees its own instance decide. *)
Lemma t_broadcast_last :
  2 <= n ->
  triple (wsat n s (delivering n n 1)) (broadcast n (n, s))
         (fun _ => wsat n s (finishing n 1)).
Proof.
  intros H2. unfold broadcast. apply t_ids.
  set (J := fun k w => if k <=? n then wsat n s (delivering n n k) w
                       else wsat n s (finishing n 1) w).
  apply (triple_conseq _ (J 1) _ _ (fun _ => J (n + 1))).
  - apply (triple_for_range J); [lia|]. intros k Hk. unfold J.
    destruct (Z.leb_spec k n) as [_|]; [|lia].
    destruct (Z.leb_spec (k + 1) n) as [Hlt|Hge].
    + apply t_deliver_quiet; lia.
    + assert (k = n) by lia. subst k.
      apply (t_deliver_process n s Hn); [lia | lia | | |].
      * spec_now.
      * spec_now.
      * apply (t_process_share n s Hn); [lia | lia | |].
        -- spec_now.
        -- eapply triple_post.
           { apply (pa_first n s Hn); [exact H2 | | |].
             - spec_now.
             - intros j Hj. spec_now.
             - spec_at_self; min_tac. apply voted_next. lia. }
           intros u w. apply wsat_conv. conv_tac; min_tac;
             try (apply voted_next; lia); try (f_equal; lia).
  - intros w. unfold J. destruct (Z.leb_spec 1 n); [auto | lia].
  - intros u w. unfold J. destruct (Z.leb_spec (n + 1) n); [lia | auto].
Qed.

Lemma t_finish_step k :
  2 <= n -> 1 <= k < n ->
  triple (wsat n s (finishing n k)) (_process_share n k (k, s))
         (fun _ => wsat n s (finishing n (k + 1))).
Proof.
  intros H2 Hk.
  apply (t_process_share n s Hn); [lia | lia | |].
  - spec_now.
  - eapply triple_post.
    { apply (pa_decided n s Hn Hs); [lia | | | |].
      - spec_now.
      - spec_now.
      - intros j Hj. spec_at_self;
          try rewrite defaulted_again by lia;
          try (apply defaulted_state; lia);
          apply voted_output_one; lia.
      - intros d. spec_at_self; cbn [out_sat].
        + intros ->. apply ones_out_single. lia.
        + intros [Hd _]. exact Hd. }
    intros u w. apply wsat_conv. conv_tac;
      try (apply defaulted_again; lia);
      try (apply voted_next; lia); try (f_equal; lia).
Qed.

Lemma t_propose_last :
  2 <= n ->
  triple (wsat n s (proposed n (n - 1))) (propose n s)
         (fun _ => wsat n s (polling n 1)).
Proof.
  intros H2. eapply triple_post.
  - apply (t_propose n (finishing n 1) (finishing n n));
      [lia | apply t_broadcast_last; exact H2 | |].
    + spec_now.
    + apply (triple_for_range (fun k => wsat n s (finishing n k))); [lia|].
      intros k Hk. apply t_finish_step; [exact H2 | lia].
  - intros u w. apply wsat_conv. conv_tac; try (f_equal; lia).
Qed.

(** A single node finishes within its own proposal. *)
Lemma t_propose_one :
  n = 1 ->
  triple (wsat n s (proposed n (n - 1))) (propose n s)
         (fun _ => wsat n s (polling n 1)).
Proof.
  intros H1.
  set (B := upd (fun k => vote_spec
                   (upd (delivering n n n) n (sp_rn (delivering n n n n) n) k)
                   n n 1)
                n (sp_dn (sp_og (vote_spec (sp_rn (delivering n n n n) n) n n 1)
                                (Ones n)) true)).
  eapply triple_post.
  - apply (t_propose n B B); [lia | | |].
    + unfold broadcast. apply t_ids.
      set (J := fun k w => if k <=? n then wsat n s (delivering n n k) w
                           else wsat n s B w).
      apply (triple_conseq _ (J 1) _ _ (fun _ => J (n + 1))).
      * apply (triple_for_range J); [lia|]. intros k Hk. unfold J.
        destruct (Z.leb_spec k n) as [_|]; [|lia].
        destruct (Z.leb_spec (k + 1) n) as [Hlt|Hge]; [lia|].
        assert (k = n) by lia. subst k.
        apply (t_deliver_process n s Hn); [lia | lia | | |].
        -- spec_now.
        -- spec_now.
        -- apply (t_process_share n s Hn); [lia | lia | |].
           ++ spec_now.
           ++ eapply triple_post.
              { apply (pa_decided n s Hn Hs); [lia | | | |].
                - spec_now.
                - spec_now.
                - intros j Hj. spec_at_self; min_tac.
                  rewrite voted_next by lia. apply voted_output_one; lia.
                - intros d. spec_at_self. cbn [out_sat]. intros ->.
                  apply ones_out_nil. }
              intros u w. unfold B, upd at 1 3. rewrite Z.eqb_refl. auto.
      * intros w. unfold J. destruct (Z.leb_spec 1 n); [auto | lia].
      * intros u w. unfold J. destruct (Z.leb_spec (n + 1) n); [lia | auto].
    + unfold B. spec_now.
    + rewrite (range_nil 1 n) by lia. cbn [for_each].
      now apply triple_ret.
  - intros u w. apply wsat_conv. unfold B. conv_tac; min_tac;
      try (rewrite voted_next by lia); try (f_equal; lia).
Qed.

(** Every node proposes in turn. *)
Lemma t_propose_all :
  triple (wsat n s (proposed n 0))
         (for_each (range 1 (n + 1)) (fun i => propose i s))
         (fun _ => wsat n s (polling n 1)).
Proof.
  set (J := fun k w => if k <=? n then wsat n s (proposed n (k - 1)) w
                       else wsat n s (polling n 1) w).
  apply (triple_conseq _ (J 1) _ _ (fun _ => J (n + 1))).
  - apply (triple_for_range J); [lia|]. intros k Hk. unfold J.
    destruct (Z.leb_spec k n) as [_|]; [|lia].
    destruct (Z.leb_spec (k + 1) n) as [Hlt|Hge].
    + replace (k + 1 - 1) with k by lia. apply t_propose_quiet. lia.
    + assert (k = n) by lia. subst k.
      destruct (Z.eq_dec n 1) as [H1|H1].
      * now apply t_propose_one.
      * apply t_propose_last. lia.
  - intros w. unfold J. destruct (Z.leb_spec 1 n); [auto | lia].
  - intros u w. unfold J. destruct (Z.leb_spec (n + 1) n); [lia | auto].
Qed.

End Proposals.

(** ** The driver on a run without faults *)

Lemma dict_get_in {V} (d : dict V) k v :
  PyDict.get d k = Some v -> In (k, v) d.
Proof.
  induction d as [|[k' v'] d IH]; cbn [PyDict.get]; [discriminate|].
  destruct (Z.eqb_spec k k') as [->|Hne].
  - intros E. injection E as ->. now left.
  - intros E. right. now apply IH.
Qed.

Section Run.
Context `{PyRandom}.
Variables n s : Z.
Hypothesis Hn : 1 <= n.
Hypothesis Hs : 0 <= s < _PRIME.

Lemma bind_ok {A B} (m : M A) (f : A -> M B) w a w1 :
  m w = (Ok a, w1) -> bind m f w = f a w1.
Proof. intros E. unfold bind. now rewrite E. Qed.

(** The constructors register [n] fresh honest nodes. *)
Lemma t_create :
  triple (fun w => NODES w = [])
         (for_each (range 1 (n + 1)) (fun i =>
            __init__ i n 0 ((1 <=? i) && (i <? 0 + 1))))
         (fun _ => wsat n s (proposed n 0)).
Proof.
  set (J := fun k w =>
         NODES w = map (fun i => (i, OciorABAStarNode.new i n 0 false))
                       (range 1 k)).
  apply (triple_conseq _ (J 1) _ _ (fun _ => J (n + 1))).
  - apply (triple_for_range J); [lia|]. intros k Hk w Hw. unfold J in *.
    exists tt. eexists. split; [reflexivity|].
    cbn [NODES]. rewrite Hw.
    replace ((1 <=? k) && (k <? 0 + 1)) with false
      by (destruct (Z.leb_spec 1 k); destruct (Z.ltb_spec k (0 + 1));
          try reflexivity; lia).
    rewrite dict_set_absent.
    + rewrite (range_snoc 1 k) by lia. now rewrite map_app.
    + destruct (PyDict.get _ k) as [o|] eqn:G; [|reflexivity].
      apply dict_get_map_graph in G. destruct G as [_ G].
      apply in_range in G. lia.
  - intros w Hw. unfold J. rewrite range_nil by lia. exact Hw.
  - intros u w Hw. unfold J in Hw. split.
    + rewrite Hw. apply dict_keys_graph.
    + intros i Hi. exists (OciorABAStarNode.new i n 0 false). split.
      * rewrite Hw.
        apply (dict_get_graph (fun i => OciorABAStarNode.new i n 0 false)).
        apply in_range. lia.
      * apply (sat_ext n s i _ _ _ (sat_new n s i)); unfold proposed;
          spec_simpl; zsplit; try reflexivity; try lia; auto.
        intros j Hj. zsplit; reflexivity.
Qed.

(** One pass of the waiting loop finishes every node. *)
Lemma t_poll_round :
  triple (wsat n s (polling n 1))
         (bind node_ids (fun ids => for_each ids poll))
         (fun _ => wsat n s (polling n (n + 1))).
Proof.
  apply t_ids.
  apply (triple_for_range (fun k => wsat n s (polling n k))); [lia|].
  intros k Hk. unfold poll. apply t_read; [lia|]. intros o Ho.
  rewrite (sat_complete _ _ _ _ _ Ho).
  destruct (Z.eq_dec k n) as [->|Hne].
  - replace (dn (polling n n n)) with true by spec_now.
    apply triple_ret. intros w [Hw _]. revert Hw.
    apply wsat_conv. conv_tac; try (f_equal; lia).
  - replace (dn (polling n k k)) with false by spec_now.
    apply t_keep. eapply triple_post.
    { apply (pa_decided n s Hn Hs); [lia | | | |].
      - spec_now.
      - spec_now.
      - intros j Hj. spec_at_self; apply voted_output_one; lia.
      - intros d. spec_at_self. cbn [out_sat]. intros ->.
        apply ones_out_nil. }
    intros u w. apply wsat_conv. conv_tac; try (f_equal; lia).
Qed.

Lemma all_complete_done S w :
  wsat n s S w -> (forall i, 1 <= i <= n -> dn (S i) = true) ->
  all_complete w = true.
Proof.
  intros [Hk Hw] Hdn. unfold all_complete. apply forallb_forall.
  intros x Hx. unfold PyDict.values in Hx. apply in_map_iff in Hx.
  destruct Hx as [[i x'] [E Hin]]. cbn [snd] in E. subst x'.
  assert (Hnd : NoDup (PyDict.keys (NODES w)))
    by (rewrite Hk; apply NoDup_range).
  assert (Hi : 1 <= i <= n).
  { assert (Hik : In i (PyDict.keys (NODES w)))
      by (apply (in_map fst _ _ Hin)).
    rewrite Hk in Hik. apply in_range in Hik. lia. }
  destruct (Hw i Hi) as [o [Hg Ho]].
  rewrite (dict_in_get _ _ _ Hnd Hin) in Hg. injection Hg as ->.
  rewrite (sat_complete _ _ _ _ _ Ho). now apply Hdn.
Qed.

Lemma complete_final S w i :
  wsat n s S w -> all_complete w = true -> 1 <= i <= n ->
  exists o, PyDict.get (NODES w) i = Some o
            /\ OciorABAStarNode.protocol_complete o = true
            /\ OciorABAStarNode.final_decision o = Some s.
Proof.
  intros Hw Hall Hi. destruct (wsat_get n s S w i Hw Hi) as [o [Hg Ho]].
  exists o. split; [exact Hg|].
  assert (Hc : OciorABAStarNode.protocol_complete o = true).
  { unfold all_complete in Hall.
    apply (proj1 (forallb_forall _ _) Hall).
    apply (in_map snd _ _ (dict_get_in _ _ _ Hg)). }
  split; [exact Hc|].
  rewrite (sat_final _ _ _ _ _ Ho).
  rewrite (sat_complete _ _ _ _ _ Ho) in Hc. now rewrite Hc.
Qed.

Lemma wait_loop_done rounds w :
  wsat n s (polling n 1) w -> (1 <= rounds)%nat ->
  exists S w', wait_loop rounds w = (Ok tt, w')
               /\ wsat n s S w' /\ all_complete w' = true.
Proof.
  intros Hw Hr. destruct rounds as [|r]; [lia|]. cbn [wait_loop].
  destruct (all_complete w) eqn:C.
  - exists (polling n 1), w. auto.
  - destruct (t_poll_round w Hw) as [u [w1 [E Hw1]]].
    rewrite (bind_ok _ _ _ _ _ E).
    assert (C1 : all_complete w1 = true).
    { apply (all_complete_done _ _ Hw1). intros i Hi. spec_now. }
    exists (polling n (n + 1)), w1.
    split; [|split; [exact Hw1 | exact C1]].
    destruct r; cbn [wait_loop]; now rewrite C1.
Qed.

Lemma main_completes rounds w :
  (1 <= rounds)%nat ->
  exists w', main n 0 s rounds w = (Ok Results, w')
    /\ PyDict.keys (NODES w') = range 1 (n + 1)
    /\ forall i, 1 <= i <= n ->
         exists o, PyDict.get (NODES w') i = Some o
                   /\ OciorABAStarNode.protocol_complete o = true
                   /\ OciorABAStarNode.final_decision o = Some s.
Proof.
  intros Hr. unfold main.
  destruct (Z.ltb_spec n (3 * 0 + 1)) as [|_]; [lia|].
  assert (E0 : clear_nodes w = (Ok tt, mkWorld PyDict.empty (random w)))
    by reflexivity.
  rewrite (bind_ok _ _ _ _ _ E0).
  destruct (t_create (mkWorld PyDict.empty (random w)) eq_refl)
    as [u1 [w1 [E1 Hw1]]].
  rewrite (bind_ok _ _ _ _ _ E1).
  destruct (t_propose_all n s Hn Hs w1 Hw1) as [u2 [w2 [E2 Hw2]]].
  rewrite (bind_ok _ _ _ _ _ E2).
  destruct (wait_loop_done rounds w2 Hw2 Hr) as [S [w3 [E3 [Hw3 C3]]]].
  rewrite (bind_ok _ _ _ _ _ E3). rewrite C3.
  exists w3. split; [reflexivity|]. split; [exact (proj1 Hw3)|].
  intros i Hi. now apply (complete_final S).
Qed.

End Run.

(** Property X23. With [t = 0], for every number [n >= 1] of nodes, every
    secret in [0, _PRIME), every generator and every registry at the start,
    the script returns: no call raises, the waiting loop needs at most the
    one pass that the timeout always allows, the script reaches the final
    results instead of [sys.exit(1)], and each of the nodes [1 .. n] is
    registered, has [protocol_complete] and holds the secret as its
    [final_decision]. *)
Theorem fault_free_run_decides `{PyRandom} (n secret : Z) (rounds : nat)
    (w : world) :
  1 <= n -> 0 <= secret < _PRIME -> (1 <= rounds)%nat ->
  exists w', main n 0 secret rounds w = (Ok Results, w')
    /\ PyDict.keys (NODES w') = range 1 (n + 1)
    /\ forall i, 1 <= i <= n ->
         exists o, PyDict.get (NODES w') i = Some o
                   /\ OciorABAStarNode.protocol_complete o = true
                   /\ OciorABAStarNode.final_decision o = Some secret.
Proof.
  intros Hn Hs Hr. now apply main_completes.
Qed.

Lemma fault_free_run_decides_witness :
  1 <= 3 /\ 0 <= 2025 < _PRIME /\ (1 <= 1)%nat
  /\ exists w', @main constant_rng 3 0 2025 1 (@start constant_rng tt)
                = (Ok Results, w')
    /\ PyDict.keys (NODES w') = range 1 (3 + 1)
    /\ forall i, 1 <= i <= 3 ->
         exists o, PyDict.get (NODES w') i = Some o
                   /\ OciorABAStarNode.protocol_complete o = true
                   /\ OciorABAStarNode.final_decision o = Some 2025.
Proof.
  assert (Hs : 0 <= 2025 < _PRIME) by (split; [lia | reflexivity]).
  split; [lia|]. split; [exact Hs|]. split; [lia|].
  apply (@fault_free_run_decides constant_rng 3 2025 1
           (@start constant_rng tt)); [lia | exact Hs | lia].
Defined.
